(** * rotation_logger: a shallow embedding of [rotation_logger.c] (v1.1.5)

  The program is a rotating [tee]: it copies standard input to standard
  output and to a log file, starts a new log file when the current one is
  too big or too old, and unlinks the oldest log files.

  Layout of this development:
  - [CInt]    : the C integer conversions the program relies on;
  - [Scan]    : the C library scanners the program calls
                ([sscanf ("%ld%c")] and [atoi]);
  - [Options] : the option loop of [main] and the sanitising of the limits;
  - [Filter]  : [prefixFilter] with [strlen]/[strncmp];
  - [Sys]     : the world the program runs in (files, clock, local time,
                standard input) and the library and system calls it
                makes, with their trace;
  - [Logger]  : [purgeOldFiles], [nextFile] and the copy loop of [main];
  - [Dirs]    : [make_dir] and [mkdir_parents] over a tree of
                directories;
  - [ArgSpec], [FileSpec], [TraceSpec] and the modules that read
    arguments and traces: the words in which the properties are stated;
  - the lemmas and theorems. *)

From Stdlib Require Import ZArith Ascii String List Lia Bool.
From stdpp Require Import base option list gmap strings sorting.

Local Open Scope Z_scope.

Abbreviation byte := Byte.byte.

(** ** C integer types

  [size_t] is an unsigned 64 bit integer, [long] and [time_t] signed 64 bit
  integers and [int] a signed 32 bit integer (gcc on Linux/x86-64, the
  platform of the Makefile).  Conversions to a narrower or unsigned type
  keep the low bits. *)
Module CInt.

Definition ULONG_MOD : Z := 2 ^ 64.
Definition LONG_MAX : Z := 2 ^ 63 - 1.
Definition LONG_MIN : Z := - 2 ^ 63.
Definition INT_MAX : Z := 2 ^ 31 - 1.
Definition INT_MIN : Z := - 2 ^ 31.

(** Conversion to [size_t]. *)
Definition to_size_t (z : Z) : Z := z mod ULONG_MOD.

(** Conversion to [int]. *)
Definition to_int (z : Z) : Z := (z + 2 ^ 31) mod 2 ^ 32 - 2 ^ 31.

(** What [strtol] returns for the mathematical value [z]. *)
Definition clamp_long (z : Z) : Z :=
  if z <? LONG_MIN then LONG_MIN
  else if LONG_MAX <? z then LONG_MAX
  else z.

End CInt.

(** ** The scanners of the C library

  [sscanf (optarg, "%ld%c", &value, &xx)] and [atoi (optarg)] are the two
  library calls that read numbers.  Both skip white space, accept an
  optional sign and then read decimal digits, as [strtol] does. *)
Module Scan.
Import CInt.

Definition isspace (c : ascii) : bool :=
  match c with
  | "009" | "010" | "011" | "012" | "013" | " " => true
  | _ => false
  end%char.

(** The value of a digit: its code less the code of ['0']. *)
Definition digit_val (c : ascii) : option Z :=
  let code := Z.of_N (N_of_ascii c) in
  if (48 <=? code) && (code <=? 57) then Some (code - 48) else None.

Definition isdigit (c : ascii) : bool :=
  match digit_val c with Some _ => true | None => false end.

Fixpoint skip_space (s : string) : string :=
  match s with
  | String c s' => if isspace c then skip_space s' else s
  | EmptyString => s
  end.

(** Reads the longest run of digits, accumulating its decimal value. *)
Fixpoint scan_digits (acc : Z) (s : string) : Z * string :=
  match s with
  | String c s' =>
      match digit_val c with
      | Some d => scan_digits (10 * acc + d) s'
      | None => (acc, s)
      end
  | EmptyString => (acc, s)
  end.

Definition starts_with_digit (s : string) : bool :=
  match s with
  | String c _ => isdigit c
  | EmptyString => false
  end.

Inductive scan_result : Type :=
| ScanEOF                            (* input exhausted before any item *)
| ScanNoMatch                        (* no digit where one is needed *)
| ScanOk (v : Z) (rest : string).    (* a [long] and the unread input *)

(** The [%ld] directive (and [strtol] in base 10): white space, optional
    sign, digits; an out-of-range value becomes [LONG_MAX] or [LONG_MIN]. *)
Definition scan_long (s : string) : scan_result :=
  match skip_space s with
  | EmptyString => ScanEOF
  | String c s2 as s1 =>
      let '(neg, s3) :=
        if Ascii.eqb c "-" then (true, s2)
        else if Ascii.eqb c "+" then (false, s2)
        else (false, s1) in
      if starts_with_digit s3 then
        let '(m, rest) := scan_digits 0 s3 in
        ScanOk (clamp_long (if neg then - m else m)) rest
      else ScanNoMatch
  end.

(** [sscanf (str, "%ld%c", &value, &xx)] where [value] is a [size_t]: the
    result is the return value [n] and the new contents of [value] and
    [xx].  [%c] reads the next character whatever it is; a directive that
    is not reached leaves its variable alone. *)
Definition sscanf_ld_c (str : string) (value : Z) (xx : ascii)
  : Z * Z * ascii :=
  match scan_long str with
  | ScanEOF => (-1, value, xx)
  | ScanNoMatch => (0, value, xx)
  | ScanOk v EmptyString => (1, to_size_t v, xx)
  | ScanOk v (String c _) => (2, to_size_t v, c)
  end.

(** [atoi (s)] is [(int) strtol (s, NULL, 10)]. *)
Definition atoi (s : string) : Z :=
  match scan_long s with
  | ScanOk v _ => to_int v
  | _ => 0
  end.

End Scan.

(** ** The option loop of [main] *)
Module Options.
Import CInt Scan.

(** What [getopt_long (argc, argv, "hva:s:k:", long_options, ...)] can
    return, with [optarg] where the option takes an argument. *)
Inductive getopt_ret : Type :=
| GotLong (name : string) (optarg : option string)   (* 0 *)
| GotHelp                                            (* 'h' *)
| GotVersion                                         (* 'v' *)
| GotAge (optarg : string)                           (* 'a' *)
| GotSize (optarg : string)                          (* 's' *)
| GotKeep (optarg : string)                          (* 'k' *)
| GotInvalid                                         (* '?' *)
| GotOther (c : Z).                                  (* anything else *)

(** The messages the program prints with [printf]. *)
Inductive printed : Type :=
| PUsage                                   (* printUsage () *)
| PHelpIntro                               (* first printf of printHelp *)
| PHelpOptions                             (* last printf of printHelp *)
| PVersion
| PUnexpectedOption (name : string) (optarg : option string)
| PAgeModifier (xx : ascii)                (* usage - age limit modifier *)
| PSizeModifier (xx : ascii)               (* usage - bad size modifier *)
| PGetoptCode (c : Z)
| PMissingArguments
| PBanner (directory prefix : string) (age size keep : Z).

Definition printUsage : list printed := [PUsage].
Definition printHelp : list printed := [PHelpIntro] ++ printUsage ++ [PHelpOptions].

(** The three option variables of [main]: [size_t sizeLimit],
    [int ageLimit] and [int numberToKeep]. *)
Record settings : Type := Settings {
  sizeLimit : Z;
  ageLimit : Z;
  numberToKeep : Z
}.

Definition defaults : settings :=
  {| sizeLimit := 50 * 1000 * 1000;
     ageLimit := 24 * 3600;
     numberToKeep := 40 |}.

(** One turn of the option loop either returns from [main] with an exit
    status or goes on with the updated variables. *)
Inductive turn : Type :=
| Return (status : Z)
| Next (s : settings).

(** The chain of tests on [xx] in [case 'a']: the scaled [value], or
    [None] where the code prints the modifier and returns. *)
Definition age_scale (value : Z) (xx : ascii) : option Z :=
  if Ascii.eqb xx " " then Some value
  else if Ascii.eqb xx "m" then Some (to_size_t (value * 60))
  else if Ascii.eqb xx "h" then Some (to_size_t (value * 3600))
  else if Ascii.eqb xx "d" then Some (to_size_t (value * 86400))
  else if Ascii.eqb xx "w" then Some (to_size_t (value * 604800))
  else None.

(** The same in [case 's']. *)
Definition size_scale (value : Z) (xx : ascii) : option Z :=
  if Ascii.eqb xx " " then Some value
  else if Ascii.eqb xx "K" then Some (to_size_t (value * 1000))
  else if Ascii.eqb xx "M" then Some (to_size_t (value * 1000000))
  else if Ascii.eqb xx "G" then Some (to_size_t (value * 1000000000))
  else None.

Definition case_age (optarg : string) (s : settings) : list printed * turn :=
  let '(n, value, xx) := sscanf_ld_c optarg 0 " "%char in
  if n <? 1 then (printUsage, Return 1)
  else
    match (if n =? 2 then age_scale value xx else Some value) with
    | None => ([PAgeModifier xx] ++ printUsage, Return 1)
    | Some value' =>
        ([], Next {| sizeLimit := sizeLimit s;
                     ageLimit := to_int value';
                     numberToKeep := numberToKeep s |})
    end.

Definition case_size (optarg : string) (s : settings) : list printed * turn :=
  let '(n, value, xx) := sscanf_ld_c optarg 0 " "%char in
  if n <? 1 then (printUsage, Return 1)
  else
    match (if n =? 2 then size_scale value xx else Some value) with
    | None => ([PSizeModifier xx] ++ printUsage, Return 1)
    | Some value' =>
        ([], Next {| sizeLimit := value';
                     ageLimit := ageLimit s;
                     numberToKeep := numberToKeep s |})
    end.

Definition case_keep (optarg : string) (s : settings) : list printed * turn :=
  ([], Next {| sizeLimit := sizeLimit s;
               ageLimit := ageLimit s;
               numberToKeep := atoi optarg |}).

(** The [switch (c)]. *)
Definition process_option (o : getopt_ret) (s : settings)
  : list printed * turn :=
  match o with
  | GotLong name optarg =>
      ([PUnexpectedOption name optarg] ++ printUsage, Return 2)
  | GotHelp => (printHelp, Return 0)
  | GotVersion => ([PVersion], Return 0)
  | GotAge optarg => case_age optarg s
  | GotSize optarg => case_size optarg s
  | GotKeep optarg => case_keep optarg s
  | GotInvalid => (printUsage, Return 1)
  | GotOther c => ([PGetoptCode c], Next s)
  end.

(** The [while (true)] around the switch; the list holds what the
    successive calls of [getopt_long] return before it returns -1. *)
Fixpoint process_options (os : list getopt_ret) (s : settings)
  : list printed * turn :=
  match os with
  | [] => ([], Next s)
  | o :: os' =>
      match process_option o s with
      | (out, Return status) => (out, Return status)
      | (out, Next s') =>
          let '(out', t) := process_options os' s' in (out ++ out', t)
      end
  end.

(** "Santise options": the three [if]s after the loop.  [sizeLimit] is
    unsigned, the other two are signed. *)
Definition sanitise (s : settings) : settings :=
  {| sizeLimit := if sizeLimit s <? 20 then 20 else sizeLimit s;
     ageLimit := if ageLimit s <? 10 then 10 else ageLimit s;
     numberToKeep := if numberToKeep s <? 1 then 1 else numberToKeep s |}.

(** Option processing as a whole: the loop, then the sanitising. *)
Definition parse_options (os : list getopt_ret) : list printed * turn :=
  match process_options os defaults with
  | (out, Return status) => (out, Return status)
  | (out, Next s) => (out, Next (sanitise s))
  end.

End Options.

(** ** [prefixFilter] *)
Module Filter.

Definition FULL_PATH_LEN : nat := 240.

(** [snprintf (buffer, size, ...)] stores at most [size - 1] characters of
    the formatted text [s]. *)
Definition snprintf (size : nat) (s : string) : string :=
  String.substring 0 (size - 1) s.

Definition strlen (s : string) : nat := String.length s.

(** [&s [n]]: the string that starts [n] characters into [s]. *)
Fixpoint string_drop (n : nat) (s : string) : string :=
  match n, s with
  | O, _ => s
  | S n', String _ s' => string_drop n' s'
  | S _, EmptyString => EmptyString
  end.

(** [strncmp (s1, s2, n)]: compares at most [n] characters, as unsigned
    characters, and stops at the end of either string. *)
Fixpoint strncmp (s1 s2 : string) (n : nat) {struct n} : comparison :=
  match n with
  | O => Eq
  | S n' =>
      match s1, s2 with
      | EmptyString, EmptyString => Eq
      | EmptyString, String _ _ => Lt
      | String _ _, EmptyString => Gt
      | String c1 s1', String c2 s2' =>
          match Ascii.compare c1 c2 with
          | Eq => strncmp s1' s2' n'
          | o => o
          end
      end
  end.

Definition is_zero (c : comparison) : bool :=
  match c with Eq => true | _ => false end.

(** The static [thePrefix] is set by [purgeOldFiles] just before
    [scandir] calls the filter; here it is the first argument.  [entry]
    is the [struct dirent*], [None] for a null pointer, otherwise its
    [d_name]. *)
Definition prefixFilter (thePrefix : string) (entry : option string) : Z :=
  match entry with
  | None => 0
  | Some d_name =>
      let pl := strlen thePrefix in
      let dl := strlen d_name in
      if Nat.eqb dl (pl + 23) then
        let prefixOkay := is_zero (strncmp d_name thePrefix pl) in
        let suffixOkay :=
          is_zero (strncmp (string_drop (dl - 4) d_name) ".log" 4) in
        if prefixOkay && suffixOkay then 1 else 0
      else 0
  end.

End Filter.

(** ** The world of the program and its system calls *)
Module Sys.
Import Options.

Definition newline : byte := Byte.x0a.

(** A file descriptor as the program holds it: standard output, the log
    file created at [path], or [-1]. *)
Inductive fdesc : Type :=
| FdStdout
| FdLog (path : string)
| FdBad.

#[global] Instance fdesc_eq_dec : EqDecision fdesc.
Proof. solve_decision. Defined.

(** What one call of [read (STDIN_FILENO, buffer, sizeof (buffer))]
    returns: some bytes (none at the end of input), or [-1] with [errno]
    [EINTR] or another error. *)
Inductive read_result : Type :=
| ReadBytes (buffer : list byte)
| ReadEINTR
| ReadFail.

(** What the system does with one [write] of data: it fails, or takes at
    most [n] bytes. *)
Inductive write_outcome : Type :=
| WriteFail
| WriteAtMost (n : nat).

Inductive event : Type :=
| EvPrintf (p : printed)
| EvMkdirParents (dirpath : string) (ok : bool)
| EvRead (r : read_result)
| EvWrite (fd : fdesc) (data : list byte) (ret : Z)
| EvMismatch (m1 m2 : Z)
| EvClose (fd : fdesc)
| EvTime (t : Z)
| EvScandir (dir : string) (ret : option (list string))
| EvUnlink (path : string) (ret : Z)
| EvCreat (path : string) (ret : fdesc)
| EvPerror (message : string).

(** [struct tm]: the fields [strftime] reads for the time image.
    [tm_year] counts from 1900 and [tm_mon] from January. *)
Record tm : Type := Tm {
  tm_sec : Z;
  tm_min : Z;
  tm_hour : Z;
  tm_mday : Z;
  tm_mon : Z;
  tm_year : Z
}.

Definition digit_char (d : Z) : ascii := ascii_of_nat (48 + Z.to_nat d).

(** The decimal digits of [n], which is not negative, in front of
    [acc]; [fuel] bounds their number. *)
Fixpoint decimal_digits (fuel : nat) (n : Z) (acc : string) : string :=
  let acc' := String (digit_char (n mod 10)) acc in
  match fuel with
  | O => acc'
  | S fuel' => if n <? 10 then acc' else decimal_digits fuel' (n / 10) acc'
  end.

Definition decimal_text (n : Z) : string :=
  decimal_digits (Z.to_nat (Z.log2 n)) n EmptyString.

Fixpoint zeros (k : nat) : string :=
  match k with
  | O => EmptyString
  | S k' => String "0" (zeros k')
  end.

(** A number as [strftime] prints it for a conversion of at least
    [digits] digits: a minus sign if it is negative, zeros up to that
    width, the decimal digits. *)
Definition number_text (digits : nat) (n : Z) : string :=
  let body := decimal_text (Z.abs n) in
  let sign := if n <? 0 then "-" else EmptyString in
  sign +:+ zeros (digits - String.length body - String.length sign) +:+ body.

(** The text of the format ["%Y-%m-%d_%H-%M-%S"]: the year as it is,
    the other fields with two digits. *)
Definition stamp_text (a : tm) : string :=
  number_text 1 (tm_year a + 1900) +:+ "-" +:+
  number_text 2 (tm_mon a + 1) +:+ "-" +:+
  number_text 2 (tm_mday a) +:+ "_" +:+
  number_text 2 (tm_hour a) +:+ "-" +:+
  number_text 2 (tm_min a) +:+ "-" +:+
  number_text 2 (tm_sec a).

(** [char timeImage [24]] *)
Definition TIME_IMAGE_LEN : nat := 24.

(** [strftime (timeImage, sizeof (timeImage), "%Y-%m-%d_%H-%M-%S", tm)].
    A text that does not fit (a year of nine digits or more) leaves the
    array indeterminate; here it holds what fits. *)
Definition strftime_stamp (a : tm) : string :=
  Filter.snprintf TIME_IMAGE_LEN (stamp_text a).

(** The world: regular files by path name with their contents; the clock
    ([ticks] are the amounts by which it has advanced at the successive
    calls of [time], after which it stands still); the local time zone,
    that is, what [localtime] makes of an instant; what the file system
    permits; the outcomes of the successive writes of data (all complete
    once the list is used up); and the trace of the calls made so far. *)
Record world : Type := World {
  files : gmap string (list byte);
  now : Z;
  ticks : list Z;
  localtime : Z → tm;
  may_mkdir : string → bool;
  may_scan : string → bool;
  may_unlink : string → bool;
  may_creat : string → bool;
  write_outcomes : list write_outcome;
  trace : list event
}.

Definition set_files (f : gmap string (list byte)) (w : world) : world :=
  {| files := f; now := now w; ticks := ticks w;
     localtime := localtime w; may_mkdir := may_mkdir w;
     may_scan := may_scan w; may_unlink := may_unlink w;
     may_creat := may_creat w; write_outcomes := write_outcomes w;
     trace := trace w |}.

Definition set_clock (t : Z) (ts : list Z) (w : world) : world :=
  {| files := files w; now := t; ticks := ts;
     localtime := localtime w; may_mkdir := may_mkdir w;
     may_scan := may_scan w; may_unlink := may_unlink w;
     may_creat := may_creat w; write_outcomes := write_outcomes w;
     trace := trace w |}.

Definition set_write_outcomes (os : list write_outcome) (w : world) : world :=
  {| files := files w; now := now w; ticks := ticks w;
     localtime := localtime w; may_mkdir := may_mkdir w;
     may_scan := may_scan w; may_unlink := may_unlink w;
     may_creat := may_creat w; write_outcomes := os;
     trace := trace w |}.

(** The time image of [nextFile] for the instant [t]:
    [strftime] of [localtime (&t)]. *)
Definition time_image (w : world) (t : Z) : string :=
  strftime_stamp (localtime w t).

Definition emit (e : event) (w : world) : world :=
  {| files := files w; now := now w; ticks := ticks w;
     localtime := localtime w; may_mkdir := may_mkdir w;
     may_scan := may_scan w; may_unlink := may_unlink w;
     may_creat := may_creat w; write_outcomes := write_outcomes w;
     trace := trace w ++ [e] |}.

Definition printf (ps : list printed) (w : world) : world :=
  foldl (λ w p, emit (EvPrintf p) w) w ps.

(** [perrorf]: the message buffer holds 240 characters. *)
Definition perrorf (message : string) (w : world) : world :=
  emit (EvPerror (Filter.snprintf 240 message)) w.

(** The clock at the next call of [time]. *)
Definition tick (t : Z) (ts : list Z) : Z * list Z :=
  match ts with
  | [] => (t, [])
  | d :: ts' => (t + d, ts')
  end.

(** [time (&t)] *)
Definition sys_time (w : world) : Z * world :=
  let '(t, ts) := tick (now w) (ticks w) in
  (t, emit (EvTime t) (set_clock t ts w)).

(** [write (fd, data, length data)] *)
Definition sys_write (fd : fdesc) (data : list byte) (w : world)
  : Z * world :=
  let '(o, os) :=
    match write_outcomes w with
    | [] => (WriteAtMost (length data), [])
    | o :: os => (o, os)
    end in
  let w1 := set_write_outcomes os w in
  match fd, o with
  | FdBad, _ | _, WriteFail => (-1, emit (EvWrite fd data (-1)) w1)
  | FdStdout, WriteAtMost n =>
      let ret := Z.of_nat (length (take n data)) in
      (ret, emit (EvWrite fd data ret) w1)
  | FdLog path, WriteAtMost n =>
      let ret := Z.of_nat (length (take n data)) in
      (ret, emit (EvWrite fd data ret)
              (set_files (alter (λ old, old ++ take n data) path (files w1)) w1))
  end.

(** [close (fd)] *)
Definition sys_close (fd : fdesc) (w : world) : world :=
  emit (EvClose fd) w.

(** [creat (path, 0644)]: the file is created empty, or emptied. *)
Definition sys_creat (path : string) (w : world) : fdesc * world :=
  if may_creat w path
  then (FdLog path,
        emit (EvCreat path (FdLog path)) (set_files (<[path := []]> (files w)) w))
  else (FdBad, emit (EvCreat path FdBad) w).

(** [unlink (path)] *)
Definition sys_unlink (path : string) (w : world) : Z * world :=
  match files w !! path with
  | Some _ =>
      if may_unlink w path
      then (0, emit (EvUnlink path 0) (set_files (delete path (files w)) w))
      else (-1, emit (EvUnlink path (-1)) w)
  | None => (-1, emit (EvUnlink path (-1)) w)
  end.

Definition NAME_MAX : nat := 255.

Fixpoint strip_prefix (p s : string) : option string :=
  match p, s with
  | EmptyString, _ => Some s
  | String a p', String b s' =>
      if Ascii.eqb a b then strip_prefix p' s' else None
  | String _ _, EmptyString => None
  end.

Fixpoint has_slash (s : string) : bool :=
  match s with
  | EmptyString => false
  | String c s' => Ascii.eqb c "/" || has_slash s'
  end.

(** The name under which [path] is an entry of the directory [dir], if it
    is one: [path] is [dir], a slash and a name of 1 to [NAME_MAX]
    characters without a slash. *)
Definition entry_name (dir path : string) : option string :=
  match strip_prefix (dir +:+ "/") path with
  | Some name =>
      if has_slash name then None
      else if (Nat.ltb 0 (String.length name)
               && Nat.leb (String.length name) NAME_MAX)
      then Some name else None
  | None => None
  end.

Definition dir_entries (dir : string) (f : gmap string (list byte))
  : list string :=
  omap (entry_name dir) (elements (dom f)).

(** [alphasort]: the order of [strcoll] in the C locale, that is, of the
    unsigned characters. *)
Definition alphasort : relation string := String.le.

(** [scandir (dir, &namelist, filter, compar)]: the entries the filter
    keeps, sorted; [None] when the directory cannot be read. *)
Definition scandir_names (dir : string) (select : option string → Z)
    (compar : relation string) `{!RelDecision compar}
    (f : gmap string (list byte)) : list string :=
  merge_sort compar
    (filter (λ name, select (Some name) ≠ 0) (dir_entries dir f)).

Definition sys_scandir (dir : string) (select : option string → Z)
    (compar : relation string) `{!RelDecision compar} (w : world)
  : option (list string) * world :=
  if may_scan w dir then
    let namelist := scandir_names dir select compar (files w) in
    (Some namelist, emit (EvScandir dir (Some namelist)) w)
  else (None, emit (EvScandir dir None) w).

End Sys.

(** ** The logger: [purgeOldFiles], [nextFile] and [main] *)
Module Logger.
Import CInt Options Filter Sys.

(** The body of the [for] loop of [purgeOldFiles] from index [j] on, over
    the rest of [namelist].  [n] and [numberToKeep] are [int]s; their
    difference is taken as it is, which is what the code computes when
    the subtraction does not overflow: for every count from 0 to
    [INT_MAX], hence for those [main] passes (1 at least). *)
Fixpoint purge_from (directory : string) (n numberToKeep : Z) (j : Z)
    (namelist : list string) (w : world) : world :=
  match namelist with
  | [] => w
  | d_name :: rest =>
      let doPurge := j <? n - numberToKeep in
      let w' :=
        if doPurge then
          let fullPath :=
            snprintf FULL_PATH_LEN (directory +:+ "/" +:+ d_name) in
          let '(status, w1) := sys_unlink fullPath w in
          if status <? 0
          then perrorf ("unlink (" +:+ fullPath +:+ ")") w1
          else w1
        else w in
      purge_from directory n numberToKeep (j + 1) rest w'
  end.

Definition thePrefix_of (prefix : string) : string :=
  snprintf FULL_PATH_LEN (prefix +:+ "_").

Definition purgeOldFiles (directory prefix : string) (numberToKeep : Z)
    (w : world) : world :=
  let thePrefix := thePrefix_of prefix in
  match sys_scandir directory (prefixFilter thePrefix) alphasort w with
  | (None, w1) => perrorf ("scandir (" +:+ directory +:+ ")") w1
  | (Some namelist, w1) =>
      let n := Z.of_nat (length namelist) in
      purge_from directory n numberToKeep 0 namelist w1
  end.

(** The log files of [prefix] in [directory], as [purgeOldFiles] lists
    them. *)
Definition log_files (directory prefix : string)
    (f : gmap string (list byte)) : list string :=
  scandir_names directory (prefixFilter (thePrefix_of prefix)) alphasort f.

(** The path [purgeOldFiles] makes for an entry when it fits the buffer. *)
Definition entry_path (directory d_name : string) : string :=
  directory +:+ "/" +:+ d_name.

Definition filename_of (directory prefix timeImage : string) : string :=
  snprintf FULL_PATH_LEN
    (directory +:+ "/" +:+ prefix +:+ "_" +:+ timeImage +:+ ".log").

Definition nextFile (directory prefix : string) (numberToKeep : Z)
    (w : world) : fdesc * world :=
  let w1 := purgeOldFiles directory prefix numberToKeep w in
  let '(timeNow, w2) := sys_time w1 in
  let timeImage := time_image w2 timeNow in
  let filename := filename_of directory prefix timeImage in
  let '(fd, w3) := sys_creat filename w2 in
  match fd with
  | FdBad => (fd, perrorf ("creat(" +:+ filename +:+ ",0644)") w3)
  | _ => (fd, w3)
  end.

(** The variables of the copy loop. *)
Record loop_state : Type := LoopState {
  fd : fdesc;
  lastTime : Z;
  total : Z;
  last_char : byte
}.

(** What the loop does not change. *)
Record config : Type := Config {
  limits : settings;
  directory : string;
  prefix : string
}.

(** The test of line 478. *)
Definition rotation_due (c : config) (age total : Z) : bool :=
  (ageLimit (limits c) <=? age)
  || ((sizeLimit (limits c) <=? total) && (1 <=? age)).

(** The body of that [if]: the rotation. *)
Definition rotate (c : config) (st : loop_state) (w : world)
  : loop_state * world :=
  let w1 :=
    if Byte.eqb (last_char st) newline then w
    else snd (sys_write (fd st) [newline] w) in
  let w2 := sys_close (fd st) w1 in
  let '(fd', w3) :=
    nextFile (directory c) (prefix c) (numberToKeep (limits c)) w2 in
  let '(lastTime', w4) := sys_time w3 in
  ({| fd := fd'; lastTime := lastTime'; total := 0;
      last_char := last_char st |}, w4).

(** One turn of the loop after a [read] that returned the bytes of
    [buffer] ([numberRead] of them, more than 0). *)
Definition copy_chunk (c : config) (buffer : list byte) (st : loop_state)
    (w : world) : loop_state * world :=
  let numberRead := Z.of_nat (length buffer) in
  let '(m1, w1) := sys_write FdStdout buffer w in
  let '(m2, w2) := sys_write (fd st) buffer w1 in
  let total' := to_size_t (total st + m2) in
  let w3 := if m1 =? m2 then w2 else emit (EvMismatch m1 m2) w2 in
  let last_char' :=
    if 0 <? numberRead then default (last_char st) (last buffer)
    else last_char st in
  let '(thisTime, w4) := sys_time w3 in
  let age := thisTime - lastTime st in
  let st' := {| fd := fd st; lastTime := lastTime st; total := total';
                last_char := last_char' |} in
  if rotation_due c age total' then rotate c st' w4 else (st', w4).

Definition BUFFER_SIZE : nat := 2000.

(** The [while (true)] of the copy loop.  [reads] holds what the
    successive calls of [read] return; after them the input is at its
    end.  A [read] returns at most [sizeof (buffer)] bytes.  The result
    has the last [numberRead]. *)
Fixpoint copy_loop (c : config) (reads : list read_result)
    (st : loop_state) (w : world) : Z * loop_state * world :=
  match reads with
  | [] => (0, st, emit (EvRead (ReadBytes [])) w)
  | r :: reads' =>
      let w0 := emit (EvRead r) w in
      match r with
      | ReadEINTR => copy_loop c reads' st w0
      | ReadFail => (-1, st, w0)
      | ReadBytes buffer =>
          let buffer := take BUFFER_SIZE buffer in
          match buffer with
          | [] => (0, st, w0)
          | _ :: _ =>
              let '(st', w') := copy_chunk c buffer st w0 in
              copy_loop c reads' st' w'
          end
      end
  end.

(** [mkdir_parents]: what it does to the file system is not modelled, the
    world says whether it succeeds. *)
Definition mkdir_parents (dirpath : string) (w : world) : bool * world :=
  let ok := may_mkdir w dirpath in
  (ok, emit (EvMkdirParents dirpath ok) w).

(** [main] from the end of the option loop on, with the sanitised limits
    and [args], the arguments that are not options. *)
Definition run (s : settings) (args : list string)
    (reads : list read_result) (w : world) : Z * world :=
  match args with
  | directory :: prefix :: _ =>
      let w1 :=
        printf [PBanner directory prefix (ageLimit s) (sizeLimit s)
                  (numberToKeep s)] w in
      let '(okay, w2) := mkdir_parents directory w1 in
      if negb okay
      then (2, perrorf ("mkdir (" +:+ directory +:+ ",0755)") w2)
      else
        let '(fd0, w3) := nextFile directory prefix (numberToKeep s) w2 in
        match fd0 with
        | FdBad => (2, w3)
        | _ =>
            let '(lastTime0, w4) := sys_time w3 in
            let c := {| limits := s; directory := directory;
                        prefix := prefix |} in
            let st := {| fd := fd0; lastTime := lastTime0; total := 0;
                         last_char := newline |} in
            let '(numberRead, st', w5) := copy_loop c reads st w4 in
            let w6 :=
              if numberRead =? -1 then perrorf "read error" w5 else w5 in
            (0, sys_close (fd st') w6)
        end
  | _ => (1, printf ([PMissingArguments] ++ printUsage) w)
  end.

Definition main (opts : list getopt_ret) (args : list string)
    (reads : list read_result) (w : world) : Z * world :=
  match process_options opts defaults with
  | (out, Return status) => (status, printf out w)
  | (out, Next s) => run (sanitise s) args reads (printf out w)
  end.

End Logger.

(** ** A time zone for the examples: UTC

  [utc_tm t] is what [localtime (&t)] returns when the local time zone
  is UTC.  The theorems are about any time zone; the examples run with
  this one. *)
Module Utc.
Import Sys.

(** Year, month and day of the day number [days] (days since 1970-01-01),
    in the proleptic Gregorian calendar. *)
Definition civil_from_days (days : Z) : Z * Z * Z :=
  let z := days + 719468 in
  let era := z / 146097 in
  let doe := z - era * 146097 in
  let yoe := (doe - doe / 1460 + doe / 36524 - doe / 146096) / 365 in
  let doy := doe - (365 * yoe + yoe / 4 - yoe / 100) in
  let mp := (5 * doy + 2) / 153 in
  let d := doy - (153 * mp + 2) / 5 + 1 in
  let m := if mp <? 10 then mp + 3 else mp - 9 in
  let y := yoe + era * 400 + (if m <=? 2 then 1 else 0) in
  (y, m, d).

Definition utc_tm (t : Z) : tm :=
  let '(y, m, d) := civil_from_days (t / 86400) in
  let s := t mod 86400 in
  {| tm_sec := s mod 60; tm_min := s mod 3600 / 60; tm_hour := s / 3600;
     tm_mday := d; tm_mon := m - 1; tm_year := y - 1900 |}.

(** The time image in UTC. *)
Definition utc_image (t : Z) : string := strftime_stamp (utc_tm t).

End Utc.

(** ** The words of the specification about option arguments

  The definitions of this module follow the specification, not the code:
  an argument is "digits optionally followed by exactly one trailing unit
  character", its value the "numeric prefix" times the multiplier of the
  unit. *)
Module ArgSpec.
Import Scan.

Inductive limit_kind : Type := Duration | Size.

Fixpoint all_digits (s : string) : bool :=
  match s with
  | EmptyString => true
  | String c s' => isdigit c && all_digits s'
  end.

Fixpoint decimal (acc : Z) (s : string) : Z :=
  match s with
  | EmptyString => acc
  | String c s' => decimal (10 * acc + (Z.of_N (N_of_ascii c) - 48)) s'
  end.

(** The number a string of digits denotes. *)
Definition numeric_value (ds : string) : Z := decimal 0 ds.

(** The recognized units with their multipliers. *)
Definition unit_multiplier (k : limit_kind) (u : ascii) : option Z :=
  match k with
  | Duration =>
      if Ascii.eqb u "m" then Some 60
      else if Ascii.eqb u "h" then Some 3600
      else if Ascii.eqb u "d" then Some 86400
      else if Ascii.eqb u "w" then Some 604800
      else None
  | Size =>
      if Ascii.eqb u "K" then Some 1000
      else if Ascii.eqb u "M" then Some 1000000
      else if Ascii.eqb u "G" then Some 1000000000
      else None
  end.

(** No unit character: the value is taken as it is. *)
Definition multiplier (k : limit_kind) (u : option ascii) : option Z :=
  match u with
  | None => Some 1
  | Some c => unit_multiplier k c
  end.

Definition unit_suffix (u : option ascii) : string :=
  match u with
  | None => EmptyString
  | Some c => String c EmptyString
  end.

(** The digits at the start of [s] and what follows them. *)
Fixpoint split_digits (s : string) : string * string :=
  match s with
  | EmptyString => (EmptyString, EmptyString)
  | String c s' =>
      if isdigit c
      then let '(ds, rest) := split_digits s' in (String c ds, rest)
      else (EmptyString, s)
  end.

(** "Digits optionally followed by exactly one recognized trailing unit
    character". *)
Definition well_formed (k : limit_kind) (s : string) : bool :=
  let '(ds, rest) := split_digits s in
  negb (String.eqb ds EmptyString)
  && match rest with
     | EmptyString => true
     | String u EmptyString =>
         match unit_multiplier k u with Some _ => true | None => false end
     | _ => false
     end.

End ArgSpec.

(** ** The words of the specification about log files *)
Module FileSpec.
Import Filter Sys Logger.

(** "The prefix followed by an underscore, then exactly 19 arbitrary
    characters in the timestamp position, then the four characters
    [.log]". *)
Definition log_name (prefix name : string) : Prop :=
  ∃ stamp, String.length stamp = 19%nat
           ∧ name = prefix +:+ "_" +:+ stamp +:+ ".log".

(** The names a directory can hold. *)
Definition valid_name (name : string) : Prop :=
  has_slash name = false
  ∧ (0 < String.length name ≤ NAME_MAX)%nat.

(** How many of the listed files are beyond the [keep] newest. *)
Definition excess (directory prefix : string) (keep : Z)
    (f : gmap string (list byte)) : nat :=
  Z.to_nat (Z.of_nat (length (log_files directory prefix f)) - keep).

(** "The n - keepCount lexicographically smallest (oldest) matching
    filenames", and the others. *)
Definition oldest (directory prefix : string) (keep : Z)
    (f : gmap string (list byte)) : list string :=
  take (excess directory prefix keep f) (log_files directory prefix f).

Definition newest (directory prefix : string) (keep : Z)
    (f : gmap string (list byte)) : list string :=
  drop (excess directory prefix keep f) (log_files directory prefix f).

(** The world [w] with other files and more calls in its trace. *)
Definition amend (f : gmap string (list byte)) (evs : list event)
    (w : world) : world :=
  {| files := f; now := now w; ticks := ticks w;
     localtime := localtime w; may_mkdir := may_mkdir w;
     may_scan := may_scan w; may_unlink := may_unlink w;
     may_creat := may_creat w; write_outcomes := write_outcomes w;
     trace := trace w ++ evs |}.

(** The deletion of the entry [d_name] can succeed: its path fits the
    buffer of [purgeOldFiles] and the file system permits the unlink. *)
Definition unlinkable (w : world) (directory d_name : string) : Prop :=
  (String.length (entry_path directory d_name) < FULL_PATH_LEN)%nat
  ∧ may_unlink w (entry_path directory d_name) = true.

End FileSpec.

(** ** Reading a trace

  What the specification says about a run of the program is said about
  its trace: which bytes it passed to [write], for which descriptor, in
  which order; and about the files the calls of the trace leave on the
  disk. *)
Module TraceSpec.
Import Options Filter Sys Logger.

(** The chunks the copy loop handles: what the successive calls of [read]
    return, up to the end of input or the first error. *)
Fixpoint delivered (reads : list read_result) : list (list byte) :=
  match reads with
  | [] => []
  | ReadEINTR :: reads' => delivered reads'
  | ReadFail :: _ => []
  | ReadBytes buffer :: reads' =>
      match take BUFFER_SIZE buffer with
      | [] => []
      | chunk => chunk :: delivered reads'
      end
  end.

(** The input stream. *)
Definition input_stream (reads : list read_result) : list byte :=
  concat (delivered reads).

(** The buffers passed to [write] for standard output, in order. *)
Definition stdout_data (evs : list event) : list (list byte) :=
  omap (λ e, match e with
             | EvWrite FdStdout data _ => Some data
             | _ => None
             end) evs.

(** The calls of [write] for a log descriptor: the buffer passed and the
    return value. *)
Definition write_call : Type := list byte * Z.

(** The trace cut at each [creat]: the descriptor [creat] returned and
    the calls of [write] for it until the next [creat].  The most recent
    descriptor is first. *)
Definition record (acc : list (fdesc * list write_call)) (e : event)
  : list (fdesc * list write_call) :=
  match e with
  | EvCreat _ ret => (ret, []) :: acc
  | EvWrite fd data ret =>
      match acc with
      | (cur, calls) :: acc' =>
          if decide (fd = cur) then (cur, calls ++ [(data, ret)]) :: acc'
          else acc
      | [] => []
      end
  | _ => acc
  end.

Definition epochs (evs : list event) : list (fdesc * list write_call) :=
  reverse (foldl record [] evs).

(** The same from a point where [fd] is the current descriptor. *)
Definition epochs_from (fd : fdesc) (evs : list event)
  : list (fdesc * list write_call) :=
  reverse (foldl record [(fd, [])] evs).

(** The bytes a call put into the file. *)
Definition accepted (c : write_call) : list byte :=
  take (Z.to_nat (snd c)) (fst c).

(** The bytes a sequence of calls put into the file, in order. *)
Definition content (calls : list write_call) : list byte :=
  concat (accepted <$> calls).

Definition complete (c : write_call) : Prop :=
  snd c = Z.of_nat (length (fst c)).

(** The log file of a descriptor with the bytes its calls put there. *)
Definition log_of (ep : fdesc * list write_call)
  : option (string * list byte) :=
  match fst ep with
  | FdLog path => Some (path, concat (accepted <$> snd ep))
  | _ => None
  end.

(** The log files a trace produces, in the order of their creation, each
    with the bytes written to it. *)
Definition produced (evs : list event) : list (string * list byte) :=
  omap log_of (epochs evs).

Definition ends_with_newline (d : list byte) : bool :=
  match last d with
  | Some c => Byte.eqb c newline
  | None => false
  end.

(** The bytes [d] with a line terminator added unless they end with
    one. *)
Definition sealed (d : list byte) : list byte :=
  if ends_with_newline d then d else d ++ [newline].

(** The chunks that went to a file that was then rotated away: those
    before the rotation came due, and the chunk after which it did. *)
Definition rotated_run : Type := list (list byte) * list byte.

Definition run_chunks (r : rotated_run) : list (list byte) :=
  fst r ++ [snd r].

(** The buffers written to that file: its chunks, and a line terminator
    unless the last chunk ends with one. *)
Definition run_written (r : rotated_run) : list (list byte) :=
  run_chunks r ++ (if ends_with_newline (snd r) then [] else [[newline]]).

(** A run of the copy loop cut at its rotations: the rotated runs and
    the chunks of the file that is open at the end. *)
Definition layout_chunks (rs : list rotated_run) (open : list (list byte))
  : list (list byte) :=
  concat (run_chunks <$> rs) ++ open.

Definition layout_written (rs : list rotated_run) (open : list (list byte))
  : list (list (list byte)) :=
  (run_written <$> rs) ++ [open].

(** The strict order of names. *)
Definition name_lt (a b : string) : Prop := String.le a b ∧ a ≠ b.

(** Files in ascending order of their names. *)
Definition in_name_order (fs : list (string * list byte))
  : list (string * list byte) :=
  merge_sort (λ a b, String.le (fst a) (fst b)) fs.

(** The instants the clock can show: now and after each tick. *)
Fixpoint instants (t : Z) (ts : list Z) : list Z :=
  t :: match ts with
       | [] => []
       | d :: ts' => instants (t + d) ts'
       end.

(** The names of the log files made at the instants [l] are in the order
    of the instants. *)
Fixpoint names_ordered (name_at : Z → string) (l : list Z) : bool :=
  match l with
  | [] => true
  | t :: l' =>
      forallb (λ t', bool_decide (t < t' → name_lt (name_at t) (name_at t'))
                     && bool_decide (t' < t → name_lt (name_at t') (name_at t)))
              l'
      && names_ordered name_at l'
  end.

(** The name of the log file made at the instant [t]. *)
Definition name_at (w : world) (directory prefix : string) (t : Z) : string :=
  filename_of directory prefix (time_image w t).

(** The clock [(t', ts')] is the clock [(t, ts)] after some calls of
    [time]. *)
Inductive ticked : Z → list Z → Z → list Z → Prop :=
| ticked_refl (t : Z) (ts : list Z) : ticked t ts t ts
| ticked_step (t d : Z) (ts : list Z) (t' : Z) (ts' : list Z) :
    ticked (t + d) ts t' ts' → ticked t (d :: ts) t' ts'.

(** What a call does to the files. *)
Definition replay (f : gmap string (list byte)) (e : event)
  : gmap string (list byte) :=
  match e with
  | EvCreat path (FdLog _) => <[path := []]> f
  | EvWrite (FdLog path) data ret =>
      if 0 <=? ret
      then alter (λ old, old ++ take (Z.to_nat ret) data) path f
      else f
  | EvUnlink path ret => if ret =? 0 then delete path f else f
  | _ => f
  end.

(** Calls that leave the files alone. *)
Definition inert (e : event) : Prop :=
  match e with
  | EvWrite _ _ _ | EvCreat _ _ | EvUnlink _ _ => False
  | _ => True
  end.

(** The world [w'] is the world [w] after the calls [evs]: the trace has
    grown by them, the files are what the calls made of them, the clock
    has moved on and write outcomes have been used up; what the file
    system permits and the time zone are as they were. *)
Record later (w w' : world) (evs : list event) : Prop := Later {
  later_trace : trace w' = trace w ++ evs;
  later_files : files w' = foldl replay (files w) evs;
  later_image : time_image w' = time_image w;
  later_mkdir : may_mkdir w' = may_mkdir w;
  later_scan : may_scan w' = may_scan w;
  later_unlink : may_unlink w' = may_unlink w;
  later_creat : may_creat w' = may_creat w;
  later_clock : ticked (now w) (ticks w) (now w') (ticks w');
  later_outcomes : write_outcomes w' `suffix_of` write_outcomes w
}.

(** The state after the bookkeeping of a turn of the loop in which
    [write] returned [m2] for the log file. *)
Definition after_chunk (buffer : list byte) (m2 : Z) (st : loop_state)
  : loop_state :=
  {| fd := fd st; lastTime := lastTime st;
     total := CInt.to_size_t (total st + m2);
     last_char :=
       if 0 <? Z.of_nat (length buffer)
       then default (last_char st) (last buffer)
       else last_char st |}.

(** A call fits the descriptors so far: [creat] returns the descriptor
    of its path or fails, and a [write] for a log descriptor is for the
    most recent one. *)
Definition step_ok (acc : list (fdesc * list write_call)) (e : event)
  : Prop :=
  match e with
  | EvCreat path ret => ret = FdLog path ∨ ret = FdBad
  | EvWrite (FdLog q) _ _ => ∃ calls acc', acc = (FdLog q, calls) :: acc'
  | _ => True
  end.

Fixpoint coherent (acc : list (fdesc * list write_call))
    (evs : list event) : Prop :=
  match evs with
  | [] => True
  | e :: evs' => step_ok acc e ∧ coherent (record acc e) evs'
  end.

(** The paths of the log descriptors. *)
Definition log_path (ep : fdesc * list write_call) : option string :=
  match fst ep with
  | FdLog path => Some path
  | _ => None
  end.

(** The events of a purge. *)
Definition purge_event (e : event) : Prop :=
  match e with
  | EvScandir _ _ | EvUnlink _ _ | EvPerror _ => True
  | _ => False
  end.

(** The events of a rotation, in order: the line terminator if the last
    byte was not one, the [close], the purge ([scandir], then [q1]), the
    call of [time] for the name, the [creat] with its result, [q2]
    ([perror] if that failed), and the call of [time] for [lastTime]. *)
Definition rotation_events (c : config) (st : loop_state) (w : world)
    (rn : Z) (ret : option (list string)) (q1 q2 : list event)
    (tn : Z) (fd' : fdesc) (tl : Z) : list event :=
  (if Byte.eqb (last_char st) newline then []
   else [EvWrite (fd st) [newline] rn])
  ++ [EvClose (fd st)]
  ++ (EvScandir (directory c) ret :: q1)
  ++ [EvTime tn; EvCreat (name_at w (directory c) (prefix c) tn) fd']
  ++ q2
  ++ [EvTime tl].

(** The calls of [write] a rotation adds for the old descriptor. *)
Definition seal_calls (lc : byte) (rn : Z) : list write_call :=
  if Byte.eqb lc newline then [] else [([newline], rn)].

(** A layout with one more chunk in front of it, in the file that is
    open at the start. *)
Definition push_chunk (b : list byte) (rs : list rotated_run)
    (open : list (list byte)) : list rotated_run * list (list byte) :=
  match rs with
  | [] => ([], b :: open)
  | (pre, x) :: rs' => ((b :: pre, x) :: rs', open)
  end.

(** What the copy loop does from the state [st] in the world [w] to the
    world [w'] while it handles [chunks]: every chunk is passed whole to
    standard output and to the descriptor that is current, in order; the
    descriptors after [fd st] come from the rotations, each opened right
    after the chunk that made the rotation due.  [c1] are the calls for
    [fd st], [rest] the later descriptors with theirs. *)
Definition loop_layout (c : config) (st : loop_state) (w w' : world)
    (chunks : list (list byte)) : Prop :=
  ∃ evs rs open c1 rest,
    later w w' evs
    ∧ stdout_data evs = chunks
    ∧ layout_chunks rs open = chunks
    ∧ (∀ calls closed,
          foldl record ((fd st, calls) :: closed) evs
          = reverse ((fd st, calls ++ c1) :: rest) ++ closed)
    ∧ (fst <$> c1) :: ((λ ep, fst <$> snd ep) <$> rest)
      = layout_written rs open
    ∧ (∀ calls closed, coherent ((fd st, calls) :: closed) evs)
    ∧ (write_outcomes w = [] → (∀ p, may_creat w p = true) →
       fd st ≠ FdBad →
       Forall complete c1 ∧ Forall (λ ep, Forall complete (snd ep)) rest)
    ∧ ((∀ p, may_creat w p = true) → Forall (λ d, 0 ≤ d) (ticks w) →
       1 ≤ ageLimit (limits c) →
       ∃ times,
         rest.*1
         = (λ t, FdLog (name_at w (directory c) (prefix c) t)) <$> times
         ∧ StronglySorted Z.lt times
         ∧ Forall (λ t, lastTime st < t
                        ∧ t ∈ instants (now w) (ticks w)) times).

(** Events that are neither a [write] nor a [creat]. *)
Definition quiet (e : event) : Prop :=
  match e with
  | EvWrite _ _ _ | EvCreat _ _ => False
  | _ => True
  end.

(** *** The names and the calendar *)

(** The fields are those of a date with a year of four digits. *)
Definition in_calendar (a : tm) : bool :=
  (1000 <=? tm_year a + 1900) && (tm_year a + 1900 <=? 9999)
  && (0 <=? tm_mon a) && (tm_mon a <=? 11)
  && (1 <=? tm_mday a) && (tm_mday a <=? 31)
  && (0 <=? tm_hour a) && (tm_hour a <=? 23)
  && (0 <=? tm_min a) && (tm_min a <=? 59)
  && (0 <=? tm_sec a) && (tm_sec a <=? 60).

Definition calendar_key (a : tm) : list Z :=
  [tm_year a; tm_mon a; tm_mday a; tm_hour a; tm_min a; tm_sec a].

Fixpoint key_lt (k1 k2 : list Z) : bool :=
  match k1, k2 with
  | x :: k1', y :: k2' => (x <? y) || ((x =? y) && key_lt k1' k2')
  | _, _ => false
  end.

(** The date and time [a] is before [b]. *)
Definition tm_before (a b : tm) : bool :=
  key_lt (calendar_key a) (calendar_key b).

(** Local time goes on with the clock over the instants [l]: each has a
    date with a year of four digits, and of two of them the later one
    has the later date and time (no hour is repeated, as at the end of
    summer time). *)
Definition local_time_ordered (zone : Z → tm) (l : list Z) : bool :=
  forallb (λ t, in_calendar (zone t)) l
  && forallb (λ t, forallb (λ t', (t' <=? t) || tm_before (zone t) (zone t'))
                     l) l.

(** The names of the log files fit the buffer [filename] of [nextFile]:
    directory, slash, prefix, underscore, 19 characters, [.log]. *)
Definition names_fit (directory prefix : string) : Prop :=
  (String.length directory + String.length prefix + 25 < FULL_PATH_LEN)%nat.

(** *** The copy loop, turn by turn *)

(** The calls of a trace without those of [read]. *)
Definition calls_of (evs : list event) : list event :=
  omap (λ e, match e with EvRead _ => None | _ => Some e end) evs.

(** What a turn does with its chunk [b] before the test for a rotation:
    the chunk goes whole to standard output and to the current
    descriptor, a diagnostic follows when the two results differ, and
    the clock is read. *)
Definition tee_events (fd0 : fdesc) (b : list byte) (m1 m2 t : Z)
  : list event :=
  [EvWrite FdStdout b m1; EvWrite fd0 b m2]
  ++ (if m1 =? m2 then [] else [EvMismatch m1 m2])
  ++ [EvTime t].

(** The state a rotation leaves: the new descriptor, opened at [tl], no
    byte yet. *)
Definition after_rotation (fd' : fdesc) (tl : Z) (st : loop_state)
  : loop_state :=
  {| fd := fd'; lastTime := tl; total := 0; last_char := last_char st |}.

(** The calls of the copy loop for the chunks it reads, from the state
    [st] on.  Each chunk is written to the descriptor that is current
    when it is read.  When the rotation is due after a chunk, with the
    age and the byte count that include it, the rotation follows at
    once: the old descriptor is closed after the chunk and the chunks
    that follow go to the descriptor [creat] returned.  When it is not
    due, the next chunk goes to the same descriptor. *)
Inductive turns (c : config) (w : world)
  : loop_state → list (list byte) → list event → Prop :=
| turns_end (st : loop_state) :
    turns c w st [] []
| turns_stay (st : loop_state) (b : list byte) (chunks : list (list byte))
    (m1 m2 t : Z) (evs : list event) :
    rotation_due c (t - lastTime st) (total (after_chunk b m2 st)) = false →
    turns c w (after_chunk b m2 st) chunks evs →
    turns c w st (b :: chunks) (tee_events (fd st) b m1 m2 t ++ evs)
| turns_rotate (st : loop_state) (b : list byte)
    (chunks : list (list byte)) (m1 m2 t rn : Z)
    (ret : option (list string)) (q1 q2 : list event) (tn : Z)
    (fd' : fdesc) (tl : Z) (evs : list event) :
    rotation_due c (t - lastTime st) (total (after_chunk b m2 st)) = true →
    Forall purge_event q1 →
    (q2 = [] ∨ ∃ m, q2 = [EvPerror m]) →
    (fd' = FdLog (name_at w (directory c) (prefix c) tn) ∨ fd' = FdBad) →
    turns c w (after_rotation fd' tl (after_chunk b m2 st)) chunks evs →
    turns c w st (b :: chunks)
      (tee_events (fd st) b m1 m2 t
       ++ rotation_events c (after_chunk b m2 st) w rn ret q1 q2 tn fd' tl
       ++ evs).

(** A call of [write] that wrote all it was given. *)
Definition full_write (e : event) : Prop :=
  match e with
  | EvWrite _ data ret => ret = Z.of_nat (length data)
  | _ => True
  end.

End TraceSpec.

(** ** Reading the option arguments off the code *)
Module ArgCode.
Import CInt Scan Options ArgSpec.

(** The option [getopt_long] reports for an argument of either kind. *)
Definition option_of (k : limit_kind) (optarg : string) : getopt_ret :=
  match k with
  | Duration => GotAge optarg
  | Size => GotSize optarg
  end.

(** The limit the option loop stores for the argument, if it goes on. *)
Definition parsed (k : limit_kind) (optarg : string) : option Z :=
  match process_option (option_of k optarg) defaults with
  | (_, Next s) =>
      Some match k with Duration => ageLimit s | Size => sizeLimit s end
  | (_, Return _) => None
  end.

(** The largest value the variable of the limit holds: [ageLimit] is an
    [int], [sizeLimit] a [size_t]. *)
Definition limit_max (k : limit_kind) : Z :=
  match k with
  | Duration => INT_MAX
  | Size => ULONG_MOD - 1
  end.

(** The argument has no number at its start: after white space and an
    optional sign there is no digit. *)
Definition no_number (s : string) : bool :=
  match scan_long s with
  | ScanOk _ _ => false
  | _ => true
  end.

Fixpoint all_space (s : string) : bool :=
  match s with
  | EmptyString => true
  | String c s' => isspace c && all_space s'
  end.

(** The factor of the sign before the digits: no sign, a plus or a
    minus. *)
Definition sign_factor (sg : string) : option Z :=
  if String.eqb sg EmptyString then Some 1
  else if String.eqb sg "+" then Some 1
  else if String.eqb sg "-" then Some (-1)
  else None.

(** The argument [s] has a number at its start: white space, an optional
    sign of factor [f], the digits [ds], and then [rest], which does not
    go on with a digit. *)
Inductive number_at_start (s : string) (f : Z) (ds rest : string) : Prop :=
| NumberAtStart (sp sg : string) :
    s = sp +:+ sg +:+ ds +:+ rest →
    all_space sp = true →
    sign_factor sg = Some f →
    ds ≠ EmptyString → all_digits ds = true →
    starts_with_digit rest = false →
    number_at_start s f ds rest.

Definition numberless (s : string) : Prop :=
  ∀ f ds rest, ¬ number_at_start s f ds rest.

(** The arguments the code turns down: those without a number at their
    start, and those where the character after the digits is neither a
    space nor a recognized unit.  What follows that character is not
    looked at. *)
Inductive turned_down (k : limit_kind) (s : string) : Prop :=
| NoNumber :
    numberless s → turned_down k s
| BadModifier (f : Z) (ds : string) (c : ascii) (tail : string) :
    number_at_start s f ds (String c tail) →
    c ≠ " "%char → unit_multiplier k c = None →
    turned_down k s.

(** The arguments the code takes: a number with nothing after it, or
    with a space or a recognized unit after it, whatever follows that
    character. *)
Inductive taken (k : limit_kind) (s : string) : Prop :=
| TakenBare (f : Z) (ds : string) :
    number_at_start s f ds EmptyString → taken k s
| TakenModified (f : Z) (ds : string) (c : ascii) (tail : string) :
    number_at_start s f ds (String c tail) →
    c = " "%char ∨ is_Some (unit_multiplier k c) →
    taken k s.

End ArgCode.

(** ** Reading the option loop as a whole *)
Module OptionRead.
Import Options ArgSpec ArgCode.

(** The arguments of the age, size and keep options among what
    [getopt_long] returned, in order. *)
Definition age_args (os : list getopt_ret) : list string :=
  omap (λ o, match o with GotAge a => Some a | _ => None end) os.

Definition size_args (os : list getopt_ret) : list string :=
  omap (λ o, match o with GotSize a => Some a | _ => None end) os.

Definition keep_args (os : list getopt_ret) : list string :=
  omap (λ o, match o with GotKeep a => Some a | _ => None end) os.

(** What the [default:] branch of the switch prints. *)
Definition other_codes (os : list getopt_ret) : list printed :=
  omap (λ o, match o with GotOther c => Some (PGetoptCode c) | _ => None end)
       os.

(** The program has started: the directory is there and the first log
    file could be created. *)
Definition started (w : Sys.world) (directory prefix : string) : bool :=
  Sys.may_mkdir w directory
  && Sys.may_creat w
       (TraceSpec.name_at w directory prefix
          (fst (Sys.tick (Sys.now w) (Sys.ticks w)))).

End OptionRead.

(** ** Reading a purge *)
Module PurgeRead.
Import Filter Sys Logger.

(** The path [purgeOldFiles] passes to [unlink] for the entry
    [d_name]: what the buffer [fullPath] holds of it. *)
Definition unlink_path (directory d_name : string) : string :=
  snprintf FULL_PATH_LEN (entry_path directory d_name).

(** The directories of the calls of [scandir] in a trace, in order. *)
Definition scandir_calls (evs : list event) : list string :=
  omap (λ e, match e with EvScandir dir _ => Some dir | _ => None end) evs.

(** The paths of the calls of [unlink] in a trace, in order, whatever
    they returned. *)
Definition unlink_calls (evs : list event) : list string :=
  omap (λ e, match e with EvUnlink path _ => Some path | _ => None end) evs.

End PurgeRead.

(** ** Reading the calls of [creat] *)
Module LoopRead.
Import Sys.

(** The paths of the calls of [creat] in a trace, in order, whatever
    they returned. *)
Definition creat_calls (evs : list event) : list string :=
  omap (λ e, match e with EvCreat path _ => Some path | _ => None end) evs.

(** The calls of [write] in a trace: descriptor, buffer and result. *)
Definition write_calls (evs : list event) : list (fdesc * list byte * Z) :=
  omap (λ e, match e with
             | EvWrite fd data ret => Some (fd, data, ret)
             | _ => None
             end) evs.

End LoopRead.

(** ** Directories: [make_dir] and [mkdir_parents]

  The two functions see the file system through [stat] and [mkdir].
  Here the file system is a tree of directories and other files, each
  known by the names on the way from the root, in which one process
  works and there are no symbolic links; what the system permits is
  given with the tree. *)
Module Dirs.
Import Filter.

(** What [S_ISDIR (st.st_mode)] tells of an entry. *)
Inductive kind : Type := KDir | KFile.

#[global] Instance kind_eq_dec : EqDecision kind.
Proof. solve_decision. Defined.

(** [stat] fails, or succeeds for an entry of a kind. *)
Inductive stat_ret : Type :=
| StatFail
| StatOk (k : kind).

(** [mkdir] returns 0, or -1 with [errno] [EEXIST] or another one. *)
Inductive mkdir_ret : Type :=
| MkdirOk
| MkdirExists
| MkdirError.

Inductive call : Type :=
| CStat (path : string) (ret : stat_ret)
| CMkdir (path : string) (mode : Z) (ret : mkdir_ret)
| CPerror1 (path : string) (mode : Z)    (* "make_dir.1 (%s, 0x%04x)" *)
| CPerror2 (path : string) (mode : Z).   (* "make_dir.2 (%s, 0x%04x)" *)

(** The tree: its entries, the working directory, the directories the
    system permits to make, and the calls made so far. *)
Record tree : Type := Tree {
  nodes : gmap (list string) kind;
  cwd : list string;
  may_make : list string → bool;
  calls : list call
}.

Definition emit (c : call) (t : tree) : tree :=
  {| nodes := nodes t; cwd := cwd t; may_make := may_make t;
     calls := calls t ++ [c] |}.

Definition set_nodes (ns : gmap (list string) kind) (t : tree) : tree :=
  {| nodes := ns; cwd := cwd t; may_make := may_make t; calls := calls t |}.

(** The parts of a path between its slashes; a slash at either end and
    two slashes in a row give an empty part. *)
Fixpoint split_slash (s : string) : list string :=
  match s with
  | EmptyString => [EmptyString]
  | String c s' =>
      if Ascii.eqb c "/" then EmptyString :: split_slash s'
      else match split_slash s' with
           | x :: xs => String c x :: xs
           | [] => [String c EmptyString]
           end
  end.

(** Where a walk along the parts of a path ends: at an entry of a kind,
    at a name that is not there, or at a file where a directory is
    needed. *)
Inductive found : Type :=
| Missing
| NotADir
| Found (at_ : list string) (k : kind).

Definition stays (c : string) : bool :=
  String.eqb c EmptyString || String.eqb c ".".

Definition goes_up (c : string) : bool := String.eqb c "..".

Fixpoint walk (ns : gmap (list string) kind) (cur : list string)
    (parts : list string) : found :=
  match parts with
  | [] => Found cur KDir
  | c :: rest =>
      if stays c then walk ns cur rest
      else if goes_up c then walk ns (removelast cur) rest
      else match ns !! (cur ++ [c]) with
           | None => Missing
           | Some KDir => walk ns (cur ++ [c]) rest
           | Some KFile =>
               match rest with
               | [] => Found (cur ++ [c]) KFile
               | _ :: _ => NotADir
               end
           end
  end.

(** Where the walk for a path starts: at the root for an absolute path,
    at the working directory otherwise. *)
Definition start_of (t : tree) (path : string) : list string :=
  match path with
  | String c _ => if Ascii.eqb c "/" then [] else cwd t
  | EmptyString => cwd t
  end.

Definition resolve (t : tree) (path : string) : found :=
  match path with
  | EmptyString => Missing
  | _ => walk (nodes t) (start_of t path) (split_slash path)
  end.

(** [stat (path, &st)] *)
Definition sys_stat (path : string) (t : tree) : stat_ret * tree :=
  let ret := match resolve t path with
             | Found _ k => StatOk k
             | _ => StatFail
             end in
  (ret, emit (CStat path ret) t).

(** The parts of a path without the empty ones at its end. *)
Fixpoint drop_empty (l : list string) : list string :=
  match l with
  | c :: l' => if String.eqb c EmptyString then drop_empty l' else l
  | [] => []
  end.

Definition strip_end (l : list string) : list string :=
  reverse (drop_empty (reverse l)).

(** The last part and the parts before it. *)
Definition unsnoc (l : list string) : option (list string * string) :=
  match reverse l with
  | [] => None
  | c :: before => Some (reverse before, c)
  end.

(** What [mkdir (path, mode)] would answer, and the entry it would
    make. *)
Definition mkdir_plan (t : tree) (path : string)
  : mkdir_ret * option (list string) :=
  match path with
  | EmptyString => (MkdirError, None)
  | _ =>
      match unsnoc (strip_end (split_slash path)) with
      | None => (MkdirExists, None)
      | Some (before, c) =>
          match walk (nodes t) (start_of t path) before with
          | Found d KDir =>
              if stays c || goes_up c then (MkdirExists, None)
              else match nodes t !! (d ++ [c]) with
                   | Some _ => (MkdirExists, None)
                   | None =>
                       if may_make t (d ++ [c])
                       then (MkdirOk, Some (d ++ [c]))
                       else (MkdirError, None)
                   end
          | _ => (MkdirError, None)
          end
      end
  end.

(** [mkdir (path, mode)] *)
Definition sys_mkdir (path : string) (mode : Z) (t : tree)
  : mkdir_ret * tree :=
  let '(ret, made) := mkdir_plan t path in
  let t1 := match made with
            | Some d => set_nodes (<[d := KDir]> (nodes t)) t
            | None => t
            end in
  (ret, emit (CMkdir path mode ret) t1).

Definition make_dir (dirpath : string) (mode : Z) (t : tree)
  : bool * tree :=
  let '(st, t1) := sys_stat dirpath t in
  match st with
  | StatFail =>
      (* Directory does not exist. Test EEXIST for race condition. *)
      let '(ret, t2) := sys_mkdir dirpath mode t1 in
      match ret with
      | MkdirError => (false, emit (CPerror1 dirpath mode) t2)
      | _ => (true, t2)
      end
  | StatOk KDir => (true, t1)
  | StatOk KFile => (false, emit (CPerror2 dirpath mode) t1)
  end.

(** [strchr (s, c)]: how far into [s] the first [c] is. *)
Fixpoint strchr (s : string) (c : ascii) : option nat :=
  match s with
  | EmptyString => None
  | String a s' =>
      if Ascii.eqb a c then Some O
      else match strchr s' c with
           | Some k => Some (S k)
           | None => None
           end
  end.

(** The [while] loop of [mkdir_parents] with [pp] that far into
    [work_path] and [status] true.  Each turn moves [pp] past a slash,
    so the loop ends within as many turns as the path has characters;
    [turns] bounds them. *)
Fixpoint parents_loop (turns : nat) (work_path : string) (pp : nat)
    (mode : Z) (t : tree) : bool * tree :=
  match turns with
  | O => (true, t)
  | S turns' =>
      match strchr (string_drop pp work_path) "/" with
      | None => (true, t)
      | Some k =>
          let sp := (pp + k)%nat in
          let '(status, t1) :=
            if negb (Nat.eqb sp pp)
            then
              (* Neither root nor double slash in path *)
              make_dir (String.substring 0 sp work_path) mode t
            else (true, t) in
          if status then parents_loop turns' work_path (S sp) mode t1
          else (false, t1)
      end
  end.

(** [mkdir_parents (dirpath, mode)]; [strdup] is taken to succeed. *)
Definition mkdir_parents (dirpath : option string) (mode : Z) (t : tree)
  : bool * tree :=
  match dirpath with
  | None => (false, t)
  | Some path =>
      let '(status, t1) :=
        parents_loop (S (String.length path)) path 0 mode t in
      if status then make_dir path mode t1 else (false, t1)
  end.

(** *** Reading [mkdir_parents] *)

(** The leading parts of a path the loop stops at: each ends before a
    slash and does not end with one.  [behind] is the path up to
    [rest], [at_pp] tells that nothing has been read since the last
    slash. *)
Fixpoint targets_from (behind : string) (at_pp : bool) (rest : string)
  : list string :=
  match rest with
  | EmptyString => []
  | String c rest' =>
      if Ascii.eqb c "/"
      then (if at_pp then [] else [behind])
           ++ targets_from (behind +:+ "/") true rest'
      else targets_from (behind +:+ String c EmptyString) false rest'
  end.

Definition targets (path : string) : list string :=
  targets_from EmptyString true path ++ [path].

(** [make_dir] for the paths of a list in turn, up to the first that
    fails. *)
Fixpoint make_dirs (paths : list string) (mode : Z) (t : tree)
  : bool * tree :=
  match paths with
  | [] => (true, t)
  | p :: paths' =>
      let '(status, t1) := make_dir p mode t in
      if status then make_dirs paths' mode t1 else (false, t1)
  end.

(** A name of an entry: not empty, no slash, neither [.] nor [..]. *)
Definition plain (c : string) : bool :=
  negb (stays c) && negb (goes_up c) && negb (Sys.has_slash c).

(** The names joined by slashes. *)
Fixpoint join (cs : list string) : string :=
  match cs with
  | [] => EmptyString
  | [c] => c
  | c :: cs' => c +:+ "/" +:+ join cs'
  end.

(** The leading parts of the path of the names [cs] behind [behind]:
    one more name each. *)
Fixpoint leads_from (behind : string) (cs : list string) : list string :=
  match cs with
  | [] => []
  | c :: cs' => (behind +:+ c) :: leads_from (behind +:+ c +:+ "/") cs'
  end.

(** The directories on the way from [d] along the names [cs]. *)
Fixpoint way (d : list string) (cs : list string) : list (list string) :=
  match cs with
  | [] => []
  | c :: cs' => (d ++ [c]) :: way (d ++ [c]) cs'
  end.

(** The calls of [mkdir] in a list of calls. *)
Definition mkdir_calls (cs : list call) : list string :=
  omap (λ c, match c with CMkdir path _ _ => Some path | _ => None end) cs.

Fixpoint ends_with_slash (s : string) : bool :=
  match s with
  | EmptyString => false
  | String c EmptyString => Ascii.eqb c "/"
  | String _ s' => ends_with_slash s'
  end.

(** The tree [t'] is the tree [t] with more directories: every entry
    of [t] is in [t'] as it was, and what is new is a directory. *)
Definition grown (t t' : tree) : Prop :=
  cwd t' = cwd t ∧ may_make t' = may_make t
  ∧ nodes t ⊆ nodes t'
  ∧ ∀ d k, nodes t' !! d = Some k → nodes t !! d = None → k = KDir.

(** The entries with the directories [ds] among them. *)
Definition add_dirs (ds : list (list string))
    (ns : gmap (list string) kind) : gmap (list string) kind :=
  foldr (λ d, <[d := KDir]>) ns ds.

End Dirs.

(** ** A tree for the examples *)
Module DirScenario.
Import Dirs.

(** The mode [main] passes: 0755. *)
Definition mode_0755 : Z := 493.

(** A working directory [/home] with a file [f] in it; every
    directory may be made. *)
Definition home_tree : tree :=
  {| nodes := <[["home"; "f"] := KFile]> (<[["home"] := KDir]> ∅);
     cwd := ["home"];
     may_make := λ _, true;
     calls := [] |}.

End DirScenario.

(** ** Worlds and inputs for the examples *)
Module Scenario.
Import Options Sys Logger Utc.

Definition bytes (s : string) : list byte := String.list_byte_of_string s.

(** A world at 2024-01-01 00:00:00 UTC in which every call succeeds and
    the clock advances by one second at each of the next [n] calls of
    [time]. *)
Definition world_with (f : gmap string (list byte)) (n : nat) : world :=
  {| files := f; now := 1704067200; ticks := replicate n 1;
     localtime := utc_tm;
     may_mkdir := λ _, true; may_scan := λ _, true;
     may_unlink := λ _, true; may_creat := λ _, true;
     write_outcomes := []; trace := [] |}.

(** The directory of the purging example of the specification, with one
    file that is not a log file of the prefix. *)
Definition three_logs : gmap string (list byte) :=
  <["d/p_2024-01-01_00-00-02.log" := bytes "c"]>
    (<["d/p_2024-01-01_00-00-00.log" := bytes "a"]>
       (<["d/p_2024-01-01_00-00-01.log" := bytes "b"]>
          (<["d/notes.txt" := bytes "n"]> ∅))).

(** Three reads; the first brings more than 20 bytes. *)
Definition three_reads : list read_result :=
  [ReadBytes (bytes "hello world, this is more than twenty");
   ReadEINTR;
   ReadBytes (bytes "abc" ++ [newline]);
   ReadBytes (bytes "def")].

Definition small_limits : list getopt_ret :=
  [GotSize "1"; GotKeep "1"].

(** A directory name of 230 characters. *)
Definition long_directory : string :=
  String.string_of_list_ascii (replicate 230 "d"%char).

End Scenario.

(** * Lemmas and theorems *)

Module StringFacts.
Import Filter.

Lemma app_cons (c : ascii) (s t : string) :
  String c s +:+ t = String c (s +:+ t).
Proof. reflexivity. Qed.

Lemma app_empty_l (t : string) : EmptyString +:+ t = t.
Proof. reflexivity. Qed.

Lemma app_empty_r (s : string) : s +:+ EmptyString = s.
Proof. induction s as [|c s IH]; [done|]. by rewrite app_cons, IH. Qed.

Lemma app_assoc (s t u : string) : (s +:+ t) +:+ u = s +:+ (t +:+ u).
Proof. induction s as [|c s IH]; [done|]. by rewrite !app_cons, IH. Qed.

Lemma length_app (s t : string) :
  String.length (s +:+ t) = (String.length s + String.length t)%nat.
Proof. induction s as [|c s IH]; [done|]. rewrite app_cons. simpl. by rewrite IH. Qed.

Lemma length_zero (s : string) : String.length s = 0%nat → s = EmptyString.
Proof. by destruct s. Qed.

(** Two ways of cutting the same string. *)
Lemma app_split (p r a t : string) :
  p +:+ r = a +:+ t → (String.length p ≤ String.length a)%nat →
  ∃ m, a = p +:+ m ∧ r = m +:+ t.
Proof.
  revert a. induction p as [|c p IH]; intros a E Hlen.
  - exists a. by rewrite !app_empty_l in *.
  - destruct a as [|c' a]; simpl in Hlen; [lia|].
    rewrite !app_cons in E. injection E as -> E.
    destruct (IH a E) as (m & -> & ->); [lia|].
    by exists m.
Qed.

Lemma app_inv_length (p r a t : string) :
  p +:+ r = a +:+ t → String.length p = String.length a → p = a ∧ r = t.
Proof.
  intros E Hlen. destruct (app_split p r a t E) as (m & Ea & Er); [lia|].
  assert (m = EmptyString) as ->.
  { apply length_zero. rewrite Ea, length_app in Hlen. lia. }
  by rewrite app_empty_r in Ea.
Qed.

Lemma string_drop_app (a b : string) :
  string_drop (String.length a) (a +:+ b) = b.
Proof. induction a as [|c a IH]; [by destruct b|]. by rewrite app_cons. Qed.

Lemma string_drop_split (n : nat) (s : string) :
  (n ≤ String.length s)%nat →
  ∃ a, s = a +:+ string_drop n s ∧ String.length a = n.
Proof.
  revert s. induction n as [|n IH]; intros s Hn.
  - by exists EmptyString.
  - destruct s as [|c s]; simpl in Hn; [lia|].
    destruct (IH s) as (a & E & Ha); [lia|].
    exists (String c a). simpl. rewrite Ha. split; [|done].
    rewrite app_cons. by f_equal.
Qed.

Lemma snprintf_fits (size : nat) (s : string) :
  (String.length s ≤ size - 1)%nat → snprintf size s = s.
Proof.
  unfold snprintf. generalize (size - 1)%nat as n. clear size.
  intros n. revert n. induction s as [|c s IH]; intros n Hn.
  - by destruct n.
  - destruct n as [|n]; simpl in *; [lia|]. f_equal. apply IH. lia.
Qed.

Lemma snprintf_length (size : nat) (s : string) :
  String.length (snprintf size s) = Nat.min (size - 1) (String.length s).
Proof.
  unfold snprintf. generalize (size - 1)%nat as n. clear size.
  intros n. revert n. induction s as [|c s IH]; intros n.
  - destruct n; simpl; lia.
  - destruct n as [|n]; simpl; [done|]. by rewrite IH.
Qed.

Lemma ascii_compare_refl (c : ascii) : Ascii.compare c c = Eq.
Proof. unfold Ascii.compare. apply N.compare_refl. Qed.

(** [strncmp (s, p, strlen (p)) == 0] says that [s] starts with [p]. *)
Lemma strncmp_prefix (p s : string) :
  is_zero (strncmp s p (String.length p)) = true ↔ ∃ r, s = p +:+ r.
Proof.
  revert s. induction p as [|c p IH]; intros s.
  - simpl. split; [intros _; by exists s|done].
  - destruct s as [|c' s]; simpl.
    + split; [done|]. intros [r E]. by rewrite app_cons in E.
    + destruct (Ascii.compare c' c) eqn:Hc.
      * apply Ascii.compare_eq_iff in Hc as ->. rewrite IH.
        split; intros [r E]; exists r.
        -- by rewrite app_cons, E.
        -- rewrite app_cons in E. by injection E.
      * split; [done|]. intros [r E]. rewrite app_cons in E.
        injection E as -> _. by rewrite ascii_compare_refl in Hc.
      * split; [done|]. intros [r E]. rewrite app_cons in E.
        injection E as -> _. by rewrite ascii_compare_refl in Hc.
Qed.

End StringFacts.

Module FilterTheorems.
Import Filter Sys Logger FileSpec StringFacts.

Lemma prefixFilter_unfold (thePrefix name : string) :
  prefixFilter thePrefix (Some name) = 1
  ↔ ∃ stamp, String.length stamp = 19%nat
             ∧ name = thePrefix +:+ stamp +:+ ".log".
Proof.
  unfold prefixFilter, strlen.
  destruct (Nat.eqb_spec (String.length name) (String.length thePrefix + 23))
    as [Hlen|Hlen].
  - split.
    + destruct (is_zero (strncmp name thePrefix _)) eqn:Hp; [|done].
      destruct (is_zero (strncmp (string_drop _ name) ".log" 4)) eqn:Hs;
        [|done].
      intros _.
      apply strncmp_prefix in Hp as [r Er].
      apply (proj1 (strncmp_prefix ".log" _)) in Hs as [r' Er'].
      destruct (string_drop_split (String.length name - 4) name) as (a & Ea & Ha);
        [lia|].
      rewrite Er' in Ea.
      assert (r' = EmptyString) as ->.
      { apply length_zero.
        apply (f_equal String.length) in Ea.
        rewrite !length_app in Ea. simpl in Ea. lia. }
      rewrite app_empty_r in Ea.
      rewrite Er in Ea at 1.
      destruct (app_split thePrefix r a ".log" Ea) as (m & -> & ->); [lia|].
      exists m. split; [|by rewrite Er].
      rewrite length_app in Ha. lia.
    + intros (stamp & Hst & ->).
      assert (is_zero (strncmp (thePrefix +:+ stamp +:+ ".log") thePrefix
                         (String.length thePrefix)) = true) as ->.
      { apply strncmp_prefix. by eexists. }
      rewrite !length_app. simpl String.length.
      replace (String.length thePrefix + (String.length stamp + 4) - 4)%nat
        with (String.length (thePrefix +:+ stamp))
        by (rewrite length_app; lia).
      rewrite <- app_assoc, string_drop_app. done.
  - split; [done|]. intros (stamp & Hst & ->).
    rewrite !length_app in Hlen. simpl in Hlen. lia.
Qed.

Lemma prefixFilter_bool (thePrefix : string) (entry : option string) :
  prefixFilter thePrefix entry = 0 ∨ prefixFilter thePrefix entry = 1.
Proof.
  unfold prefixFilter. destruct entry; [|by left].
  destruct (Nat.eqb _ _); [|by left].
  destruct (_ && _); [by right|by left].
Qed.

(** The filter with the prefix as [purgeOldFiles] sets it up, on the name
    of a directory entry (at most [NAME_MAX] characters). *)
Lemma prefixFilter_log_name (prefix name : string) :
  (String.length name ≤ NAME_MAX)%nat →
  prefixFilter (thePrefix_of prefix) (Some name) = 1 ↔ log_name prefix name.
Proof.
  intros Hname. rewrite prefixFilter_unfold. unfold thePrefix_of, log_name.
  destruct (Nat.le_gt_cases (String.length (prefix +:+ "_")) (FULL_PATH_LEN - 1))
    as [Hfit|Hlong].
  - rewrite snprintf_fits by done.
    split; intros (stamp & Hst & ->); exists stamp;
      (split; [done|]); by rewrite ?app_assoc.
  - unfold NAME_MAX, FULL_PATH_LEN in *.
    split; intros (stamp & Hst & ->); exfalso.
    + rewrite !length_app, snprintf_length in Hname.
      change (String.length ".log") with 4%nat in Hname. lia.
    + rewrite !length_app in *.
      change (String.length ".log") with 4%nat in Hname.
      change (String.length "_") with 1%nat in *. lia.
Qed.

End FilterTheorems.

Module OptionFacts.
Import CInt Scan Options ArgSpec ArgCode StringFacts.

Lemma digit_val_code (c : ascii) :
  isdigit c = true → digit_val c = Some (Z.of_N (N_of_ascii c) - 48).
Proof.
  unfold isdigit, digit_val.
  by destruct ((48 <=? Z.of_N (N_of_ascii c))
               && (Z.of_N (N_of_ascii c) <=? 57)).
Qed.

Lemma digit_code_range (c : ascii) :
  isdigit c = true → 48 ≤ Z.of_N (N_of_ascii c) ≤ 57.
Proof.
  unfold isdigit, digit_val.
  destruct (Z.leb_spec 48 (Z.of_N (N_of_ascii c)));
    destruct (Z.leb_spec (Z.of_N (N_of_ascii c)) 57); simpl; try done; lia.
Qed.

Lemma digit_not_space (c : ascii) : isdigit c = true → isspace c = false.
Proof.
  intros H%digit_code_range.
  destruct (isspace c) eqn:E; [|done]. exfalso. revert H.
  unfold isspace in E.
  destruct c as [b0 b1 b2 b3 b4 b5 b6 b7].
  destruct b0, b1, b2, b3, b4, b5, b6, b7; try discriminate E;
    vm_compute; intros [H1 H2]; auto.
Qed.

Lemma digit_not_sign (c : ascii) :
  isdigit c = true → Ascii.eqb c "-" = false ∧ Ascii.eqb c "+" = false.
Proof.
  intros H%digit_code_range.
  split; apply Ascii.eqb_neq; intros ->; vm_compute in H;
    destruct H as [H1 H2]; auto.
Qed.

Lemma decimal_lower (s : string) (acc : Z) :
  all_digits s = true → 0 ≤ acc → acc ≤ decimal acc s.
Proof.
  revert acc. induction s as [|c s IH]; intros acc Hd Hacc; simpl in *; [lia|].
  apply andb_true_iff in Hd as [Hc Hs].
  pose proof (digit_code_range c Hc).
  specialize (IH (10 * acc + (Z.of_N (N_of_ascii c) - 48)) Hs). lia.
Qed.

Lemma numeric_value_nonneg (ds : string) :
  all_digits ds = true → 0 ≤ numeric_value ds.
Proof. intros. by apply decimal_lower. Qed.

Lemma scan_digits_app (ds rest : string) (acc : Z) :
  all_digits ds = true → starts_with_digit rest = false →
  scan_digits acc (ds +:+ rest) = (decimal acc ds, rest).
Proof.
  revert acc. induction ds as [|c ds IH]; intros acc Hd Hr.
  - rewrite app_empty_l. destruct rest as [|c r]; [done|].
    simpl in *. unfold isdigit in Hr. by destruct (digit_val c).
  - simpl in Hd. apply andb_true_iff in Hd as [Hc Hs].
    rewrite app_cons. simpl. rewrite (digit_val_code c Hc). by apply IH.
Qed.

Lemma scan_long_digits (ds rest : string) :
  ds ≠ EmptyString → all_digits ds = true → starts_with_digit rest = false →
  scan_long (ds +:+ rest) = ScanOk (clamp_long (numeric_value ds)) rest.
Proof.
  intros Hne Hd Hr. destruct ds as [|c ds]; [done|].
  pose proof Hd as Hd'. simpl in Hd'. apply andb_true_iff in Hd' as [Hc _].
  unfold scan_long. rewrite app_cons. simpl skip_space.
  rewrite (digit_not_space c Hc).
  destruct (digit_not_sign c Hc) as [-> ->].
  simpl starts_with_digit. rewrite Hc.
  rewrite <- app_cons, (scan_digits_app _ _ 0 Hd Hr). done.
Qed.

Lemma clamp_long_id (z : Z) : LONG_MIN ≤ z ≤ LONG_MAX → clamp_long z = z.
Proof.
  unfold clamp_long. intros [H1 H2].
  destruct (Z.ltb_spec z LONG_MIN); [lia|].
  destruct (Z.ltb_spec LONG_MAX z); [lia|]. done.
Qed.

Lemma to_size_t_id (z : Z) : 0 ≤ z < ULONG_MOD → to_size_t z = z.
Proof. intros. unfold to_size_t. by apply Z.mod_small. Qed.

Lemma to_int_id (z : Z) : INT_MIN ≤ z ≤ INT_MAX → to_int z = z.
Proof.
  unfold to_int, INT_MIN, INT_MAX. intros.
  rewrite Z.mod_small; lia.
Qed.

Lemma to_int_range (z : Z) : INT_MIN ≤ to_int z ≤ INT_MAX.
Proof.
  unfold to_int, INT_MIN, INT_MAX.
  pose proof (Z.mod_pos_bound (z + 2 ^ 31) (2 ^ 32)). lia.
Qed.

Lemma to_size_t_range (z : Z) : 0 ≤ to_size_t z < ULONG_MOD.
Proof. unfold to_size_t, ULONG_MOD. apply Z.mod_pos_bound. lia. Qed.

Lemma sscanf_digits (ds : string) :
  ds ≠ EmptyString → all_digits ds = true →
  sscanf_ld_c ds 0 " "
  = (1, to_size_t (clamp_long (numeric_value ds)), " "%char).
Proof.
  intros Hne Hd. unfold sscanf_ld_c.
  rewrite <- (app_empty_r ds) at 1.
  by rewrite scan_long_digits.
Qed.

Lemma sscanf_digits_char (ds : string) (c : ascii) (tail : string) :
  ds ≠ EmptyString → all_digits ds = true → isdigit c = false →
  sscanf_ld_c (ds +:+ String c tail) 0 " "
  = (2, to_size_t (clamp_long (numeric_value ds)), c).
Proof.
  intros Hne Hd Hc. unfold sscanf_ld_c.
  by rewrite scan_long_digits.
Qed.

Lemma sscanf_no_number (s : string) :
  no_number s = true → ∃ n, n < 1 ∧ sscanf_ld_c s 0 " " = (n, 0, " "%char).
Proof.
  unfold no_number, sscanf_ld_c. destruct (scan_long s); intros; try done.
  - exists (-1). split; [lia|done].
  - exists 0. split; [lia|done].
Qed.

Lemma unit_not_digit (k : limit_kind) (c : ascii) (m : Z) :
  unit_multiplier k c = Some m → isdigit c = false.
Proof.
  intros H. destruct k; unfold unit_multiplier in H;
    repeat match type of H with
           | context [Ascii.eqb c ?x] =>
               destruct (Ascii.eqb_spec c x) as [->|_]; [reflexivity|]
           end;
    discriminate.
Qed.

Lemma parse_options_cons (o : getopt_ret) :
  parse_options [o]
  = match process_option o defaults with
    | (out, Return status) => (out, Return status)
    | (out, Next s) => (out, Next (sanitise s))
    end.
Proof.
  unfold parse_options. simpl.
  destruct (process_option o defaults) as [out [status|s]]; [done|].
  by rewrite app_nil_r.
Qed.

(** *** The shape of an argument with a number at its start *)

Lemma skip_space_app (sp x : string) :
  all_space sp = true → skip_space (sp +:+ x) = skip_space x.
Proof.
  induction sp as [|c sp IH]; [done|]. simpl.
  intros [Hc Hs]%andb_true_iff. rewrite Hc. by apply IH.
Qed.

Lemma skip_space_split (s : string) :
  ∃ sp, all_space sp = true ∧ s = sp +:+ skip_space s.
Proof.
  induction s as [|c s (sp & H1 & H2)]; [by exists EmptyString|].
  simpl. destruct (isspace c) eqn:E.
  - exists (String c sp). simpl. rewrite E, H1. split; [done|].
    rewrite app_cons. by rewrite <- H2.
  - by exists EmptyString.
Qed.

Lemma scan_digits_split (s : string) (acc : Z) :
  ∃ ds, s = ds +:+ (scan_digits acc s).2
        ∧ all_digits ds = true
        ∧ (scan_digits acc s).1 = decimal acc ds
        ∧ starts_with_digit (scan_digits acc s).2 = false.
Proof.
  revert acc. induction s as [|c s IH]; intros acc.
  - by exists EmptyString.
  - simpl. destruct (digit_val c) as [d|] eqn:E.
    + assert (Hc : isdigit c = true) by (unfold isdigit; by rewrite E).
      rewrite (digit_val_code c Hc) in E. injection E as <-.
      destruct (IH (10 * acc + (Z.of_N (N_of_ascii c) - 48)))
        as (ds & H1 & H2 & H3 & H4).
      exists (String c ds). simpl. rewrite Hc, H2.
      split; [by rewrite app_cons, <- H1|done].
    + exists EmptyString. simpl. unfold isdigit. by rewrite E.
Qed.

(** The scanner reads the number of an argument that has one at its
    start. *)
Lemma scan_long_number (s : string) (f : Z) (ds rest : string) :
  number_at_start s f ds rest →
  scan_long s = ScanOk (clamp_long (f * numeric_value ds)) rest.
Proof.
  intros [sp sg -> Hsp Hsg Hne Hd Hr].
  unfold scan_long. rewrite skip_space_app by done.
  destruct ds as [|c ds]; [done|].
  pose proof Hd as Hd'. simpl in Hd'. apply andb_true_iff in Hd' as [Hc _].
  destruct (digit_not_sign c Hc) as [Hm Hp].
  pose proof (scan_digits_app _ _ 0 Hd Hr) as Hscan.
  unfold sign_factor in Hsg.
  destruct (String.eqb_spec sg EmptyString) as [->|_];
    [|destruct (String.eqb_spec sg "+") as [->|_];
      [|destruct (String.eqb_spec sg "-") as [->|_]; [|done]]];
    injection Hsg as <-.
  - rewrite app_empty_l, app_cons. simpl skip_space.
    rewrite (digit_not_space c Hc), Hm, Hp.
    simpl starts_with_digit. rewrite Hc.
    rewrite <- app_cons, Hscan. by rewrite Z.mul_1_l.
  - simpl. rewrite Hc. rewrite app_cons in Hscan. simpl in Hscan.
    rewrite Hscan. by rewrite Z.mul_1_l.
  - simpl. rewrite Hc. rewrite app_cons in Hscan. simpl in Hscan.
    rewrite Hscan.
    by replace (-1 * numeric_value (String c ds))
      with (- numeric_value (String c ds)) by lia.
Qed.

(** Every number the scanner reads is that of such an argument. *)
Lemma scan_long_ok (s : string) (v : Z) (rest : string) :
  scan_long s = ScanOk v rest →
  ∃ f ds, number_at_start s f ds rest
          ∧ v = clamp_long (f * numeric_value ds).
Proof.
  unfold scan_long. destruct (skip_space_split s) as (sp & Hsp & Es).
  destruct (skip_space s) as [|c s2] eqn:E; [done|].
  assert (Hnum : ∀ s3, starts_with_digit s3 = true →
            ∃ ds, ds ≠ EmptyString ∧ all_digits ds = true
                  ∧ s3 = ds +:+ (scan_digits 0 s3).2
                  ∧ (scan_digits 0 s3).1 = numeric_value ds
                  ∧ starts_with_digit (scan_digits 0 s3).2 = false).
  { intros s3 H3. destruct (scan_digits_split s3 0) as (ds & H1 & H2 & H4 & H5).
    exists ds. split; [|done].
    intros ->. rewrite app_empty_l in H1. rewrite <- H1 in H5. congruence. }
  destruct (Ascii.eqb_spec c "-") as [->|Hm];
    [|destruct (Ascii.eqb_spec c "+") as [->|Hp]].
  - destruct (starts_with_digit s2) eqn:H2; [|done].
    destruct (Hnum s2 H2) as (ds & Hne & Hd & E2 & Ev & Hr).
    destruct (scan_digits 0 s2) as [m r]. simpl in *. intros [= <- <-].
    exists (-1), ds. split.
    + apply (NumberAtStart _ _ _ _ sp "-"); try done.
      by rewrite Es, app_cons, app_empty_l, <- E2.
    + f_equal. lia.
  - destruct (starts_with_digit s2) eqn:H2; [|done].
    destruct (Hnum s2 H2) as (ds & Hne & Hd & E2 & Ev & Hr).
    destruct (scan_digits 0 s2) as [m r]. simpl in *. intros [= <- <-].
    exists 1, ds. split.
    + apply (NumberAtStart _ _ _ _ sp "+"); try done.
      by rewrite Es, app_cons, app_empty_l, <- E2.
    + f_equal. lia.
  - destruct (starts_with_digit (String c s2)) eqn:H2; [|done].
    destruct (Hnum _ H2) as (ds & Hne & Hd & E2 & Ev & Hr).
    destruct (scan_digits 0 (String c s2)) as [m r]. simpl in *.
    intros [= <- <-].
    exists 1, ds. split.
    + apply (NumberAtStart _ _ _ _ sp EmptyString); try done.
      by rewrite Es, app_empty_l, <- E2.
    + f_equal. lia.
Qed.

Lemma numberless_scan (s : string) :
  numberless s ↔ no_number s = true.
Proof.
  unfold numberless, no_number. split.
  - intros H. destruct (scan_long s) as [| |v rest] eqn:E; [done..|].
    destruct (scan_long_ok s v rest E) as (f & ds & Hn & _).
    by destruct (H f ds rest).
  - intros H f ds rest Hn. by rewrite (scan_long_number _ _ _ _ Hn) in H.
Qed.

(** Every argument has a number at its start or has none. *)
Lemma number_or_none (s : string) :
  numberless s ∨ ∃ f ds rest, number_at_start s f ds rest.
Proof.
  destruct (scan_long s) as [| |v rest] eqn:E.
  - left. apply numberless_scan. unfold no_number. by rewrite E.
  - left. apply numberless_scan. unfold no_number. by rewrite E.
  - right. destruct (scan_long_ok s v rest E) as (f & ds & Hn & _).
    by exists f, ds, rest.
Qed.

Lemma sscanf_number_char (s : string) (f : Z) (ds : string) (c : ascii)
    (tail : string) :
  number_at_start s f ds (String c tail) →
  sscanf_ld_c s 0 " "
  = (2, to_size_t (clamp_long (f * numeric_value ds)), c).
Proof.
  intros Hn. unfold sscanf_ld_c. by rewrite (scan_long_number _ _ _ _ Hn).
Qed.

Lemma sscanf_number_bare (s : string) (f : Z) (ds : string) :
  number_at_start s f ds EmptyString →
  sscanf_ld_c s 0 " "
  = (1, to_size_t (clamp_long (f * numeric_value ds)), " "%char).
Proof.
  intros Hn. unfold sscanf_ld_c. by rewrite (scan_long_number _ _ _ _ Hn).
Qed.

End OptionFacts.

Module OptionTheorems.
Import CInt Scan Options ArgSpec ArgCode Sys Logger StringFacts OptionFacts.

(** C3. Whenever the option loop runs to its end, the limits the program
    goes on with are the stored ones raised to 10 seconds, 20 bytes and 1
    file: nothing is printed for that and the program does not return. *)
Theorem limits_are_clamped (os : list getopt_ret) (out : list printed)
    (s0 : settings) :
  process_options os defaults = (out, Next s0) →
  parse_options os = (out, Next (sanitise s0))
  ∧ (∀ args reads w,
        main os args reads w = run (sanitise s0) args reads (printf out w))
  ∧ ageLimit (sanitise s0) = Z.max 10 (ageLimit s0)
  ∧ sizeLimit (sanitise s0) = Z.max 20 (sizeLimit s0)
  ∧ numberToKeep (sanitise s0) = Z.max 1 (numberToKeep s0)
  ∧ 10 ≤ ageLimit (sanitise s0)
  ∧ 20 ≤ sizeLimit (sanitise s0)
  ∧ 1 ≤ numberToKeep (sanitise s0).
Proof.
  intros H. unfold parse_options, main. rewrite H.
  repeat split; try done; unfold sanitise; simpl.
  - destruct (Z.ltb_spec (ageLimit s0) 10); lia.
  - destruct (Z.ltb_spec (sizeLimit s0) 20); lia.
  - destruct (Z.ltb_spec (numberToKeep s0) 1); lia.
  - destruct (Z.ltb_spec (ageLimit s0) 10); lia.
  - destruct (Z.ltb_spec (sizeLimit s0) 20); lia.
  - destruct (Z.ltb_spec (numberToKeep s0) 1); lia.
Qed.

Lemma limits_are_clamped_witness :
  parse_options [GotAge "0"; GotSize "-5"; GotKeep "-3"]
  = ([], Next (sanitise {| sizeLimit := 2 ^ 64 - 5; ageLimit := 0;
                           numberToKeep := -3 |}))
  ∧ 10 ≤ ageLimit (sanitise {| sizeLimit := 2 ^ 64 - 5; ageLimit := 0;
                               numberToKeep := -3 |}).
Proof.
  pose proof (limits_are_clamped
                [GotAge "0"; GotSize "-5"; GotKeep "-3"] []
                {| sizeLimit := 2 ^ 64 - 5; ageLimit := 0;
                   numberToKeep := -3 |} eq_refl) as H.
  split; [apply H | apply H].
Defined.

(** C4, as the specification has it, fails: 4000 weeks are 2419200000
    seconds, which the [int] [ageLimit] does not hold. *)
Lemma age_4000w_does_not_fit :
  all_digits "4000" = true
  ∧ unit_multiplier Duration "w" = Some 604800
  ∧ numeric_value "4000" * 604800 = 2419200000
  ∧ parsed Duration "4000w" = Some (-1875767296).
Proof. repeat split. Qed.

(** C4, amended. For digits followed by a recognized unit character, or
    by nothing, the stored limit is the number times the multiplier of
    the unit (1 without a unit), provided the number fits a [long] and
    the product fits the variable of the limit. *)
Theorem parsed_value_is_scaled_prefix (k : limit_kind) (ds : string)
    (u : option ascii) (m : Z) :
  ds ≠ EmptyString → all_digits ds = true →
  multiplier k u = Some m →
  numeric_value ds ≤ LONG_MAX →
  numeric_value ds * m ≤ limit_max k →
  parsed k (ds +:+ unit_suffix u) = Some (numeric_value ds * m).
Proof.
  intros Hne Hd Hm Hlong Hfit.
  pose proof (numeric_value_nonneg ds Hd) as H0.
  assert (Hclamp : to_size_t (clamp_long (numeric_value ds)) = numeric_value ds).
  { rewrite clamp_long_id by (unfold LONG_MIN, LONG_MAX in *; lia).
    apply to_size_t_id. unfold LONG_MAX, ULONG_MOD in *. lia. }
  assert (Hm1 : 1 ≤ m).
  { destruct u as [c|]; simpl in Hm; [|by inversion Hm].
    destruct k; unfold unit_multiplier in Hm;
      repeat match type of Hm with
             | context [Ascii.eqb c ?x] =>
                 destruct (Ascii.eqb c x); [inversion Hm; lia|]
             end; discriminate. }
  assert (Hprod : 0 ≤ numeric_value ds * m) by lia.
  destruct u as [c|]; simpl in Hm; simpl unit_suffix.
  - pose proof (unit_not_digit k c m Hm) as Hc.
    unfold parsed. destruct k; simpl process_option;
      [unfold case_age|unfold case_size];
      rewrite (sscanf_digits_char ds c EmptyString Hne Hd Hc), Hclamp;
      simpl Z.ltb; simpl Z.eqb; cbv iota; unfold limit_max in Hfit.
    + unfold age_scale. unfold unit_multiplier in Hm.
      repeat match type of Hm with
             | context [Ascii.eqb c ?x] =>
                 destruct (Ascii.eqb_spec c x) as [->|?];
                 [inversion Hm; subst m; simpl; f_equal;
                  rewrite to_size_t_id by (unfold INT_MAX, ULONG_MOD in *; lia);
                  apply to_int_id; unfold INT_MIN, INT_MAX in *; lia|]
             end.
      discriminate.
    + unfold size_scale. unfold unit_multiplier in Hm.
      repeat match type of Hm with
             | context [Ascii.eqb c ?x] =>
                 destruct (Ascii.eqb_spec c x) as [->|?];
                 [inversion Hm; subst m; simpl; f_equal;
                  apply to_size_t_id; lia|]
             end.
      discriminate.
  - inversion Hm; subst m. rewrite app_empty_r, Z.mul_1_r in *.
    unfold parsed. destruct k; simpl process_option;
      [unfold case_age|unfold case_size];
      rewrite (sscanf_digits ds Hne Hd), Hclamp;
      simpl; f_equal.
    apply to_int_id. unfold limit_max, INT_MIN, INT_MAX in *. lia.
Qed.

Lemma parsed_value_is_scaled_prefix_witness :
  parsed Duration "6h" = Some (6 * 3600).
Proof.
  apply (parsed_value_is_scaled_prefix Duration "6" (Some "h"%char) 3600);
    [done | reflexivity | reflexivity | vm_compute; discriminate
     | vm_compute; discriminate].
Defined.

(** C5, as the specification has it, fails: ["-5"] has no leading digit,
    ["5 "] has an unrecognized character after the digit and ["5mx"] has
    more than one character after the digit, and the option loop goes
    on with all three. *)
Lemma minus_and_space_are_accepted :
  well_formed Duration "-5" = false
  ∧ starts_with_digit "-5" = false
  ∧ parse_options [GotAge "-5"]
    = ([], Next {| sizeLimit := 50000000; ageLimit := 10;
                   numberToKeep := 40 |})
  ∧ well_formed Duration "5 " = false
  ∧ unit_multiplier Duration " " = None
  ∧ process_option (GotAge "5 ") defaults
    = ([], Next {| sizeLimit := 50000000; ageLimit := 5;
                   numberToKeep := 40 |})
  ∧ well_formed Duration "5mx" = false
  ∧ process_option (GotAge "5mx") defaults
    = ([], Next {| sizeLimit := 50000000; ageLimit := 300;
                   numberToKeep := 40 |}).
Proof. repeat split. Qed.

(** C5, amended. Every argument of a duration or size option is either
    turned down or taken.  It is turned down when it has no number at
    its start (white space, an optional sign, digits), or when the
    character after the digits is neither a space nor a recognized
    unit: the program then ends with the usage message as the last
    thing printed and the exit status 1.  It is taken when nothing, a
    space or a recognized unit follows the digits, whatever comes after
    that character: nothing is printed and the option loop goes on. *)
Theorem turned_down_argument_exits (k : limit_kind) (optarg : string)
    (s : settings) :
  (turned_down k optarg ∨ taken k optarg)
  ∧ (turned_down k optarg →
     ∃ out,
       process_option (option_of k optarg) s = (out ++ printUsage, Return 1)
       ∧ ∀ os args reads w,
           main (option_of k optarg :: os) args reads w
           = (1, printf (out ++ printUsage) w))
  ∧ (taken k optarg →
     ∃ s', process_option (option_of k optarg) s = ([], Next s')).
Proof.
  split; [|split].
  - destruct (number_or_none optarg) as [Hno|(f & ds & rest & Hn)];
      [left; by constructor|].
    destruct rest as [|c tail]; [right; by eapply TakenBare|].
    destruct (Ascii.eqb_spec c " ") as [->|Hsp];
      [right; eapply TakenModified; [done|by left]|].
    destruct (unit_multiplier k c) as [m|] eqn:Hu.
    + right. eapply TakenModified; [done|]. right. by rewrite Hu.
    + left. by eapply BadModifier.
  - intros Hbad.
    assert (∃ out, ∀ s1, process_option (option_of k optarg) s1
                         = (out ++ printUsage, Return 1)) as [out Hout].
    { destruct Hbad as [Hno | f ds c tail Hn Hsp Hu].
      - apply numberless_scan in Hno.
        destruct (sscanf_no_number optarg Hno) as (n & Hn & E).
        exists []. intros s1.
        destruct k; simpl; [unfold case_age|unfold case_size];
          rewrite E; by destruct (Z.ltb_spec n 1); [|lia].
      - destruct k.
        + exists [PAgeModifier c]. intros s1. simpl. unfold case_age.
          rewrite (sscanf_number_char _ _ _ _ _ Hn).
          simpl Z.ltb; simpl Z.eqb; cbv iota. unfold age_scale.
          destruct (Ascii.eqb_spec c " ") as [?|_]; [done|].
          unfold unit_multiplier in Hu.
          repeat match type of Hu with
                 | context [Ascii.eqb c ?x] =>
                     destruct (Ascii.eqb c x); [discriminate|]
                 end. done.
        + exists [PSizeModifier c]. intros s1. simpl. unfold case_size.
          rewrite (sscanf_number_char _ _ _ _ _ Hn).
          simpl Z.ltb; simpl Z.eqb; cbv iota. unfold size_scale.
          destruct (Ascii.eqb_spec c " ") as [?|_]; [done|].
          unfold unit_multiplier in Hu.
          repeat match type of Hu with
                 | context [Ascii.eqb c ?x] =>
                     destruct (Ascii.eqb c x); [discriminate|]
                 end. done. }
    exists out. split; [done|].
    intros os args reads w. unfold main. simpl process_options.
    by rewrite Hout.
  - intros [f ds Hn | f ds c tail Hn Hc].
    + destruct k; simpl; [unfold case_age|unfold case_size];
        rewrite (sscanf_number_bare _ _ _ Hn);
        simpl Z.ltb; simpl Z.eqb; cbv iota; by eexists.
    + destruct k; simpl; [unfold case_age|unfold case_size];
        rewrite (sscanf_number_char _ _ _ _ _ Hn);
        simpl Z.ltb; simpl Z.eqb; cbv iota;
        [unfold age_scale|unfold size_scale];
        (destruct Hc as [->|Hu]; [simpl; by eexists|]);
        (destruct (Ascii.eqb_spec c " "); [by eexists|]);
        unfold unit_multiplier in Hu;
        repeat match type of Hu with
               | context [Ascii.eqb c ?x] =>
                   destruct (Ascii.eqb c x); [by eexists|]
               end; by destruct Hu.
Qed.

Lemma turned_down_argument_exits_witness :
  ∃ out,
    process_option (GotAge " -5x") defaults = (out ++ printUsage, Return 1)
    ∧ ∀ os args reads w,
        main (GotAge " -5x" :: os) args reads w
        = (1, printf (out ++ printUsage) w).
Proof.
  apply (proj1 (proj2 (turned_down_argument_exits Duration " -5x" defaults))).
  apply (BadModifier Duration " -5x" (-1) "5" "x" EmptyString);
    [|discriminate|reflexivity].
  apply (NumberAtStart " -5x" (-1) "5" "x" " " "-");
    [reflexivity | reflexivity | reflexivity | discriminate | reflexivity
     | reflexivity].
Defined.

(** C10, as the claim has it, fails: ["+7"] has no leading digit and is
    read as 7, ["5abc"] has trailing characters and is read as 5; neither
    becomes 0 and then 1. *)
Lemma keep_plus7_and_5abc :
  starts_with_digit "+7" = false
  ∧ atoi "+7" = 7
  ∧ parse_options [GotKeep "+7"]
    = ([], Next {| sizeLimit := 50000000; ageLimit := 86400;
                   numberToKeep := 7 |})
  ∧ atoi "5abc" = 5
  ∧ parse_options [GotKeep "5abc"]
    = ([], Next {| sizeLimit := 50000000; ageLimit := 86400;
                   numberToKeep := 5 |}).
Proof. repeat split. Qed.

(** C10, amended. A keep argument never ends the program and prints
    nothing.  For an argument with a number at its start (white space,
    an optional sign, digits; what follows the digits is ignored) the
    count is that number when it fits an [int], and in any case the
    [long] that [strtol] returns for it cut to an [int]; for an
    argument without such a number it is 0.  The program goes on with
    the count raised to 1. *)
Theorem keep_argument_never_exits (optarg : string) (s : settings) :
  process_option (GotKeep optarg) s
  = ([], Next {| sizeLimit := sizeLimit s; ageLimit := ageLimit s;
                 numberToKeep := atoi optarg |})
  ∧ parse_options [GotKeep optarg]
    = ([], Next {| sizeLimit := 50000000; ageLimit := 86400;
                   numberToKeep := Z.max 1 (atoi optarg) |})
  ∧ (numberless optarg →
     atoi optarg = 0 ∧ Z.max 1 (atoi optarg) = 1)
  ∧ (∀ f ds rest,
       number_at_start optarg f ds rest →
       atoi optarg = to_int (clamp_long (f * numeric_value ds))
       ∧ (INT_MIN ≤ f * numeric_value ds ≤ INT_MAX →
          atoi optarg = f * numeric_value ds)).
Proof.
  split; [done|]. split; [|split].
  - rewrite parse_options_cons. simpl. unfold sanitise. simpl.
    do 2 f_equal. f_equal.
    destruct (Z.ltb_spec (atoi optarg) 1); lia.
  - intros Hno%numberless_scan. unfold no_number in Hno. unfold atoi.
    by destruct (scan_long optarg).
  - intros f ds rest Hn. unfold atoi.
    rewrite (scan_long_number _ _ _ _ Hn). split; [done|].
    intros Hr. rewrite clamp_long_id, to_int_id; [done|done|].
    unfold INT_MIN, INT_MAX, LONG_MIN, LONG_MAX in *. lia.
Qed.

End OptionTheorems.

Module SysFacts.
Import Filter Sys Logger FileSpec StringFacts FilterTheorems.

Lemma strip_prefix_Some (p s r : string) :
  strip_prefix p s = Some r ↔ s = p +:+ r.
Proof.
  revert s. induction p as [|c p IH]; intros s; simpl.
  - rewrite app_empty_l. split; [by intros [= ->]|by intros ->].
  - destruct s as [|c' s]; [by rewrite app_cons|].
    rewrite app_cons. destruct (Ascii.eqb_spec c c') as [->|Hne].
    + rewrite IH. split; [by intros ->|by intros [= ->]].
    + split; [done|]. intros [= E _]. by destruct Hne.
Qed.

Lemma entry_name_Some (dir path name : string) :
  entry_name dir path = Some name
  ↔ path = entry_path dir name ∧ valid_name name.
Proof.
  unfold entry_name, entry_path, valid_name.
  destruct (strip_prefix (dir +:+ "/") path) as [r|] eqn:E.
  - apply strip_prefix_Some in E. rewrite app_assoc in E. subst path.
    destruct (has_slash r) eqn:Hs.
    + split; [done|]. intros [E%(inj _)%(inj (String.app "/")) [H _]].
      subst. congruence.
    + destruct (Nat.ltb_spec 0 (String.length r));
        destruct (Nat.leb_spec (String.length r) NAME_MAX); simpl.
      * split; [by intros [= ->]|].
        by intros [->%(inj _)%(inj (String.app "/")) _].
      * split; [done|].
        intros [E%(inj _)%(inj (String.app "/")) [_ ?]]. subst. lia.
      * split; [done|].
        intros [E%(inj _)%(inj (String.app "/")) [_ ?]]. subst. lia.
      * split; [done|].
        intros [E%(inj _)%(inj (String.app "/")) [_ ?]]. subst. lia.
  - split; [done|]. intros [-> _].
    assert (strip_prefix (dir +:+ "/") (dir +:+ "/" +:+ name) = Some name)
      as E'; [|congruence].
    apply strip_prefix_Some. by rewrite app_assoc.
Qed.

Lemma elem_of_dir_entries (dir name : string) (f : gmap string (list byte)) :
  name ∈ dir_entries dir f
  ↔ valid_name name ∧ is_Some (f !! entry_path dir name).
Proof.
  unfold dir_entries. rewrite list_elem_of_omap. split.
  - intros (path & Hin & [-> Hv]%entry_name_Some).
    split; [done|]. by apply elem_of_dom, elem_of_elements.
  - intros [Hv Hin]. exists (entry_path dir name). split.
    + by apply elem_of_elements, elem_of_dom.
    + by apply entry_name_Some.
Qed.

Lemma NoDup_omap_inj {A B} (f : A → option B) (l : list A) :
  (∀ x y z, f x = Some z → f y = Some z → x = y) →
  NoDup l → NoDup (omap f l).
Proof.
  intros Hinj. induction 1 as [|x l Hx Hl IH]; simpl; [constructor|].
  destruct (f x) as [z|] eqn:E; [|done].
  constructor; [|done].
  intros (y & Hy & Ey)%list_elem_of_omap.
  by rewrite (Hinj x y z E Ey) in Hx.
Qed.

Lemma NoDup_dir_entries (dir : string) (f : gmap string (list byte)) :
  NoDup (dir_entries dir f).
Proof.
  apply NoDup_omap_inj; [|apply NoDup_elements].
  intros x y z [-> _]%entry_name_Some [-> _]%entry_name_Some. done.
Qed.

Lemma entry_path_inj (dir : string) : Inj (=) (=) (entry_path dir).
Proof.
  intros a b E. unfold entry_path in E.
  by apply (inj _), (inj (String.app "/")) in E.
Qed.

(** *** What [scandir] returns *)
Section scandir.
Context (dir : string) (select : option string → Z)
        (f : gmap string (list byte)).

Lemma elem_of_scandir_names (name : string) :
  name ∈ scandir_names dir select alphasort f
  ↔ name ∈ dir_entries dir f ∧ select (Some name) ≠ 0.
Proof.
  unfold scandir_names. rewrite merge_sort_Permutation.
  rewrite list_elem_of_filter. tauto.
Qed.

Lemma NoDup_scandir_names : NoDup (scandir_names dir select alphasort f).
Proof.
  unfold scandir_names. rewrite merge_sort_Permutation.
  apply NoDup_filter, NoDup_dir_entries.
Qed.

Lemma scandir_names_sorted :
  StronglySorted String.le (scandir_names dir select alphasort f).
Proof. apply (StronglySorted_merge_sort _). Qed.

End scandir.

Lemma elem_of_log_files (directory prefix name : string)
    (f : gmap string (list byte)) :
  name ∈ log_files directory prefix f
  ↔ name ∈ dir_entries directory f ∧ log_name prefix name.
Proof.
  unfold log_files. rewrite elem_of_scandir_names.
  split; intros [Hin H]; (split; [done|]).
  - apply prefixFilter_log_name.
    + apply elem_of_dir_entries in Hin as [[_ ?] _]. lia.
    + by destruct (prefixFilter_bool (thePrefix_of prefix) (Some name)).
  - apply prefixFilter_log_name in H; [lia|].
    apply elem_of_dir_entries in Hin as [[_ ?] _]. lia.
Qed.

(** Two sorted lists of distinct names with the same members are equal. *)
Lemma sorted_names_unique (l1 l2 : list string) :
  StronglySorted String.le l1 → StronglySorted String.le l2 →
  NoDup l1 → NoDup l2 → (∀ x, x ∈ l1 ↔ x ∈ l2) → l1 = l2.
Proof.
  intros S1 S2 N1 N2 H.
  apply (StronglySorted_unique String.le); [done..|].
  by apply NoDup_Permutation.
Qed.

End SysFacts.

Module PurgeTheorems.
Import Filter Sys Logger FileSpec StringFacts FilterTheorems SysFacts.

Lemma amend_id (w : world) : amend (files w) [] w = w.
Proof. destruct w. unfold amend. simpl. by rewrite app_nil_r. Qed.

Lemma amend_amend (f f' : gmap string (list byte)) (evs evs' : list event)
    (w : world) :
  amend f' evs' (amend f evs w) = amend f' (evs ++ evs') w.
Proof. unfold amend. simpl. by rewrite (assoc_L (++)). Qed.

Lemma emit_amend (e : event) (w : world) :
  emit e w = amend (files w) [e] w.
Proof. done. Qed.

Lemma sys_unlink_ok (path : string) (w : world) :
  is_Some (files w !! path) → may_unlink w path = true →
  sys_unlink path w = (0, amend (delete path (files w)) [EvUnlink path 0] w).
Proof. intros [x Hx] Hm. unfold sys_unlink. by rewrite Hx, Hm. Qed.

Lemma elem_of_take_l {A} (x : A) (n : nat) (l : list A) :
  x ∈ take n l → x ∈ l.
Proof. intros H. rewrite <- (take_drop n l). apply elem_of_app. by left. Qed.

Lemma elem_of_drop_l {A} (x : A) (n : nat) (l : list A) :
  x ∈ drop n l → x ∈ l.
Proof. intros H. rewrite <- (take_drop n l). apply elem_of_app. by right. Qed.

Lemma purge_from_done (directory : string) (n keep : Z)
    (namelist : list string) (j : Z) (w : world) :
  n - keep ≤ j → purge_from directory n keep j namelist w = w.
Proof.
  revert j. induction namelist as [|name rest IH]; intros j Hj; [done|].
  simpl. destruct (Z.ltb_spec j (n - keep)); [lia|]. apply IH. lia.
Qed.

Lemma purge_from_unlinks (directory : string) (n keep : Z)
    (namelist : list string) (j : Z) (w : world) :
  NoDup namelist →
  (∀ name, name ∈ take (Z.to_nat (n - keep - j)) namelist →
           unlinkable w directory name
           ∧ is_Some (files w !! entry_path directory name)) →
  purge_from directory n keep j namelist w
  = amend (foldr delete (files w)
             (entry_path directory <$> take (Z.to_nat (n - keep - j)) namelist))
          ((λ name, EvUnlink (entry_path directory name) 0)
             <$> take (Z.to_nat (n - keep - j)) namelist)
          w.
Proof.
  revert j w. induction namelist as [|name rest IH]; intros j w Hnd Hok.
  - rewrite take_nil. simpl. by rewrite amend_id.
  - destruct (Z.le_gt_cases (n - keep) j) as [Hj|Hj].
    + rewrite purge_from_done by done.
      replace (Z.to_nat (n - keep - j)) with 0%nat by lia.
      simpl. by rewrite amend_id.
    + replace (Z.to_nat (n - keep - j))
        with (S (Z.to_nat (n - keep - (j + 1)))) in * by lia.
      set (d := Z.to_nat (n - keep - (j + 1))) in *.
      simpl take in *. simpl purge_from.
      destruct (Z.ltb_spec j (n - keep)); [|lia].
      destruct (Hok name) as [[Hfit Hperm] Hin]; [left|].
      fold (entry_path directory name).
      rewrite snprintf_fits by (unfold FULL_PATH_LEN in *; lia).
      rewrite (sys_unlink_ok _ _ Hin Hperm).
      change (0 <? 0) with false. cbv iota.
      apply NoDup_cons in Hnd as [Hname Hnd].
      rewrite IH; [|done|].
      * rewrite amend_amend. simpl. f_equal.
        by rewrite delete_foldr_delete.
      * intros name' Hin'. simpl.
        destruct (Hok name') as [[Hfit' Hperm'] Hsome]; [by right|].
        split; [done|].
        rewrite lookup_delete_ne; [done|].
        intros E%entry_path_inj. subst name'.
        by apply elem_of_take_l in Hin'.
Qed.

Lemma purgeOldFiles_amend (directory prefix : string) (keep : Z) (w : world) :
  may_scan w directory = true →
  (∀ name, name ∈ oldest directory prefix keep (files w) →
           unlinkable w directory name) →
  purgeOldFiles directory prefix keep w
  = amend (foldr delete (files w)
             (entry_path directory <$> oldest directory prefix keep (files w)))
          ([EvScandir directory (Some (log_files directory prefix (files w)))]
           ++ ((λ name, EvUnlink (entry_path directory name) 0)
                 <$> oldest directory prefix keep (files w)))
          w.
Proof.
  intros Hscan Hok. unfold purgeOldFiles, sys_scandir. rewrite Hscan.
  fold (log_files directory prefix (files w)).
  rewrite emit_amend.
  unfold oldest, excess in *.
  set (L := log_files directory prefix (files w)) in *.
  rewrite purge_from_unlinks.
  - rewrite Z.sub_0_r. by rewrite amend_amend.
  - apply NoDup_scandir_names.
  - rewrite Z.sub_0_r. intros name Hin. split.
    + destruct (Hok name Hin) as [Hfit Hperm]. by split.
    + apply elem_of_take_l in Hin.
      apply elem_of_log_files in Hin as [Hin _].
      by apply elem_of_dir_entries in Hin as [_ ?].
Qed.

Lemma log_files_after_delete (directory prefix : string) (k : nat)
    (f : gmap string (list byte)) :
  log_files directory prefix
    (foldr delete f
       (entry_path directory <$> take k (log_files directory prefix f)))
  = drop k (log_files directory prefix f).
Proof.
  set (L := log_files directory prefix f).
  assert (HL : NoDup (take k L ++ drop k L)).
  { rewrite take_drop. apply NoDup_scandir_names. }
  apply NoDup_app in HL as (_ & Hdisj & Hdrop).
  apply sorted_names_unique.
  - apply scandir_names_sorted.
  - apply (StronglySorted_app_1_r _ (take k L)). rewrite take_drop.
    apply scandir_names_sorted.
  - apply NoDup_scandir_names.
  - done.
  - intros name. rewrite elem_of_log_files, elem_of_dir_entries. split.
    + intros [[Hv [x Hx]] Hlog].
      apply lookup_foldr_delete_Some in Hx as [Hnot Hx].
      assert (Hin : name ∈ L).
      { apply elem_of_log_files. split; [|done].
        apply elem_of_dir_entries. eauto. }
      rewrite <- (take_drop k L) in Hin.
      apply elem_of_app in Hin as [Hin|Hin]; [|done].
      destruct Hnot. by apply list_elem_of_fmap_2.
    + intros Hin. pose proof (elem_of_drop_l _ _ _ Hin) as HinL.
      apply elem_of_log_files in HinL as [Hd Hlog].
      apply elem_of_dir_entries in Hd as [Hv [x Hx]].
      split; [|done]. split; [done|]. exists x.
      apply lookup_foldr_delete_Some. split; [|done].
      intros (name' & E%entry_path_inj & Hin')%list_elem_of_fmap.
      subst name'. by apply (Hdisj name).
Qed.


End PurgeTheorems.

Module WorldFacts.
Import CInt Options Filter Sys Logger FileSpec TraceSpec.

Lemma ticked_trans t ts t1 ts1 t2 ts2 :
  ticked t ts t1 ts1 → ticked t1 ts1 t2 ts2 → ticked t ts t2 ts2.
Proof. induction 1; [done|]. intros. constructor. auto. Qed.

Lemma ticked_tick t ts :
  ticked t ts (fst (tick t ts)) (snd (tick t ts)).
Proof. destruct ts as [|d ts]; simpl; [constructor|]. do 2 constructor. Qed.

Lemma ticked_monotone t ts t' ts' :
  ticked t ts t' ts' → Forall (λ d, 0 ≤ d) ts →
  Forall (λ d, 0 ≤ d) ts' ∧ t ≤ t'.
Proof.
  induction 1 as [|t d ts t' ts' _ IH]; intros Hts; [split; [done|lia]|].
  apply Forall_cons in Hts as [Hd Hts]. destruct (IH Hts). split; [done|lia].
Qed.

Lemma instants_head t ts : t ∈ instants t ts.
Proof. destruct ts; left. Qed.

Lemma ticked_instants t ts t' ts' x :
  ticked t ts t' ts' → x ∈ instants t' ts' → x ∈ instants t ts.
Proof.
  induction 1 as [|t d ts t' ts' _ IH]; [done|]. intros Hx.
  simpl. right. auto.
Qed.

Lemma later_refl (w : world) : later w w [].
Proof. split; try done; [by rewrite app_nil_r|constructor]. Qed.

Lemma later_trans (w w1 w2 : world) (e1 e2 : list event) :
  later w w1 e1 → later w1 w2 e2 → later w w2 (e1 ++ e2).
Proof.
  intros [] []. split; try congruence.
  - rewrite (assoc_L (++)). congruence.
  - rewrite foldl_app. congruence.
  - by eapply ticked_trans.
  - by etrans.
Qed.

Lemma later_emit (e : event) (w : world) :
  inert e → later w (emit e w) [e].
Proof. intros He. split; try done; [by destruct e|constructor]. Qed.

Lemma later_printf (ps : list printed) (w : world) :
  later w (printf ps w) (EvPrintf <$> ps).
Proof.
  revert w. induction ps as [|p ps IH]; intros w; [apply later_refl|].
  simpl. eapply (later_trans _ _ _ [_]); [by apply later_emit|apply IH].
Qed.

Lemma later_perrorf (m : string) (w : world) :
  later w (perrorf m w) [EvPerror (snprintf 240 m)].
Proof. by apply later_emit. Qed.

Lemma later_sys_time (w : world) :
  later w (snd (sys_time w)) [EvTime (fst (sys_time w))]
  ∧ now (snd (sys_time w)) = fst (sys_time w)
  ∧ fst (sys_time w) = fst (tick (now w) (ticks w))
  ∧ write_outcomes (snd (sys_time w)) = write_outcomes w
  ∧ files (snd (sys_time w)) = files w.
Proof.
  unfold sys_time. pose proof (ticked_tick (now w) (ticks w)) as Ht.
  destruct (tick (now w) (ticks w)) as [t ts]. simpl in *.
  repeat split; done.
Qed.

Lemma later_sys_close (fd : fdesc) (w : world) :
  later w (sys_close fd w) [EvClose fd].
Proof. by apply later_emit. Qed.

Lemma take_length_take {A} (n : nat) (l : list A) :
  take (Z.to_nat (Z.of_nat (length (take n l)))) l = take n l.
Proof.
  rewrite Nat2Z.id, length_take.
  destruct (Nat.le_gt_cases n (length l)).
  - by rewrite Nat.min_l.
  - rewrite Nat.min_r by lia. by rewrite !take_ge by lia.
Qed.

Lemma later_sys_write (fd : fdesc) (data : list byte) (w : world) :
  later w (snd (sys_write fd data w)) [EvWrite fd data (fst (sys_write fd data w))]
  ∧ (write_outcomes w = [] → fd ≠ FdBad →
     fst (sys_write fd data w) = Z.of_nat (length data)).
Proof.
  unfold sys_write.
  destruct (write_outcomes w) as [|o os] eqn:Ho.
  - destruct fd; simpl; (split; [|by rewrite ?firstn_all]);
      split; simpl; rewrite ?Ho; try done; try constructor.
    destruct (Z.leb_spec 0 (Z.of_nat (length (take (length data) data))));
      [|lia].
    by rewrite take_length_take.
  - split; [|done].
    destruct fd, o; simpl; split; simpl; rewrite ?Ho; try done;
      try constructor; try by apply suffix_cons_r.
    destruct (Z.leb_spec 0 (Z.of_nat (length (take n data)))); [|lia].
    by rewrite take_length_take.
Qed.

Lemma later_sys_unlink (path : string) (w : world) :
  later w (snd (sys_unlink path w)) [EvUnlink path (fst (sys_unlink path w))].
Proof.
  unfold sys_unlink. destruct (files w !! path); [destruct (may_unlink w path)|];
    simpl; split; simpl; try done; constructor.
Qed.

Lemma later_sys_creat (path : string) (w : world) :
  later w (snd (sys_creat path w)) [EvCreat path (fst (sys_creat path w))]
  ∧ fst (sys_creat path w) ≠ FdStdout
  ∧ (may_creat w path = true → fst (sys_creat path w) = FdLog path)
  ∧ (fst (sys_creat path w) = FdLog path ∨ fst (sys_creat path w) = FdBad).
Proof.
  unfold sys_creat. destruct (may_creat w path); simpl;
    (split; [split; simpl; try done; constructor|]); repeat split; auto; done.
Qed.

(** A purge does not read the clock and writes no data. *)
Lemma later_purge_from directory n keep namelist j w :
  ∃ evs, later w (purge_from directory n keep j namelist w) evs
         ∧ Forall purge_event evs
         ∧ now (purge_from directory n keep j namelist w) = now w
         ∧ ticks (purge_from directory n keep j namelist w) = ticks w
         ∧ write_outcomes (purge_from directory n keep j namelist w)
           = write_outcomes w.
Proof.
  revert j w. induction namelist as [|name rest IH]; intros j w; simpl.
  - exists []. split; [apply later_refl|]. by repeat split.
  - destruct (j <? n - keep); [|apply IH].
    set (path := snprintf FULL_PATH_LEN (directory +:+ "/" +:+ name)).
    pose proof (later_sys_unlink path w) as Hu.
    assert (Hf : now (snd (sys_unlink path w)) = now w
                 ∧ ticks (snd (sys_unlink path w)) = ticks w
                 ∧ write_outcomes (snd (sys_unlink path w)) = write_outcomes w).
    { unfold sys_unlink. destruct (files w !! path);
        [destruct (may_unlink w path)|]; done. }
    destruct (sys_unlink path w) as [status w1]. simpl in *.
    destruct Hf as (Hn & Ht & Ho).
    destruct (status <? 0).
    + destruct (IH (j + 1) (perrorf ("unlink (" +:+ path +:+ ")") w1))
        as (evs & Hl & Hq & Hn' & Ht' & Ho').
      eexists. split; [|split].
      * eapply later_trans; [apply Hu|].
        eapply later_trans; [apply later_perrorf|apply Hl].
      * repeat constructor. done.
      * simpl in *. rewrite Hn', Ht', Ho'. by rewrite Hn, Ht, Ho.
    + destruct (IH (j + 1) w1) as (evs & Hl & Hq & Hn' & Ht' & Ho').
      eexists. split; [|split].
      * eapply later_trans; [apply Hu|apply Hl].
      * by constructor.
      * rewrite Hn', Ht', Ho'. by rewrite Hn, Ht, Ho.
Qed.

Lemma later_purgeOldFiles directory prefix keep w :
  ∃ ret evs,
    later w (purgeOldFiles directory prefix keep w)
          (EvScandir directory ret :: evs)
    ∧ Forall purge_event evs
    ∧ now (purgeOldFiles directory prefix keep w) = now w
    ∧ ticks (purgeOldFiles directory prefix keep w) = ticks w
    ∧ write_outcomes (purgeOldFiles directory prefix keep w)
      = write_outcomes w.
Proof.
  unfold purgeOldFiles, sys_scandir. destruct (may_scan w directory).
  - set (L := scandir_names _ _ _ _).
    destruct (later_purge_from directory (Z.of_nat (length L)) keep L 0
                (emit (EvScandir directory (Some L)) w))
      as (evs & Hl & Hq & Hn & Ht & Ho).
    exists (Some L), evs. split; [|by repeat split].
    eapply (later_trans _ _ _ [_]); [by apply later_emit|apply Hl].
  - exists None, [EvPerror (snprintf 240 ("scandir (" +:+ directory +:+ ")"))].
    split; [|by repeat split; repeat constructor].
    eapply (later_trans _ _ _ [_] [_]);
      [by apply later_emit|apply later_perrorf].
Qed.

End WorldFacts.

Module StepFacts.
Import CInt Options Filter Sys Logger FileSpec TraceSpec WorldFacts.

Lemma sys_write_clock (fd : fdesc) (data : list byte) (w : world) :
  now (snd (sys_write fd data w)) = now w
  ∧ ticks (snd (sys_write fd data w)) = ticks w.
Proof.
  unfold sys_write. destruct (write_outcomes w) as [|[|n] os], fd; done.
Qed.

Lemma sys_creat_clock (path : string) (w : world) :
  now (snd (sys_creat path w)) = now w
  ∧ ticks (snd (sys_creat path w)) = ticks w
  ∧ write_outcomes (snd (sys_creat path w)) = write_outcomes w.
Proof. unfold sys_creat. by destruct (may_creat w path). Qed.

Lemma sys_time_clock (w : world) :
  now (snd (sys_time w)) = fst (tick (now w) (ticks w))
  ∧ ticks (snd (sys_time w)) = snd (tick (now w) (ticks w))
  ∧ fst (sys_time w) = fst (tick (now w) (ticks w)).
Proof. unfold sys_time. by destruct (tick (now w) (ticks w)). Qed.

Lemma suffix_nil_eq {A} (l : list A) : l `suffix_of` [] → l = [].
Proof. intros [k E]. symmetry in E. by apply app_eq_nil in E as [_ ?]. Qed.

Lemma later_outcomes_nil (w w' : world) (evs : list event) :
  later w w' evs → write_outcomes w = [] → write_outcomes w' = [].
Proof. intros [] H. apply suffix_nil_eq. congruence. Qed.

Lemma later_eq (w w' : world) (evs evs' : list event) :
  later w w' evs → evs = evs' → later w w' evs'.
Proof. by intros ? <-. Qed.

(** What [nextFile] does: the purge, the call of [time] for the name, the
    [creat], and [perror] when that failed. *)
Lemma nextFile_later (directory prefix : string) (keep : Z) (w : world) :
  ∃ ret q1 q2,
    later w (snd (nextFile directory prefix keep w))
      (EvScandir directory ret :: q1
       ++ [EvTime (fst (tick (now w) (ticks w)));
           EvCreat (name_at w directory prefix (fst (tick (now w) (ticks w))))
                   (fst (nextFile directory prefix keep w))]
       ++ q2)
    ∧ Forall purge_event q1
    ∧ (q2 = [] ∨ ∃ m, q2 = [EvPerror m])
    ∧ now (snd (nextFile directory prefix keep w))
      = fst (tick (now w) (ticks w))
    ∧ ticks (snd (nextFile directory prefix keep w))
      = snd (tick (now w) (ticks w))
    ∧ write_outcomes (snd (nextFile directory prefix keep w))
      = write_outcomes w
    ∧ fst (nextFile directory prefix keep w) ≠ FdStdout
    ∧ (may_creat w (name_at w directory prefix (fst (tick (now w) (ticks w))))
       = true →
       fst (nextFile directory prefix keep w)
       = FdLog (name_at w directory prefix (fst (tick (now w) (ticks w)))))
    ∧ later w (purgeOldFiles directory prefix keep w)
        (EvScandir directory ret :: q1)
    ∧ (fst (nextFile directory prefix keep w)
       = FdLog (name_at w directory prefix (fst (tick (now w) (ticks w))))
       ∨ fst (nextFile directory prefix keep w) = FdBad).
Proof.
  unfold nextFile.
  destruct (later_purgeOldFiles directory prefix keep w)
    as (ret & q1 & Hp & Hq1 & Hn1 & Ht1 & Ho1).
  set (w1 := purgeOldFiles directory prefix keep w) in *.
  destruct (later_sys_time w1) as (Hl2 & _ & _ & Ho2 & _).
  destruct (sys_time_clock w1) as (Hn2 & Ht2 & Hr2).
  destruct (sys_time w1) as [tn w2]. simpl in *.
  rewrite Hn1, Ht1 in *. subst tn.
  set (tn := fst (tick (now w) (ticks w))) in *.
  assert (Himg : time_image w2 = time_image w).
  { rewrite (later_image _ _ _ Hl2). apply (later_image _ _ _ Hp). }
  rewrite Himg. fold (name_at w directory prefix tn).
  set (name := name_at w directory prefix tn).
  destruct (later_sys_creat name w2) as (Hl3 & Hne & Hok & Hcases).
  destruct (sys_creat_clock name w2) as (Hn3 & Ht3 & Ho3).
  assert (Hc : may_creat w2 = may_creat w).
  { rewrite (later_creat _ _ _ Hl2). apply (later_creat _ _ _ Hp). }
  destruct (sys_creat name w2) as [fd' w3]. simpl in *.
  exists ret, q1.
  destruct Hcases as [->| ->].
  - exists [].
    split.
    { eapply later_eq.
      - eapply later_trans; [apply Hp|].
        eapply later_trans; [apply Hl2|apply Hl3].
      - done. }
    repeat split; simpl; try congruence; try done; try apply Hp;
      by left.
  - eexists [_].
    split.
    { eapply later_eq.
      - eapply later_trans; [apply Hp|].
        eapply later_trans; [apply Hl2|].
        eapply later_trans; [apply Hl3|apply later_perrorf].
      - done. }
    repeat split; simpl; try congruence; try done; try apply Hp.
    + right. by eexists.
    + intros H. rewrite <- Hc in H. by apply Hok in H.
    + by right.
Qed.

Lemma rotate_later (c : config) (st : loop_state) (w : world) :
  ∃ rn ret q1 q2,
    let tn := fst (tick (now w) (ticks w)) in
    let tl := fst (tick tn (snd (tick (now w) (ticks w)))) in
    let fd' := fd (fst (rotate c st w)) in
    later w (snd (rotate c st w))
      (rotation_events c st w rn ret q1 q2 tn fd' tl)
    ∧ (write_outcomes w = [] → fd st ≠ FdBad → rn = 1)
    ∧ Forall purge_event q1
    ∧ (q2 = [] ∨ ∃ m, q2 = [EvPerror m])
    ∧ fst (rotate c st w)
      = {| fd := fd'; lastTime := tl; total := 0;
           last_char := last_char st |}
    ∧ now (snd (rotate c st w)) = tl
    ∧ ticks (snd (rotate c st w))
      = snd (tick tn (snd (tick (now w) (ticks w))))
    ∧ fd' ≠ FdStdout
    ∧ (may_creat w (name_at w (directory c) (prefix c) tn) = true →
       fd' = FdLog (name_at w (directory c) (prefix c) tn))
    ∧ (fd' = FdLog (name_at w (directory c) (prefix c) tn) ∨ fd' = FdBad)
    ∧ ∃ w2,
        later w w2
          ((if Byte.eqb (last_char st) newline then []
            else [EvWrite (fd st) [newline] rn]) ++ [EvClose (fd st)])
        ∧ later w2
            (purgeOldFiles (directory c) (prefix c)
               (numberToKeep (limits c)) w2)
            (EvScandir (directory c) ret :: q1).
Proof.
  unfold rotate, rotation_events.
  set (w1 := if Byte.eqb (last_char st) newline then w
             else snd (sys_write (fd st) [newline] w)).
  assert (H1 : later w w1
                 (if Byte.eqb (last_char st) newline then []
                  else [EvWrite (fd st) [newline]
                          (fst (sys_write (fd st) [newline] w))])
               ∧ now w1 = now w ∧ ticks w1 = ticks w).
  { unfold w1. destruct (Byte.eqb (last_char st) newline).
    - split; [apply later_refl|done].
    - split; [apply later_sys_write|apply sys_write_clock]. }
  destruct H1 as (Hl1 & Hn1 & Ht1).
  pose proof (later_sys_close (fd st) w1) as Hl2.
  set (w2 := sys_close (fd st) w1) in *.
  destruct (nextFile_later (directory c) (prefix c)
              (numberToKeep (limits c)) w2)
    as (ret & q1 & q2 & Hl3 & Hq1 & Hq2 & Hn3 & Ht3 & Ho3 & Hne & Hok & Hpg
        & Hcases).
  assert (Hn2 : now w2 = now w) by done.
  assert (Ht2 : ticks w2 = ticks w) by done.
  rewrite Hn2, Ht2 in *.
  assert (Himg : name_at w2 (directory c) (prefix c)
                 = name_at w (directory c) (prefix c)).
  { unfold name_at.
    by rewrite (later_image _ _ _ Hl2), (later_image _ _ _ Hl1). }
  rewrite Himg in *.
  assert (Hc : may_creat w2 = may_creat w).
  { by rewrite (later_creat _ _ _ Hl2), (later_creat _ _ _ Hl1). }
  rewrite Hc in *.
  destruct (nextFile (directory c) (prefix c) (numberToKeep (limits c)) w2)
    as [fd' w3]. simpl in *.
  destruct (later_sys_time w3) as (Hl4 & _).
  destruct (sys_time_clock w3) as (Hn4 & Ht4 & Hr4).
  destruct (sys_time w3) as [tl w4]. simpl in *.
  rewrite Hn3, Ht3 in *. subst tl.
  exists (fst (sys_write (fd st) [newline] w)), ret, q1, q2.
  split.
  { eapply later_eq.
    - eapply later_trans; [apply Hl1|].
      eapply later_trans; [apply Hl2|].
      eapply later_trans; [apply Hl3|apply Hl4].
    - simpl. rewrite <- !(assoc_L (++)). simpl. done. }
  split.
  { intros Ho Hfd. by apply (later_sys_write (fd st) [newline] w). }
  repeat split; simpl; try done.
  exists w2. split; [|done]. by eapply later_trans.
Qed.

(** What a turn of the loop does before the test for a rotation. *)
Lemma copy_chunk_tee (c : config) (buffer : list byte) (st : loop_state)
    (w : world) :
  ∃ r1 r2 mm w4,
    let t := fst (tick (now w) (ticks w)) in
    let st1 :=
      {| fd := fd st; lastTime := lastTime st;
         total := to_size_t (total st + r2);
         last_char :=
           if 0 <? Z.of_nat (length buffer)
           then default (last_char st) (last buffer)
           else last_char st |} in
    copy_chunk c buffer st w
    = (if rotation_due c (t - lastTime st) (total st1)
       then rotate c st1 w4 else (st1, w4))
    ∧ later w w4
        ([EvWrite FdStdout buffer r1; EvWrite (fd st) buffer r2]
         ++ mm ++ [EvTime t])
    ∧ (mm = [] ∨ mm = [EvMismatch r1 r2])
    ∧ now w4 = t
    ∧ ticks w4 = snd (tick (now w) (ticks w))
    ∧ (write_outcomes w = [] → fd st ≠ FdBad →
       r2 = Z.of_nat (length buffer)).
Proof.
  unfold copy_chunk.
  destruct (later_sys_write FdStdout buffer w) as [Hl1 _].
  destruct (sys_write_clock FdStdout buffer w) as [Hn1 Ht1].
  destruct (sys_write FdStdout buffer w) as [m1 w1]. simpl in *.
  destruct (later_sys_write (fd st) buffer w1) as [Hl2 Hr2].
  destruct (sys_write_clock (fd st) buffer w1) as [Hn2 Ht2].
  destruct (sys_write (fd st) buffer w1) as [m2 w2]. simpl in *.
  set (w3 := if m1 =? m2 then w2 else emit (EvMismatch m1 m2) w2).
  assert (H3 : ∃ mm, later w2 w3 mm ∧ (mm = [] ∨ mm = [EvMismatch m1 m2])
                     ∧ now w3 = now w2 ∧ ticks w3 = ticks w2).
  { unfold w3. destruct (m1 =? m2).
    - exists []. split; [apply later_refl|]. split; [by left|done].
    - eexists. split; [by apply later_emit|]. split; [by right|done]. }
  destruct H3 as (mm & Hl3 & Hmm & Hn3 & Ht3).
  destruct (later_sys_time w3) as (Hl4 & _).
  destruct (sys_time_clock w3) as (Hn4 & Ht4 & Hr4).
  destruct (sys_time w3) as [t w4]. simpl in *.
  rewrite Hn3, Hn2, Hn1, Ht3, Ht2, Ht1 in *. subst t.
  exists m1, m2, mm, w4.
  split; [done|]. split.
  { eapply later_eq.
    - eapply later_trans; [apply Hl1|].
      eapply later_trans; [apply Hl2|].
      eapply later_trans; [apply Hl3|apply Hl4].
    - done. }
  repeat split; try done.
  intros Ho Hfd. apply Hr2; [|done].
  by apply (later_outcomes_nil _ _ _ Hl1).
Qed.

End StepFacts.

Module TraceFacts.
Import CInt Options Filter Sys Logger FileSpec TraceSpec WorldFacts StepFacts.

Lemma purge_event_quiet (e : event) : purge_event e → quiet e.
Proof. by destruct e. Qed.

Lemma perror_tail_quiet (q2 : list event) :
  (q2 = [] ∨ ∃ m, q2 = [EvPerror m]) → Forall quiet q2.
Proof. intros [->|[m ->]]; by repeat constructor. Qed.

Lemma mismatch_quiet (mm : list event) (r1 r2 : Z) :
  (mm = [] ∨ mm = [EvMismatch r1 r2]) → Forall quiet mm.
Proof. intros [->| ->]; by repeat constructor. Qed.

Lemma foldl_record_quiet (evs : list event)
    (acc : list (fdesc * list write_call)) :
  Forall quiet evs → foldl record acc evs = acc.
Proof.
  intros H. revert acc. induction H as [|e evs He _ IH]; intros acc; [done|].
  simpl. rewrite <- (IH acc) at 2. f_equal. by destruct e.
Qed.

Lemma stdout_data_cons (e : event) (evs : list event) :
  stdout_data (e :: evs)
  = match e with
    | EvWrite FdStdout data _ => data :: stdout_data evs
    | _ => stdout_data evs
    end.
Proof. by destruct e as [| | |[]| | | | | | |]. Qed.

Lemma stdout_data_quiet (evs : list event) :
  Forall quiet evs → stdout_data evs = [].
Proof.
  induction 1 as [|e evs He _ IH]; [done|].
  rewrite stdout_data_cons, IH. by destruct e.
Qed.

Lemma stdout_data_app (e1 e2 : list event) :
  stdout_data (e1 ++ e2) = stdout_data e1 ++ stdout_data e2.
Proof. apply omap_app. Qed.

Lemma foldl_record_tee (fd0 : fdesc) (b : list byte) (r1 r2 t : Z)
    (mm : list event) (calls : list write_call)
    (closed : list (fdesc * list write_call)) :
  fd0 ≠ FdStdout → Forall quiet mm →
  foldl record ((fd0, calls) :: closed)
    ([EvWrite FdStdout b r1; EvWrite fd0 b r2] ++ mm ++ [EvTime t])
  = (fd0, calls ++ [(b, r2)]) :: closed.
Proof.
  intros Hfd Hmm. simpl.
  destruct (decide (FdStdout = fd0)) as [E|_]; [by subst|].
  rewrite decide_True by done.
  apply foldl_record_quiet, Forall_app. by repeat constructor.
Qed.

Lemma stdout_data_tee (fd0 : fdesc) (b : list byte) (r1 r2 t : Z)
    (mm : list event) :
  fd0 ≠ FdStdout → Forall quiet mm →
  stdout_data ([EvWrite FdStdout b r1; EvWrite fd0 b r2] ++ mm ++ [EvTime t])
  = [b].
Proof.
  intros Hfd Hmm.
  change ([EvWrite FdStdout b r1; EvWrite fd0 b r2] ++ mm ++ [EvTime t])
    with ([EvWrite FdStdout b r1] ++ [EvWrite fd0 b r2] ++ mm ++ [EvTime t]).
  rewrite !stdout_data_app, (stdout_data_quiet mm) by done.
  rewrite !stdout_data_cons. by destruct fd0.
Qed.

Lemma foldl_record_rotation c st w rn ret q1 q2 tn fd' tl calls closed :
  Forall purge_event q1 → Forall quiet q2 →
  foldl record ((fd st, calls) :: closed)
    (rotation_events c st w rn ret q1 q2 tn fd' tl)
  = (fd', []) :: (fd st, calls ++ seal_calls (last_char st) rn) :: closed.
Proof.
  intros Hq1 Hq2. unfold rotation_events, seal_calls.
  rewrite foldl_app.
  assert (foldl record ((fd st, calls) :: closed)
            (if Byte.eqb (last_char st) newline then []
             else [EvWrite (fd st) [newline] rn])
          = (fd st, calls ++ (if Byte.eqb (last_char st) newline then []
                              else [([newline], rn)])) :: closed) as ->.
  { destruct (Byte.eqb (last_char st) newline); simpl.
    - by rewrite app_nil_r.
    - by rewrite decide_True. }
  simpl. rewrite foldl_app, (foldl_record_quiet q1)
    by (eapply Forall_impl; [done|apply purge_event_quiet]).
  simpl. apply foldl_record_quiet, Forall_app. by repeat constructor.
Qed.

Lemma stdout_data_rotation c st w rn ret q1 q2 tn fd' tl :
  fd st ≠ FdStdout → Forall purge_event q1 → Forall quiet q2 →
  stdout_data (rotation_events c st w rn ret q1 q2 tn fd' tl) = [].
Proof.
  intros Hfd Hq1 Hq2. unfold rotation_events.
  rewrite !stdout_data_app.
  rewrite (stdout_data_quiet (_ :: q1))
    by (constructor; [done|eapply Forall_impl; [done|apply purge_event_quiet]]).
  rewrite (stdout_data_quiet q2) by done.
  destruct (Byte.eqb (last_char st) newline); rewrite !stdout_data_cons;
    [done|by destruct (fd st)].
Qed.

Lemma tick_in_instants (t : Z) (ts : list Z) :
  fst (tick t ts) ∈ instants t ts.
Proof.
  destruct ts as [|d ts]; simpl; [left|]. right. apply instants_head.
Qed.

Lemma tick_monotone (t : Z) (ts : list Z) :
  Forall (λ d, 0 ≤ d) ts →
  t ≤ fst (tick t ts) ∧ Forall (λ d, 0 ≤ d) (snd (tick t ts)).
Proof.
  destruct ts as [|d ts]; simpl; [split; [lia|done]|].
  intros [? ?]%Forall_cons. split; [lia|done].
Qed.

Lemma rotation_due_age (c : config) (age total : Z) :
  1 ≤ ageLimit (limits c) → rotation_due c age total = true → 1 ≤ age.
Proof.
  unfold rotation_due. intros Hlim.
  destruct (Z.leb_spec (ageLimit (limits c)) age); [lia|]. simpl.
  destruct (Z.leb_spec 1 age); [done|]. by rewrite andb_false_r.
Qed.

Lemma coherent_app (e1 e2 : list event)
    (acc : list (fdesc * list write_call)) :
  coherent acc (e1 ++ e2)
  ↔ coherent acc e1 ∧ coherent (foldl record acc e1) e2.
Proof.
  revert acc. induction e1 as [|e e1 IH]; intros acc; simpl; [tauto|].
  rewrite IH. tauto.
Qed.

Lemma coherent_quiet (evs : list event)
    (acc : list (fdesc * list write_call)) :
  Forall quiet evs → coherent acc evs.
Proof.
  intros H. revert acc. induction H as [|e evs He _ IH]; intros acc; [done|].
  simpl. split; [by destruct e|]. replace (record acc e) with acc; [done|].
  by destruct e.
Qed.

Lemma coherent_tee (fd0 : fdesc) (b : list byte) (r1 r2 t : Z)
    (mm : list event) (calls : list write_call)
    (closed : list (fdesc * list write_call)) :
  fd0 ≠ FdStdout → Forall quiet mm →
  coherent ((fd0, calls) :: closed)
    ([EvWrite FdStdout b r1; EvWrite fd0 b r2] ++ mm ++ [EvTime t]).
Proof.
  intros Hfd Hmm. simpl.
  destruct (decide (FdStdout = fd0)) as [E|_]; [by subst|].
  split; [done|]. split; [destruct fd0; by eauto|].
  apply coherent_quiet, Forall_app. by repeat constructor.
Qed.

Lemma coherent_rotation c st w rn ret q1 q2 tn fd' tl calls closed :
  Forall purge_event q1 → Forall quiet q2 →
  (fd' = FdLog (name_at w (directory c) (prefix c) tn) ∨ fd' = FdBad) →
  coherent ((fd st, calls) :: closed)
    (rotation_events c st w rn ret q1 q2 tn fd' tl).
Proof.
  intros Hq1 Hq2 Hcases. unfold rotation_events.
  apply coherent_app. split.
  { destruct (Byte.eqb (last_char st) newline); simpl; [done|].
    split; [destruct (fd st); by eauto|done]. }
  set (acc := foldl record _ _).
  change ([EvClose (fd st)] ++ (EvScandir (directory c) ret :: q1) ++
          [EvTime tn; EvCreat (name_at w (directory c) (prefix c) tn) fd']
          ++ q2 ++ [EvTime tl])
    with ((EvClose (fd st) :: EvScandir (directory c) ret :: q1) ++
          [EvTime tn; EvCreat (name_at w (directory c) (prefix c) tn) fd']
          ++ q2 ++ [EvTime tl]).
  apply coherent_app. split.
  { apply coherent_quiet. do 2 (constructor; [done|]).
    eapply Forall_impl; [done|apply purge_event_quiet]. }
  simpl. split; [done|]. split; [done|].
  apply coherent_quiet, Forall_app. by repeat constructor.
Qed.

End TraceFacts.

Module LoopFacts.
Import CInt Options Filter Sys Logger FileSpec TraceSpec.
Import WorldFacts StepFacts TraceFacts.

Lemma push_chunk_chunks b rs open :
  layout_chunks (push_chunk b rs open).1 (push_chunk b rs open).2
  = b :: layout_chunks rs open.
Proof. destruct rs as [|[pre x] rs]; done. Qed.

Lemma push_chunk_written b rs open h tl :
  layout_written rs open = h :: tl →
  layout_written (push_chunk b rs open).1 (push_chunk b rs open).2
  = (b :: h) :: tl.
Proof.
  destruct rs as [|[pre x] rs]; unfold layout_written; simpl.
  - by intros [= <- <-].
  - by intros [= <- <-].
Qed.

Lemma name_at_later w w' evs directory prefix :
  later w w' evs → name_at w' directory prefix = name_at w directory prefix.
Proof. intros H. unfold name_at. by rewrite (later_image _ _ _ H). Qed.

Lemma may_creat_later w w' evs :
  later w w' evs → (∀ p, may_creat w p = true) → ∀ p, may_creat w' p = true.
Proof. intros H Hc p. by rewrite (later_creat _ _ _ H). Qed.

(** The loop at its end. *)
Lemma loop_layout_end c st w w' evs :
  later w w' evs → Forall quiet evs → loop_layout c st w w' [].
Proof.
  intros Hl Hq. exists evs, [], [], [], [].
  split; [done|]. split; [by apply stdout_data_quiet|]. split; [done|].
  split.
  { intros calls closed. rewrite foldl_record_quiet by done.
    by rewrite app_nil_r. }
  split; [done|]. split; [by intros; apply coherent_quiet|].
  split; [by intros; split; constructor|].
  intros _ _ _. exists []. repeat split; constructor.
Qed.

(** A call that is neither a [write] nor a [creat] and leaves the clock
    and the write outcomes alone, before the rest of the loop. *)
Lemma loop_layout_quiet c st w w0 w' e chunks :
  later w w0 [e] → quiet e →
  now w0 = now w → ticks w0 = ticks w →
  write_outcomes w0 = write_outcomes w →
  loop_layout c st w0 w' chunks → loop_layout c st w w' chunks.
Proof.
  intros Hl Hq Hn Ht Ho (evs & rs & open & c1 & rest & H1 & H2 & H3 & H4 & H5 & Hco & H6 & H7).
  exists (e :: evs), rs, open, c1, rest.
  split; [by apply (later_trans _ _ _ [e] evs Hl)|].
  split; [rewrite stdout_data_cons; by destruct e|].
  split; [done|]. split.
  { intros calls closed. simpl. rewrite <- H4. f_equal. by destruct e. }
  split; [done|]. split.
  { intros calls closed. simpl. split; [by destruct e|].
    replace (record ((fd st, calls) :: closed) e)
      with ((fd st, calls) :: closed) by by destruct e.
    apply Hco. }
  split.
  { intros Hw Hc Hfd. apply H6; [congruence|by eapply may_creat_later|done]. }
  intros Hc Hts Hage.
  destruct H7 as (times & E & Hs & Hf);
    [by eapply may_creat_later|congruence|done|].
  exists times. rewrite (name_at_later _ _ _ _ _ Hl) in E.
  rewrite Hn, Ht in Hf. done.
Qed.

(** A chunk that does not make a rotation due, before the rest. *)
Lemma loop_layout_chunk c st st1 w w4 w' b r1 r2 mm t chunks :
  fd st ≠ FdStdout →
  later w w4 ([EvWrite FdStdout b r1; EvWrite (fd st) b r2] ++ mm ++ [EvTime t]) →
  (mm = [] ∨ mm = [EvMismatch r1 r2]) →
  (write_outcomes w = [] → fd st ≠ FdBad → r2 = Z.of_nat (length b)) →
  fd st1 = fd st → lastTime st1 = lastTime st →
  loop_layout c st1 w4 w' chunks →
  loop_layout c st w w' (b :: chunks).
Proof.
  intros Hfd Hl Hmm Hr2 Efd Elt
    (evs & rs & open & c1 & rest & H1 & H2 & H3 & H4 & H5 & Hco & H6 & H7).
  apply (mismatch_quiet mm r1 r2) in Hmm.
  exists (([EvWrite FdStdout b r1; EvWrite (fd st) b r2] ++ mm ++ [EvTime t]) ++ evs),
    (push_chunk b rs open).1, (push_chunk b rs open).2,
    ((b, r2) :: c1), rest.
  split; [by eapply later_trans|].
  split; [by rewrite stdout_data_app, stdout_data_tee, H2|].
  split; [by rewrite push_chunk_chunks, H3|].
  split.
  { intros calls closed.
    rewrite foldl_app, foldl_record_tee by done.
    rewrite <- Efd, H4, Efd. by rewrite <- (assoc_L (++)). }
  split; [symmetry; by apply push_chunk_written|].
  split.
  { intros calls closed. apply coherent_app.
    split; [by apply coherent_tee|].
    rewrite foldl_record_tee by done. rewrite <- Efd. apply Hco. }
  split.
  { intros Hw Hc Hbad.
    destruct H6 as [Hc1 Hrest];
      [by eapply later_outcomes_nil|by eapply may_creat_later|congruence|].
    split; [|done]. constructor; [|done]. by apply Hr2. }
  intros Hc Hts Hage.
  destruct (ticked_monotone _ _ _ _ (later_clock _ _ _ Hl) Hts) as [Hts4 _].
  destruct H7 as (times & E & Hs & Hf); [by eapply may_creat_later|done..|].
  exists times. rewrite (name_at_later _ _ _ _ _ Hl) in E.
  split; [done|]. split; [done|].
  eapply Forall_impl; [done|]. intros x [? ?]. split; [lia|].
  by eapply ticked_instants; [apply (later_clock _ _ _ Hl)|].
Qed.

(** A chunk that makes a rotation due, the rotation, and the rest. *)
Lemma loop_layout_rotation c st st1 w w4 w' b r1 r2 mm tot chunks :
  fd st ≠ FdStdout →
  later w w4
    ([EvWrite FdStdout b r1; EvWrite (fd st) b r2] ++ mm
     ++ [EvTime (now w4)]) →
  (mm = [] ∨ mm = [EvMismatch r1 r2]) →
  (write_outcomes w = [] → fd st ≠ FdBad → r2 = Z.of_nat (length b)) →
  fd st1 = fd st → lastTime st1 = lastTime st →
  Byte.eqb (last_char st1) newline = ends_with_newline b →
  rotation_due c (now w4 - lastTime st) tot = true →
  loop_layout c (rotate c st1 w4).1 (rotate c st1 w4).2 w' chunks →
  loop_layout c st w w' (b :: chunks).
Proof.
  intros Hfd Hl Hmm Hr2 Efd Elt Elc Hdue
    (evs & rs & open & c1 & rest & H1 & H2 & H3 & H4 & H5 & Hco & H6 & H7).
  apply (mismatch_quiet mm r1 r2) in Hmm.
  destruct (rotate_later c st1 w4)
    as (rn & ret & q1 & q2 & Hrot & Hrn & Hq1 & Hq2 & Est & Hnow & Hticks
        & Hfd' & Hok & Hcases & _).
  apply perror_tail_quiet in Hq2.
  set (tn := (tick (now w4) (ticks w4)).1) in *.
  set (tl := (tick tn (tick (now w4) (ticks w4)).2).1) in *.
  set (st2 := (rotate c st1 w4).1) in *.
  set (w5 := (rotate c st1 w4).2) in *.
  set (tee := [EvWrite FdStdout b r1; EvWrite (fd st) b r2] ++ mm
              ++ [EvTime (now w4)]) in *.
  set (rot := rotation_events c st1 w4 rn ret q1 q2 tn (fd st2) tl) in *.
  assert (Hl5 : later w w5 (tee ++ rot)) by by eapply later_trans.
  exists ((tee ++ rot) ++ evs), (([], b) :: rs), open,
    ((b, r2) :: seal_calls (last_char st1) rn), ((fd st2, c1) :: rest).
  split; [by eapply later_trans|].
  split.
  { rewrite !stdout_data_app. unfold tee, rot.
    rewrite stdout_data_tee by done.
    rewrite stdout_data_rotation by (done || congruence).
    by rewrite H2. }
  split; [by rewrite <- H3|].
  split.
  { intros calls closed. rewrite !foldl_app. unfold tee, rot.
    rewrite foldl_record_tee by done.
    rewrite <- Efd, foldl_record_rotation by done.
    rewrite H4. rewrite !reverse_cons, <- !(assoc_L (++)). done. }
  split.
  { unfold layout_written in *. rewrite !fmap_cons, <- app_comm_cons.
    rewrite <- H5. f_equal. cbn [snd fst]. f_equal.
    unfold run_written, run_chunks, seal_calls. cbn [snd fst].
    rewrite Elc. by destruct (ends_with_newline b). }
  split.
  { intros calls closed. rewrite !coherent_app. unfold tee, rot.
    split; [split; [by apply coherent_tee|]|].
    - rewrite foldl_record_tee by done. rewrite <- Efd.
      by apply coherent_rotation.
    - rewrite foldl_app, foldl_record_tee by done.
      rewrite <- Efd, foldl_record_rotation by done. apply Hco. }
  split.
  { intros Hw Hc Hbad.
    assert (Hw4 : write_outcomes w4 = []) by by eapply later_outcomes_nil.
    destruct H6 as [Hc1 Hrest].
    - by eapply later_outcomes_nil.
    - by eapply may_creat_later.
    - rewrite Hok; [done|]. by eapply may_creat_later.
    - split.
      + constructor; [by apply Hr2|].
        unfold seal_calls. destruct (Byte.eqb _ _); [constructor|].
        constructor; [|constructor]. unfold complete. simpl.
        apply Hrn; [done|congruence].
      + by constructor. }
  intros Hc Hts Hage.
  destruct (ticked_monotone _ _ _ _ (later_clock _ _ _ Hl) Hts) as [Hts4 _].
  destruct (tick_monotone (now w4) (ticks w4) Hts4) as [Htn Hts4'].
  destruct (tick_monotone tn _ Hts4') as [Htl Hts5].
  fold tn tl in Htn, Htl.
  pose proof (rotation_due_age c _ _ Hage Hdue) as Hage1.
  destruct H7 as (times & E & Hs & Hf).
  { by eapply may_creat_later. }
  { by rewrite Hticks. }
  { done. }
  exists (tn :: times).
  split.
  { rewrite !fmap_cons. cbn [fst]. f_equal.
    - rewrite Hok by by eapply may_creat_later.
      by rewrite (name_at_later _ _ _ _ _ Hl).
    - by rewrite E, (name_at_later _ _ _ _ _ Hl5). }
  assert (Hlt : lastTime st2 = tl) by by rewrite Est.
  split.
  { constructor; [done|]. eapply Forall_impl; [done|].
    intros x [? _]. lia. }
  constructor.
  { split; [lia|].
    eapply ticked_instants; [apply (later_clock _ _ _ Hl)|].
    apply tick_in_instants. }
  eapply Forall_impl; [done|]. intros x [? ?]. split; [lia|].
  by eapply ticked_instants; [apply (later_clock _ _ _ Hl5)|].
Qed.

(** The copy loop, whatever the input and the world. *)
Lemma copy_loop_layout (c : config) (reads : list read_result) :
  ∀ (st : loop_state) (w : world),
    fd st ≠ FdStdout →
    loop_layout c st w (copy_loop c reads st w).2 (delivered reads).
Proof.
  induction reads as [|r reads IH]; intros st w Hfd.
  - simpl. eapply loop_layout_end; [by apply later_emit|by repeat constructor].
  - destruct r as [buffer| |].
    + simpl. destruct (take BUFFER_SIZE buffer) as [|x xs] eqn:Eb.
      * eapply loop_layout_end; [by apply later_emit|by repeat constructor].
      * set (b := x :: xs) in *.
        set (w0 := emit (EvRead (ReadBytes buffer)) w).
        apply (loop_layout_quiet c st w w0 _ (EvRead (ReadBytes buffer)));
          [by apply later_emit|done..|].
        destruct (copy_chunk_tee c b st w0)
          as (r1 & r2 & mm & w4 & Ecc & Hl & Hmm & Hn4 & Ht4 & Hr2).
        rewrite Ecc.
        set (st1 := {| fd := fd st; lastTime := lastTime st;
                       total := to_size_t (total st + r2);
                       last_char :=
                         if 0 <? Z.of_nat (length b)
                         then default (last_char st) (last b)
                         else last_char st |}) in *.
        rewrite <- Hn4 in *.
        destruct (rotation_due c (now w4 - lastTime st) (total st1)) eqn:Hdue.
        -- destruct (rotate c st1 w4) as [st2 w5] eqn:Er.
           apply (loop_layout_rotation c st st1 w0 w4 _ b r1 r2 mm
                    (total st1)); try done.
           ++ unfold st1, ends_with_newline, b. simpl.
              by destruct (last (x :: xs)) eqn:El;
                [|apply last_None in El].
           ++ rewrite Er. simpl. apply IH.
              destruct (rotate_later c st1 w4) as (? & ? & ? & ? & H).
              rewrite Er in H. apply H.
        -- apply (loop_layout_chunk c st st1 w0 w4 _ b r1 r2 mm (now w4));
             try done.
           by apply IH.
    + simpl.
      apply (loop_layout_quiet c st w (emit (EvRead ReadEINTR) w) _
               (EvRead ReadEINTR)); [by apply later_emit|done..|].
      by apply IH.
    + simpl. eapply loop_layout_end; [by apply later_emit|by repeat constructor].
Qed.

(** *** The loop turn by turn *)

(** A turn of the loop up to the test for a rotation, with the exact
    calls. *)
Lemma copy_chunk_turn (c : config) (buffer : list byte) (st : loop_state)
    (w : world) :
  ∃ m1 m2 w4,
    let t := fst (tick (now w) (ticks w)) in
    copy_chunk c buffer st w
    = (if rotation_due c (t - lastTime st)
            (total (after_chunk buffer m2 st))
       then rotate c (after_chunk buffer m2 st) w4
       else (after_chunk buffer m2 st, w4))
    ∧ later w w4 (tee_events (fd st) buffer m1 m2 t)
    ∧ (write_outcomes w = [] →
       m1 = Z.of_nat (length buffer)
       ∧ (fd st ≠ FdBad → m2 = Z.of_nat (length buffer))).
Proof.
  unfold copy_chunk.
  destruct (later_sys_write FdStdout buffer w) as [Hl1 Hr1].
  destruct (sys_write_clock FdStdout buffer w) as [Hn1 Ht1].
  destruct (sys_write FdStdout buffer w) as [m1 w1]. simpl in *.
  destruct (later_sys_write (fd st) buffer w1) as [Hl2 Hr2].
  destruct (sys_write_clock (fd st) buffer w1) as [Hn2 Ht2].
  destruct (sys_write (fd st) buffer w1) as [m2 w2]. simpl in *.
  set (w3 := if m1 =? m2 then w2 else emit (EvMismatch m1 m2) w2).
  assert (H3 : later w2 w3 (if m1 =? m2 then [] else [EvMismatch m1 m2])
               ∧ now w3 = now w2 ∧ ticks w3 = ticks w2).
  { unfold w3. destruct (m1 =? m2).
    - split; [apply later_refl|done].
    - split; [by apply later_emit|done]. }
  destruct H3 as (Hl3 & Hn3 & Ht3).
  destruct (later_sys_time w3) as (Hl4 & _).
  destruct (sys_time_clock w3) as (Hn4 & Ht4 & Hr4).
  destruct (sys_time w3) as [t w4]. simpl in *.
  rewrite Hn3, Hn2, Hn1, Ht3, Ht2, Ht1 in *. subst t.
  exists m1, m2, w4.
  split; [done|]. split.
  { eapply later_eq.
    - eapply later_trans; [apply Hl1|].
      eapply later_trans; [apply Hl2|].
      eapply later_trans; [apply Hl3|apply Hl4].
    - done. }
  intros Ho. split; [by apply Hr1|].
  intros Hfd. apply Hr2; [|done].
  by apply (later_outcomes_nil _ _ _ Hl1).
Qed.

Lemma calls_of_app (e1 e2 : list event) :
  calls_of (e1 ++ e2) = calls_of e1 ++ calls_of e2.
Proof. apply omap_app. Qed.

Lemma calls_of_tee (fd0 : fdesc) (b : list byte) (m1 m2 t : Z) :
  calls_of (tee_events fd0 b m1 m2 t) = tee_events fd0 b m1 m2 t.
Proof. unfold tee_events. by destruct (m1 =? m2). Qed.

Lemma calls_of_id (evs : list event) :
  Forall (λ e, ∀ r, e ≠ EvRead r) evs → calls_of evs = evs.
Proof.
  induction 1 as [|e evs He _ IH]; [done|].
  change (calls_of (e :: evs))
    with (match (match e with EvRead _ => None | _ => Some e end) with
          | Some y => y :: calls_of evs
          | None => calls_of evs
          end).
  rewrite IH. destruct e; try done. by destruct (He r).
Qed.

Lemma calls_of_rotation c st w rn ret q1 q2 tn fd' tl :
  Forall purge_event q1 → (q2 = [] ∨ ∃ m, q2 = [EvPerror m]) →
  calls_of (rotation_events c st w rn ret q1 q2 tn fd' tl)
  = rotation_events c st w rn ret q1 q2 tn fd' tl.
Proof.
  intros Hq1 Hq2. apply calls_of_id. unfold rotation_events.
  repeat (apply Forall_app; split); try (constructor; [done|]).
  - destruct (Byte.eqb _ _); by repeat constructor.
  - by repeat constructor.
  - eapply Forall_impl; [done|]. intros e He r ->. done.
  - by repeat constructor.
  - destruct Hq2 as [->|[m ->]]; by repeat constructor.
  - by repeat constructor.
Qed.

(** The turns depend on the world through the names of the files
    only. *)
Lemma turns_world (c : config) (w w' : world) (st : loop_state)
    (chunks : list (list byte)) (evs : list event) :
  name_at w' (directory c) (prefix c) = name_at w (directory c) (prefix c) →
  turns c w' st chunks evs → turns c w st chunks evs.
Proof.
  intros Hname. induction 1 as [st|st b chunks m1 m2 t evs Hdue _ IH
    |st b chunks m1 m2 t rn ret q1 q2 tn fd' tl evs Hdue Hq1 Hq2 Hfd _ IH].
  - constructor.
  - by apply turns_stay.
  - replace (rotation_events c (after_chunk b m2 st) w' rn ret q1 q2 tn fd' tl)
      with (rotation_events c (after_chunk b m2 st) w rn ret q1 q2 tn fd' tl)
      by (unfold rotation_events; by rewrite Hname).
    apply turns_rotate; try done. by rewrite <- Hname.
Qed.

Lemma full_write_rotation c st w rn ret q1 q2 tn fd' tl :
  Forall purge_event q1 → (q2 = [] ∨ ∃ m, q2 = [EvPerror m]) → rn = 1 →
  Forall full_write (rotation_events c st w rn ret q1 q2 tn fd' tl).
Proof.
  intros Hq1 Hq2 ->. unfold rotation_events.
  repeat (apply Forall_app; split); try (constructor; [done|]).
  - destruct (Byte.eqb _ _); by repeat constructor.
  - by repeat constructor.
  - eapply Forall_impl; [done|]. by intros [].
  - by repeat constructor.
  - destruct Hq2 as [->|[m ->]]; by repeat constructor.
  - by repeat constructor.
Qed.

(** The copy loop, turn by turn, whatever the input and the world. *)
Lemma copy_loop_turns (c : config) (reads : list read_result) :
  ∀ (st : loop_state) (w : world),
  ∃ evs,
    later w (copy_loop c reads st w).2 evs
    ∧ turns c w st (delivered reads) (calls_of evs)
    ∧ (write_outcomes w = [] → (∀ p, may_creat w p = true) →
       fd st ≠ FdBad → Forall full_write evs).
Proof.
  induction reads as [|r reads IH]; intros st w.
  - simpl. eexists [_]. split; [by apply later_emit|].
    split; [constructor|by repeat constructor].
  - destruct r as [buffer| |].
    + simpl. destruct (take BUFFER_SIZE buffer) as [|x xs] eqn:Eb.
      * eexists [_]. split; [by apply later_emit|].
        split; [constructor|by repeat constructor].
      * set (b := x :: xs) in *.
        set (w0 := emit (EvRead (ReadBytes buffer)) w).
        assert (Hl0 : later w w0 [EvRead (ReadBytes buffer)])
          by by apply later_emit.
        destruct (copy_chunk_turn c b st w0)
          as (m1 & m2 & w4 & Ecc & Hl & Hfull).
        rewrite Ecc.
        change (now w0) with (now w) in *.
        change (ticks w0) with (ticks w) in *.
        change (write_outcomes w0) with (write_outcomes w) in *.
        set (t := (tick (now w) (ticks w)).1) in *.
        set (st1 := after_chunk b m2 st) in *.
        destruct (rotation_due c (t - lastTime st) (total st1)) eqn:Hdue.
        -- destruct (rotate_later c st1 w4)
             as (rn & ret & q1 & q2 & Hrot & Hrn & Hq1 & Hq2 & Est & _ & _
                 & _ & Hok & Hfd' & _).
           destruct (rotate c st1 w4) as [st2 w5] eqn:Er.
           cbn [fst snd] in *.
           set (tn := (tick (now w4) (ticks w4)).1) in *.
           set (tl := (tick tn (tick (now w4) (ticks w4)).2).1) in *.
           destruct (IH st2 w5) as (evs & Hle & Ht & Hfw).
           assert (Hl5 : later w w5
                     ([EvRead (ReadBytes buffer)]
                      ++ tee_events (fd st) b m1 m2 t
                      ++ rotation_events c st1 w4 rn ret q1 q2 tn (fd st2) tl)).
           { eapply later_trans; [apply Hl0|]. by eapply later_trans. }
           assert (Hn5 : name_at w5 (directory c) (prefix c)
                         = name_at w (directory c) (prefix c))
             by by eapply name_at_later.
           assert (Hn4 : name_at w4 (directory c) (prefix c)
                         = name_at w (directory c) (prefix c)).
           { eapply name_at_later.
             eapply later_trans; [apply Hl0|apply Hl]. }
           eexists. split; [eapply later_trans; [apply Hl5|apply Hle]|].
           split.
           ++ rewrite !calls_of_app, calls_of_tee,
                calls_of_rotation by done.
              simpl. rewrite <- List.app_assoc.
              replace (rotation_events c st1 w4 rn ret q1 q2 tn (fd st2) tl)
                with (rotation_events c st1 w rn ret q1 q2 tn (fd st2) tl)
                by (unfold rotation_events; by rewrite Hn4).
              apply turns_rotate; try done.
              ** by rewrite <- Hn4.
              ** apply (turns_world c w w5); [done|].
                 by rewrite Est in Ht.
           ++ intros Ho Hcr Hfd.
              destruct (Hfull Ho) as [-> Hm2]. specialize (Hm2 Hfd).
              assert (Ho4 : write_outcomes w4 = [])
                by (eapply later_outcomes_nil; [apply Hl|done]).
              rewrite !Forall_app. repeat split.
              ** by repeat constructor.
              ** unfold tee_events. rewrite Hm2, Z.eqb_refl.
                 by repeat constructor.
              ** apply full_write_rotation; try done. by apply Hrn.
              ** apply Hfw.
                 --- eapply later_outcomes_nil; [apply Hl5|done].
                 --- by eapply may_creat_later.
                 --- rewrite Hok; [done|].
                     eapply may_creat_later; [|done].
                     eapply later_trans; [apply Hl0|apply Hl].
        -- destruct (IH st1 w4) as (evs & Hle & Ht & Hfw).
           assert (Hl4 : later w w4
                     ([EvRead (ReadBytes buffer)]
                      ++ tee_events (fd st) b m1 m2 t))
             by by eapply later_trans.
           eexists. split; [eapply later_trans; [apply Hl4|apply Hle]|].
           split.
           ++ rewrite !calls_of_app, calls_of_tee. simpl.
              apply turns_stay; [done|].
              apply (turns_world c w w4); [|done].
              by eapply name_at_later.
           ++ intros Ho Hcr Hfd.
              destruct (Hfull Ho) as [-> Hm2]. specialize (Hm2 Hfd).
              rewrite !Forall_app. repeat split.
              ** by repeat constructor.
              ** unfold tee_events. rewrite Hm2, Z.eqb_refl.
                 by repeat constructor.
              ** apply Hfw; [|by eapply may_creat_later|done].
                 eapply later_outcomes_nil; [apply Hl4|done].
    + simpl. destruct (IH st (emit (EvRead ReadEINTR) w)) as (evs & Hl & Ht & Hf).
      exists (EvRead ReadEINTR :: evs). split.
      { apply (later_trans _ (emit (EvRead ReadEINTR) w) _
                 [EvRead ReadEINTR] evs); [by apply later_emit|done]. }
      split; [by apply (turns_world c w (emit (EvRead ReadEINTR) w))|].
      intros Ho Hcr Hfd. constructor; [done|]. by apply Hf.
    + simpl. eexists [_]. split; [by apply later_emit|].
      split; [constructor|by repeat constructor].
Qed.

End LoopFacts.

Module LoopTheorems.
Import CInt Options Filter Sys Logger FileSpec TraceSpec.
Import WorldFacts StepFacts TraceFacts LoopFacts.

Lemma rotation_due_iff (c : config) (age total : Z) :
  rotation_due c age total = true
  ↔ ageLimit (limits c) ≤ age
    ∨ (sizeLimit (limits c) ≤ total ∧ 1 ≤ age).
Proof.
  unfold rotation_due.
  rewrite orb_true_iff, andb_true_iff, !Z.leb_le. tauto.
Qed.

(** C2. In a turn of the copy loop, after the chunk is written and the
    time is read, the rotation takes place if and only if the age of the
    file has reached the age limit, or the bytes counted for it have
    reached the size limit and the age is at least one second; otherwise
    the turn ends there. *)
Theorem rotation_is_triggered (c : config) (buffer : list byte)
    (st : loop_state) (w : world) :
  ∃ m1 m2 mm w4,
    later w w4
      ([EvWrite FdStdout buffer m1; EvWrite (fd st) buffer m2] ++ mm
       ++ [EvTime (now w4)])
    ∧ (mm = [] ∨ mm = [EvMismatch m1 m2])
    ∧ (rotation_due c (now w4 - lastTime st)
         (total (after_chunk buffer m2 st)) = true
       ↔ ageLimit (limits c) ≤ now w4 - lastTime st
         ∨ (sizeLimit (limits c) ≤ to_size_t (total st + m2)
            ∧ 1 ≤ now w4 - lastTime st))
    ∧ copy_chunk c buffer st w
      = (if rotation_due c (now w4 - lastTime st)
              (total (after_chunk buffer m2 st))
         then rotate c (after_chunk buffer m2 st) w4
         else (after_chunk buffer m2 st, w4)).
Proof.
  destruct (copy_chunk_tee c buffer st w)
    as (r1 & r2 & mm & w4 & Ecc & Hl & Hmm & Hn4 & Ht4 & Hr2).
  exists r1, r2, mm, w4. rewrite <- Hn4 in *.
  split; [done|]. split; [done|]. split; [apply rotation_due_iff|done].
Qed.

(** C8. A rotation makes these calls in this order: a [write] of one line
    terminator to the current file unless the last byte of the last
    chunk was one; the [close] of the file; the purge ([scandir], then
    only [unlink]s and their error messages); [time] and [creat] for the
    file named after that time; and [time] again.  The state after it
    has the new descriptor, no bytes counted, and that last time, which
    is the current time, as the time of creation. *)
Theorem rotation_steps_in_order (c : config) (st : loop_state) (w : world) :
  ∃ rn ret q1 q2 tn tl w2,
    later w (rotate c st w).2
      (rotation_events c st w rn ret q1 q2 tn (fd (rotate c st w).1) tl)
    ∧ Forall purge_event q1
    ∧ (q2 = [] ∨ ∃ m, q2 = [EvPerror m])
    ∧ later w w2
        ((if Byte.eqb (last_char st) newline then []
          else [EvWrite (fd st) [newline] rn]) ++ [EvClose (fd st)])
    ∧ later w2
        (purgeOldFiles (directory c) (prefix c) (numberToKeep (limits c)) w2)
        (EvScandir (directory c) ret :: q1)
    ∧ (rotate c st w).1
      = {| fd := fd (rotate c st w).1; lastTime := tl; total := 0;
           last_char := last_char st |}
    ∧ tl = now (rotate c st w).2.
Proof.
  destruct (rotate_later c st w)
    as (rn & ret & q1 & q2 & Hrot & Hrn & Hq1 & Hq2 & Est & Hnow & Hticks
        & Hfd' & Hok & _ & w2 & Hw2 & Hpg).
  exists rn, ret, q1, q2, (tick (now w) (ticks w)).1,
    (tick (tick (now w) (ticks w)).1 (tick (now w) (ticks w)).2).1, w2.
  split; [done|]. split; [done|]. split; [done|]. split; [done|].
  split; [done|]. split; [done|]. by rewrite Hnow.
Qed.

(** C9. Whatever the input and the world, the calls of the copy loop are
    the turns of its chunks, in the order in which the chunks were read:
    each chunk is written whole to standard output and then to the log
    descriptor that is current when it is read, and to no other.  When
    the rotation is due after a chunk, that chunk has gone to the old
    descriptor; the rotation follows at once (line terminator if
    needed, [close], purge, [creat]) and the next chunk goes to the
    descriptor [creat] returned; when it is not due the next chunk goes
    to the same descriptor.  When the system takes all it is given,
    every [write] writes the whole chunk. *)
Theorem chunks_are_not_split (c : config) (reads : list read_result)
    (st : loop_state) (w : world) :
  ∃ evs,
    later w (copy_loop c reads st w).2 evs
    ∧ turns c w st (delivered reads) (calls_of evs)
    ∧ (fd st ≠ FdStdout → stdout_data evs = delivered reads)
    ∧ (write_outcomes w = [] → (∀ p, may_creat w p = true) →
       fd st ≠ FdBad → Forall full_write evs).
Proof.
  destruct (copy_loop_turns c reads st w) as (evs & Hl & Ht & Hf).
  exists evs. split; [done|]. split; [done|]. split; [|done].
  intros Hfd.
  destruct (copy_loop_layout c reads st w Hfd)
    as (evs' & rs & open & c1 & rest & H1 & H2 & _).
  assert (evs' = evs) as ->; [|done].
  apply (app_inv_head (trace w)).
  by rewrite <- (later_trace _ _ _ H1), <- (later_trace _ _ _ Hl).
Qed.

End LoopTheorems.

Module CalendarFacts.
Import Filter Sys Logger TraceSpec StringFacts.

(** *** The order of strings *)

Lemma compare_refl (s : string) : String.compare s s = Eq.
Proof.
  induction s as [|c s IH]; [done|]. simpl.
  by rewrite ascii_compare_refl.
Qed.

(** Strings with starts of the same length are ordered by these starts,
    and by what follows when the starts are the same. *)
Lemma compare_app (x y s s' : string) :
  String.length x = String.length y →
  String.compare (x +:+ s) (y +:+ s')
  = match String.compare x y with
    | Eq => String.compare s s'
    | o => o
    end.
Proof.
  revert y. induction x as [|c x IH]; intros [|d y] Hlen; try done.
  rewrite !app_cons. simpl.
  destruct (Ascii.compare c d); [|done..].
  apply IH. simpl in Hlen. lia.
Qed.

Lemma compare_app_l (p s s' : string) :
  String.compare (p +:+ s) (p +:+ s') = String.compare s s'.
Proof. by rewrite compare_app, compare_refl. Qed.

Lemma compare_Lt_name_lt (a b : string) :
  String.compare a b = Lt → name_lt a b.
Proof.
  intros H. split.
  - unfold String.le, String.leb. by rewrite H.
  - intros ->. by rewrite compare_refl in H.
Qed.

(** *** The numbers of the time image *)

Lemma range_forall (P : Z → bool) (lo : Z) (len : Z) :
  forallb P (seqZ lo len) = true → ∀ n, lo ≤ n < lo + len → P n = true.
Proof.
  intros H n Hn. rewrite forallb_forall in H. apply H.
  apply list_elem_of_In, elem_of_seqZ. lia.
Qed.

Lemma two_digits_length (n : Z) :
  0 ≤ n ≤ 99 → String.length (number_text 2 n) = 2%nat.
Proof.
  intros Hn.
  apply Nat.eqb_eq.
  apply (range_forall
           (λ n, Nat.eqb (String.length (number_text 2 n)) 2) 0 100);
    [by vm_compute|lia].
Qed.

Lemma two_digits_table :
  forallb (λ a, forallb (λ b,
    match String.compare (number_text 2 a) (number_text 2 b), a ?= b with
    | Eq, Eq | Lt, Lt | Gt, Gt => true
    | _, _ => false
    end) (seqZ 0 100)) (seqZ 0 100) = true.
Proof. by vm_compute. Qed.

Lemma two_digits_compare (a b : Z) :
  0 ≤ a ≤ 99 → 0 ≤ b ≤ 99 →
  String.compare (number_text 2 a) (number_text 2 b) = (a ?= b).
Proof.
  intros Ha Hb.
  pose proof (range_forall _ _ _ two_digits_table a) as H.
  cbv beta in H. specialize (H ltac:(lia)).
  pose proof (range_forall _ _ _ H b) as H'.
  cbv beta in H'. specialize (H' ltac:(lia)).
  by destruct (String.compare _ _), (a ?= b).
Qed.

(** A year of four digits is printed as its century and its year in
    the century. *)
Lemma year_text (y : Z) :
  1000 ≤ y ≤ 9999 →
  number_text 1 y = number_text 2 (y / 100) +:+ number_text 2 (y mod 100).
Proof.
  intros Hy. apply String.eqb_eq.
  apply (range_forall
           (λ y, String.eqb (number_text 1 y)
                   (number_text 2 (y / 100) +:+ number_text 2 (y mod 100)))
           1000 9000); [by vm_compute|lia].
Qed.

Lemma year_length (y : Z) :
  1000 ≤ y ≤ 9999 → String.length (number_text 1 y) = 4%nat.
Proof.
  intros Hy. rewrite year_text, length_app by done.
  rewrite !two_digits_length; [done|..].
  - pose proof (Z.mod_pos_bound y 100). lia.
  - split; [apply Z.div_pos; lia|].
    apply Z.lt_succ_r, Z.div_lt_upper_bound; lia.
Qed.

Lemma year_compare (a b : Z) :
  1000 ≤ a ≤ 9999 → 1000 ≤ b ≤ 9999 →
  String.compare (number_text 1 a) (number_text 1 b) = (a ?= b).
Proof.
  intros Ha Hb.
  assert (Hq : ∀ y, 1000 ≤ y ≤ 9999 → 0 ≤ y / 100 ≤ 99).
  { intros y Hy. split; [apply Z.div_pos; lia|].
    apply Z.lt_succ_r, Z.div_lt_upper_bound; lia. }
  assert (Hr : ∀ y, 0 ≤ y mod 100 ≤ 99).
  { intros y. pose proof (Z.mod_pos_bound y 100). lia. }
  rewrite !year_text by done.
  rewrite compare_app by (by rewrite !two_digits_length by auto).
  rewrite !two_digits_compare by auto.
  pose proof (Z.div_mod a 100). pose proof (Z.div_mod b 100).
  pose proof (Hr a). pose proof (Hr b).
  destruct (Z.compare_spec (a / 100) (b / 100));
    destruct (Z.compare_spec (a mod 100) (b mod 100));
    destruct (Z.compare_spec a b); try done; lia.
Qed.

(** *** The time image and the calendar *)

Lemma in_calendar_spec (a : tm) :
  in_calendar a = true →
  1000 ≤ tm_year a + 1900 ≤ 9999 ∧ 0 ≤ tm_mon a + 1 ≤ 99
  ∧ 0 ≤ tm_mday a ≤ 99 ∧ 0 ≤ tm_hour a ≤ 99 ∧ 0 ≤ tm_min a ≤ 99
  ∧ 0 ≤ tm_sec a ≤ 99.
Proof.
  unfold in_calendar. rewrite !andb_true_iff, !Z.leb_le. lia.
Qed.

Lemma stamp_text_length (a : tm) :
  in_calendar a = true → String.length (stamp_text a) = 19%nat.
Proof.
  intros (Hy & Hm & Hd & Hh & Hi & Hs)%in_calendar_spec.
  unfold stamp_text. rewrite !length_app.
  rewrite year_length, !two_digits_length by done. done.
Qed.

Lemma time_image_stamp (a : tm) :
  in_calendar a = true → strftime_stamp a = stamp_text a.
Proof.
  intros H. unfold strftime_stamp. apply snprintf_fits.
  rewrite (stamp_text_length a H). unfold TIME_IMAGE_LEN. lia.
Qed.

(** The time images of two dates with years of four digits are in the
    order of the dates. *)
Lemma stamp_text_before (a b : tm) :
  in_calendar a = true → in_calendar b = true → tm_before a b = true →
  String.compare (stamp_text a) (stamp_text b) = Lt.
Proof.
  intros (Hy & Hm & Hd & Hh & Hi & Hs)%in_calendar_spec
         (Hy' & Hm' & Hd' & Hh' & Hi' & Hs')%in_calendar_spec Hlt.
  unfold stamp_text.
  rewrite compare_app by (by rewrite !year_length).
  rewrite year_compare by done.
  rewrite (compare_app_l "-").
  rewrite compare_app by (by rewrite !two_digits_length).
  rewrite two_digits_compare by done.
  rewrite (compare_app_l "-").
  rewrite compare_app by (by rewrite !two_digits_length).
  rewrite two_digits_compare by done.
  rewrite (compare_app_l "_").
  rewrite compare_app by (by rewrite !two_digits_length).
  rewrite two_digits_compare by done.
  rewrite (compare_app_l "-").
  rewrite compare_app by (by rewrite !two_digits_length).
  rewrite two_digits_compare by done.
  rewrite (compare_app_l "-").
  rewrite two_digits_compare by done.
  unfold tm_before, calendar_key, key_lt in Hlt.
  rewrite !orb_true_iff, !andb_true_iff, !Z.ltb_lt, !Z.eqb_eq in Hlt.
  destruct (Z.compare_spec (tm_year a + 1900) (tm_year b + 1900));
    [|done|lia].
  destruct (Z.compare_spec (tm_mon a + 1) (tm_mon b + 1)); [|done|lia].
  destruct (Z.compare_spec (tm_mday a) (tm_mday b)); [|done|lia].
  destruct (Z.compare_spec (tm_hour a) (tm_hour b)); [|done|lia].
  destruct (Z.compare_spec (tm_min a) (tm_min b)); [|done|lia].
  destruct (Z.compare_spec (tm_sec a) (tm_sec b)); [lia|done|lia].
Qed.

(** *** The names of the log files *)

(** A name that fits the buffer is not cut. *)
Lemma filename_of_fits (directory prefix image : string) :
  names_fit directory prefix → String.length image = 19%nat →
  filename_of directory prefix image
  = directory +:+ "/" +:+ prefix +:+ "_" +:+ image +:+ ".log".
Proof.
  intros Hfit Hlen. unfold filename_of. apply snprintf_fits.
  rewrite !length_app, Hlen. unfold names_fit, FULL_PATH_LEN in *.
  simpl. lia.
Qed.

Lemma filename_of_lt (directory prefix image image' : string) :
  names_fit directory prefix →
  String.length image = 19%nat → String.length image' = 19%nat →
  String.compare image image' = Lt →
  name_lt (filename_of directory prefix image)
          (filename_of directory prefix image').
Proof.
  intros Hfit Hl Hl' Hlt. rewrite !filename_of_fits by done.
  apply compare_Lt_name_lt.
  rewrite !compare_app_l. rewrite compare_app by congruence.
  by rewrite Hlt.
Qed.

(** When the names fit the buffer, the names of two dates with years
    of four digits are in the order of the dates. *)
Lemma name_at_before (w : world) (directory prefix : string) (t t' : Z) :
  names_fit directory prefix →
  in_calendar (localtime w t) = true →
  in_calendar (localtime w t') = true →
  tm_before (localtime w t) (localtime w t') = true →
  name_lt (name_at w directory prefix t) (name_at w directory prefix t').
Proof.
  intros Hfit Ha Hb Hlt. unfold name_at, time_image.
  rewrite !time_image_stamp by done.
  apply filename_of_lt; [done|by apply stamp_text_length..|].
  by apply stamp_text_before.
Qed.

Lemma names_ordered_intro (f : Z → string) (l : list Z) :
  (∀ t t', t ∈ l → t' ∈ l → t < t' → name_lt (f t) (f t')) →
  names_ordered f l = true.
Proof.
  induction l as [|t l IH]; intros H; [done|]. simpl.
  apply andb_true_iff. split.
  - apply forallb_forall. intros t' Hin%list_elem_of_In.
    apply andb_true_iff.
    split; apply bool_decide_eq_true; intros Hlt; apply H; try done;
      by constructor.
  - apply IH. intros a b Ha Hb. apply H; by constructor.
Qed.

(** Over instants at which local time goes on with the clock, the
    names of the log files are in the order of the instants. *)
Lemma local_time_names_ordered (w : world) (directory prefix : string)
    (l : list Z) :
  names_fit directory prefix →
  local_time_ordered (localtime w) l = true →
  names_ordered (name_at w directory prefix) l = true.
Proof.
  intros Hfit [Hcal Hord]%andb_true_iff.
  rewrite forallb_forall in Hcal. rewrite forallb_forall in Hord.
  apply names_ordered_intro. intros t t' Ht Ht' Hlt.
  apply list_elem_of_In in Ht, Ht'.
  apply name_at_before; [done|by apply Hcal..|].
  specialize (Hord t Ht). rewrite forallb_forall in Hord.
  specialize (Hord t' Ht'). apply orb_true_iff in Hord as [H|H]; [|done].
  apply Z.leb_le in H. lia.
Qed.

End CalendarFacts.

Module RunFacts.
Import CInt Options Filter Sys Logger FileSpec TraceSpec.
Import WorldFacts StepFacts TraceFacts LoopFacts.

Lemma delivered_nonempty (reads : list read_result) :
  Forall (λ b, b ≠ []) (delivered reads).
Proof.
  induction reads as [|[buffer| |] reads IH]; simpl; try done.
  destruct (take BUFFER_SIZE buffer) eqn:E; [done|]. by constructor.
Qed.

Lemma accepted_complete (c : write_call) : complete c → accepted c = fst c.
Proof.
  unfold complete, accepted. intros ->. rewrite Nat2Z.id. apply firstn_all.
Qed.

Lemma ends_with_newline_app (a b : list byte) :
  b ≠ [] → ends_with_newline (a ++ b) = ends_with_newline b.
Proof.
  intros Hb. unfold ends_with_newline.
  destruct (exists_last Hb) as (b' & x & ->).
  by rewrite (assoc_L (++)), !last_snoc.
Qed.

Lemma concat_run_written (r : rotated_run) :
  snd r ≠ [] → concat (run_written r) = sealed (concat (run_chunks r)).
Proof.
  intros Hr. unfold run_written, run_chunks, sealed.
  rewrite !concat_app. simpl. rewrite !app_nil_r.
  rewrite ends_with_newline_app by done.
  destruct (ends_with_newline r.2); simpl; by rewrite ?app_nil_r.
Qed.

Lemma names_ordered_spec (f : Z → string) (l : list Z) (t t' : Z) :
  names_ordered f l = true → t ∈ l → t' ∈ l → t < t' →
  name_lt (f t) (f t').
Proof.
  induction l as [|x l IH]; intros H Ht Ht' Hlt; [by inversion Ht|].
  simpl in H. apply andb_true_iff in H as [Hx Hl].
  rewrite forallb_forall in Hx.
  apply elem_of_cons in Ht as [->|Ht]; apply elem_of_cons in Ht' as [->|Ht'].
  - lia.
  - apply list_elem_of_In, Hx, andb_true_iff in Ht' as [H _].
    apply bool_decide_eq_true in H. auto.
  - apply list_elem_of_In, Hx, andb_true_iff in Ht as [_ H].
    apply bool_decide_eq_true in H. auto.
  - auto.
Qed.

Lemma names_of_times_sorted (f : Z → string) (l ts : list Z) :
  names_ordered f l = true → StronglySorted Z.lt ts →
  Forall (λ t, t ∈ l) ts → StronglySorted name_lt (f <$> ts).
Proof.
  intros Hl. induction 1 as [|t ts Hs IH Ht]; intros Hin; [constructor|].
  apply Forall_cons in Hin as [Hin Hins]. rewrite fmap_cons.
  constructor; [by apply IH|].
  apply Forall_fmap, Forall_forall. intros t' Ht'.
  rewrite Forall_forall in Ht, Hins.
  apply (names_ordered_spec f l); auto.
Qed.

#[local] Instance by_name_trans :
  Transitive (λ a b : string * list byte, String.le (fst a) (fst b)).
Proof. intros a b c. apply (transitivity (R:=String.le)). Qed.

#[local] Instance by_name_total :
  Total (λ a b : string * list byte, String.le (fst a) (fst b)).
Proof. intros a b. apply (stdpp.base.total String.le). Qed.

(** Files whose names are in strictly ascending order are in name order. *)
Lemma in_name_order_sorted (fs : list (string * list byte)) :
  StronglySorted name_lt fs.*1 → in_name_order fs = fs.
Proof.
  intros Hs. unfold in_name_order.
  set (R := λ a b : string * list byte, String.le (fst a) (fst b)).
  assert (HR : StronglySorted R fs).
  { clear -Hs. induction fs as [|a fs IH]; [constructor|].
    rewrite fmap_cons in Hs. apply StronglySorted_inv in Hs as [Hs Ha].
    constructor; [by apply IH|].
    apply (proj1 (Forall_fmap _ _ _)) in Ha.
    eapply Forall_impl; [exact Ha|]. by intros b [? _]. }
  apply (StronglySorted_unique_strong R).
  - intros x1 x2 H1 H2 H12 H21.
    rewrite merge_sort_Permutation in H1.
    assert (E : x1.1 = x2.1) by by apply (anti_symm String.le).
    clear -Hs H1 H2 E.
    induction fs as [|a fs IH]; [by inversion H1|].
    rewrite fmap_cons in Hs. apply StronglySorted_inv in Hs as [Hs Ha].
    apply (proj1 (Forall_fmap _ _ _)) in Ha. rewrite Forall_forall in Ha.
    apply elem_of_cons in H1 as [->|H1]; apply elem_of_cons in H2 as [->|H2].
    + done.
    + destruct (Ha _ H2) as [_ Hne]. by destruct Hne.
    + destruct (Ha _ H1) as [_ Hne]. by destruct Hne.
    + auto.
  - apply (StronglySorted_merge_sort R).
  - done.
  - apply merge_sort_Permutation.
Qed.

Lemma printf_fields (ps : list printed) (w : world) :
  now (printf ps w) = now w ∧ ticks (printf ps w) = ticks w
  ∧ write_outcomes (printf ps w) = write_outcomes w.
Proof.
  revert w. induction ps as [|p ps IH]; intros w; [done|].
  simpl. apply (IH (emit (EvPrintf p) w)).
Qed.

Lemma omap_log_of (eps : list (fdesc * list write_call))
    (names : list string) :
  eps.*1 = FdLog <$> names →
  Forall (λ ep, Forall complete (snd ep)) eps →
  (omap log_of eps).*1 = names
  ∧ (omap log_of eps).*2 = (λ ep, concat (fst <$> snd ep)) <$> eps.
Proof.
  revert names. induction eps as [|[fd0 calls] eps IH]; intros names E Hc.
  - by destruct names.
  - destruct names as [|n names]; [done|].
    rewrite !fmap_cons in E. injection E as E1 E2. simpl in E1. subst fd0.
    apply Forall_cons in Hc as [Hc Hcs].
    destruct (IH names E2 Hcs) as [IH1 IH2].
    change (omap log_of ((FdLog n, calls) :: eps))
      with ((n, concat (accepted <$> calls)) :: omap log_of eps).
    rewrite !fmap_cons, IH1, IH2. cbn [fst snd].
    split; [done|]. f_equal. f_equal.
    clear -Hc. simpl in Hc. induction Hc as [|x l Hx _ IHl]; [done|].
    rewrite !fmap_cons. by rewrite accepted_complete, IHl.
Qed.

(** *** The files on disk and the trace *)

Lemma content_snoc (calls : list write_call) (c : write_call) :
  content (calls ++ [c]) = content calls ++ accepted c.
Proof.
  unfold content. rewrite fmap_app, concat_app. simpl.
  by rewrite app_nil_r.
Qed.

Lemma log_paths_record (acc : list (fdesc * list write_call)) (e : event) :
  omap log_path (record acc e) = omap log_path acc
  ∨ ∃ ret, omap log_path (record acc e)
           = omap log_path [(ret, [])] ++ omap log_path acc.
Proof.
  destruct e as [| | |fd0 data ret| | | | | |path ret|]; try by left.
  - simpl. destruct acc as [|[cur calls] acc]; [by left|].
    destruct (decide (fd0 = cur)); by left.
  - right. exists ret. by destruct ret.
Qed.

Lemma log_paths_suffix (evs : list event)
    (acc : list (fdesc * list write_call)) :
  omap log_path acc `suffix_of` omap log_path (foldl record acc evs).
Proof.
  revert acc. induction evs as [|e evs IH]; intros acc; [done|].
  simpl. etrans; [|apply IH].
  destruct (log_paths_record acc e) as [->|[ret ->]]; [done|].
  apply suffix_app_r. done.
Qed.

Lemma NoDup_suffix {A} (l k : list A) :
  l `suffix_of` k → NoDup k → NoDup l.
Proof. intros [m ->] H. by apply NoDup_app in H as (_ & _ & ?). Qed.

Lemma elem_of_log_paths (acc : list (fdesc * list write_call))
    (p : string) (calls : list write_call) :
  (FdLog p, calls) ∈ acc → p ∈ omap log_path acc.
Proof. intros H. apply list_elem_of_omap. by exists (FdLog p, calls). Qed.

(** A log file that is created once and not unlinked holds what was
    written to it. *)
Lemma disk_of_epochs (p : string) (evs : list event) :
  ∀ (acc : list (fdesc * list write_call)) (f : gmap string (list byte)),
    coherent acc evs →
    (∀ e, e ∈ evs → e ≠ EvUnlink p 0) →
    NoDup (omap log_path (foldl record acc evs)) →
    (∀ calls, (FdLog p, calls) ∈ acc → f !! p = Some (content calls)) →
    ∀ calls, (FdLog p, calls) ∈ foldl record acc evs →
             foldl replay f evs !! p = Some (content calls).
Proof.
  induction evs as [|e evs IH]; intros acc f Hco Hun Hnd Hinv calls Hin;
    [by apply Hinv|].
  simpl in *. destruct Hco as [Hstep Hco].
  assert (Hnd' : NoDup (omap log_path (record acc e))).
  { eapply NoDup_suffix; [apply log_paths_suffix|done]. }
  apply (IH (record acc e) (replay f e)); try done.
  { intros e' He'. apply Hun. by right. }
  clear IH Hco Hnd Hin calls.
  intros calls Hin.
  destruct e as [| | |fd0 data ret| | | | |path ret|path ret|]; simpl in *;
    try by apply Hinv.
  - (* write *)
    destruct acc as [|[cur calls0] acc]; [by inversion Hin|].
    destruct (decide (fd0 = cur)) as [->|Hne].
    + apply elem_of_cons in Hin as [[= <- ->]|Hin].
      * assert (Hold : f !! p = Some (content calls0)) by (apply Hinv; left).
        rewrite content_snoc. unfold accepted. simpl.
        destruct (Z.leb_spec 0 ret).
        -- rewrite lookup_alter_eq, Hold. done.
        -- replace (Z.to_nat ret) with 0%nat by lia. simpl.
           by rewrite app_nil_r.
      * assert (Hold : f !! p = Some (content calls))
          by (apply Hinv; by right).
        destruct cur as [|q|]; try done.
        destruct (Z.leb_spec 0 ret); [|done].
        rewrite lookup_alter_ne; [done|]. intros ->.
        change (NoDup (p :: omap log_path acc)) in Hnd'.
        apply NoDup_cons in Hnd' as [Hnot _].
        destruct Hnot. by eapply elem_of_log_paths.
    + assert (Hold : f !! p = Some (content calls)) by by apply Hinv.
      destruct fd0 as [|q|]; try done.
      destruct Hstep as (calls1 & acc1 & [= -> -> ->]). done.
  - (* unlink *)
    assert (Hold : f !! p = Some (content calls)) by by apply Hinv.
    destruct (Z.eqb_spec ret 0) as [->|]; [|done].
    rewrite lookup_delete_ne; [done|]. intros ->.
    by apply (Hun (EvUnlink p 0)); [left|].
  - (* creat *)
    destruct Hstep as [->| ->].
    + apply elem_of_cons in Hin as [[= -> ->]|Hin].
      * by rewrite lookup_insert_eq.
      * rewrite lookup_insert_ne; [by apply Hinv|]. intros ->.
        change (NoDup (p :: omap log_path acc)) in Hnd'.
        apply NoDup_cons in Hnd' as [Hnot _].
        destruct Hnot. by eapply elem_of_log_paths.
    + apply elem_of_cons in Hin as [[=]|Hin]. by apply Hinv.
Qed.

Lemma name_lt_NoDup (l : list string) :
  StronglySorted name_lt l → NoDup l.
Proof.
  induction 1 as [|a l _ IH Ha]; constructor; [|done].
  intros Hin. rewrite Forall_forall in Ha.
  by destruct (Ha a Hin) as [_ Hne].
Qed.

Lemma log_paths_produced (eps : list (fdesc * list write_call)) :
  omap log_path eps = (omap log_of eps).*1.
Proof.
  induction eps as [|[[|q|] calls] eps IH]; [done|done| |done].
  change (omap log_path ((FdLog q, calls) :: eps))
    with (q :: omap log_path eps).
  change (omap log_of ((FdLog q, calls) :: eps))
    with ((q, concat (accepted <$> calls)) :: omap log_of eps).
  by rewrite fmap_cons, IH.
Qed.

Lemma omap_reverse {A B} (g : A → option B) (l : list A) :
  omap g (reverse l) = reverse (omap g l).
Proof.
  induction l as [|a l IH]; [done|].
  rewrite reverse_cons, omap_app, IH. simpl.
  destruct (g a); simpl; [by rewrite reverse_cons|by rewrite app_nil_r].
Qed.

Lemma elem_of_produced (evs : list event) (p : string) (d : list byte) :
  (p, d) ∈ produced evs →
  ∃ calls, (FdLog p, calls) ∈ foldl record [] evs ∧ d = content calls.
Proof.
  unfold produced, epochs. intros H.
  apply list_elem_of_omap in H as ([[|q|] calls] & Hin & E); try done.
  unfold log_of in E. simpl in E. injection E as -> <-.
  exists calls. split; [|done].
  by rewrite elem_of_reverse in Hin.
Qed.

(** The files a run produces and does not unlink are on the disk at its
    end, each with the bytes written to it. *)
Lemma produced_on_disk (w w' : world) (evs : list event) :
  later w w' evs → coherent [] evs →
  StronglySorted name_lt (produced evs).*1 →
  ∀ p d, (p, d) ∈ produced evs →
         (∀ e, e ∈ evs → e ≠ EvUnlink p 0) →
         files w' !! p = Some d.
Proof.
  intros Hl Hco Hs p d Hin Hun.
  apply elem_of_produced in Hin as (calls & Hin & ->).
  rewrite (later_files _ _ _ Hl).
  apply (disk_of_epochs p evs [] (files w)); try done.
  - apply name_lt_NoDup in Hs. unfold produced, epochs in Hs.
    rewrite <- log_paths_produced, omap_reverse in Hs.
    by rewrite reverse_Permutation in Hs.
  - intros calls' H'. by apply elem_of_nil in H'.
Qed.

End RunFacts.

Module RunTheorems.
Import CInt Options Filter Sys Logger FileSpec TraceSpec.
Import WorldFacts StepFacts TraceFacts LoopFacts RunFacts CalendarFacts.

(** [run] up to the copy loop and after it, when the directory can be
    made and the first log file created. *)
Lemma run_frame (s : settings) (directory prefix : string)
    (more : list string) (reads : list read_result) (w : world) :
  may_mkdir w directory = true →
  (∀ p, may_creat w p = true) →
  ∃ pre post w4,
    let c := {| limits := s; directory := directory; prefix := prefix |} in
    let tn0 := (tick (now w) (ticks w)).1 in
    let st0 := {| fd := FdLog (name_at w directory prefix tn0);
                  lastTime := (tick tn0 (tick (now w) (ticks w)).2).1;
                  total := 0; last_char := newline |} in
    (run s (directory :: prefix :: more) reads w).1 = 0
    ∧ later w w4 pre
    ∧ foldl record [] pre = [(FdLog (name_at w directory prefix tn0), [])]
    ∧ coherent [] pre
    ∧ now w4 = lastTime st0
    ∧ ticks w4 = (tick tn0 (tick (now w) (ticks w)).2).2
    ∧ write_outcomes w4 = write_outcomes w
    ∧ later (copy_loop c reads st0 w4).2
            (run s (directory :: prefix :: more) reads w).2 post
    ∧ Forall quiet post.
Proof.
  intros Hmk Hcr. unfold run.
  set (w1 := printf _ w).
  unfold mkdir_parents.
  assert (may_mkdir w1 directory = true) as -> by done.
  cbv iota beta. simpl negb. cbv iota.
  set (w2 := emit (EvMkdirParents directory true) w1).
  destruct (nextFile_later directory prefix (numberToKeep s) w2)
    as (ret & q1 & q2 & Hl3 & Hq1 & Hq2 & Hn3 & Ht3 & Ho3 & Hne & Hok & _
        & _).
  change (now w2) with (now w) in *. change (ticks w2) with (ticks w) in *.
  change (name_at w2) with (name_at w) in *.
  change (may_creat w2) with (may_creat w) in *.
  change (write_outcomes w2) with (write_outcomes w) in *.
  set (tn0 := (tick (now w) (ticks w)).1) in *.
  specialize (Hok (Hcr _)).
  destruct (nextFile directory prefix (numberToKeep s) w2) as [fd0 w3].
  simpl in Hl3, Hn3, Ht3, Ho3, Hok. subst fd0.
  destruct (later_sys_time w3) as (Hl4 & _ & _ & Ho4 & _).
  destruct (sys_time_clock w3) as (Hn4 & Ht4 & Hr4).
  destruct (sys_time w3) as [lastTime0 w4]. simpl in *.
  rewrite Hn3, Ht3 in *. subst lastTime0.
  set (c := {| limits := s; directory := directory; prefix := prefix |}).
  set (st0 := {| fd := FdLog (name_at w directory prefix tn0);
                 lastTime := (tick tn0 (tick (now w) (ticks w)).2).1;
                 total := 0; last_char := newline |}).
  destruct (copy_loop c reads st0 w4) as [[numberRead st'] w5] eqn:Eloop.
  simpl.
  apply perror_tail_quiet in Hq2.
  assert (Hpost : ∃ post,
             later w5
               (0, sys_close (fd st')
                     (if numberRead =? -1 then perrorf "read error" w5
                      else w5)).2 post
             ∧ Forall quiet post).
  { destruct (numberRead =? -1).
    - eexists. split.
      + eapply later_trans; [apply later_perrorf|apply later_sys_close].
      + by repeat constructor.
    - eexists. split; [apply later_sys_close|by repeat constructor]. }
  destruct Hpost as (post & Hpost & Hqpost).
  eexists _, post, w4. split; [done|]. split.
  { assert (Hl1 : later w w1 [EvPrintf (PBanner directory prefix (ageLimit s)
                                          (sizeLimit s) (numberToKeep s))])
      by by apply later_emit.
    assert (Hl2 : later w1 w2 [EvMkdirParents directory true])
      by by apply later_emit.
    eapply later_trans; [apply Hl1|].
    eapply later_trans; [apply Hl2|].
    eapply later_trans; [apply Hl3|apply Hl4]. }
  split.
  { simpl. rewrite !foldl_app.
    rewrite (foldl_record_quiet q1)
      by (eapply Forall_impl; [done|apply purge_event_quiet]).
    simpl. by rewrite (foldl_record_quiet q2). }
  split.
  { simpl. do 3 (split; [done|]).
    apply coherent_app. split; [|by apply coherent_quiet; repeat constructor].
    apply coherent_app. split.
    { apply coherent_quiet. eapply Forall_impl; [done|].
      apply purge_event_quiet. }
    simpl. split; [done|]. split; [by left|]. by apply coherent_quiet. }
  split; [done|]. split; [done|]. split; [congruence|].
  fold tn0 c st0. by rewrite Eloop.
Qed.

Lemma concat_layout (rs : list rotated_run) (open : list (list byte)) :
  concat (layout_chunks rs open)
  = concat ((λ r, concat (run_chunks r)) <$> rs) ++ concat open.
Proof.
  unfold layout_chunks. rewrite concat_app. f_equal.
  induction rs as [|r rs IH]; [done|].
  rewrite !fmap_cons. simpl. by rewrite concat_app, IH.
Qed.

Lemma concat_layout_written (rs : list rotated_run)
    (open : list (list byte)) :
  Forall (λ b, b ≠ []) (layout_chunks rs open) →
  @concat byte <$> layout_written rs open
  = (sealed <$> ((λ r, concat (run_chunks r)) <$> rs)) ++ [concat open].
Proof.
  unfold layout_written, layout_chunks. intros H.
  rewrite fmap_app. f_equal.
  apply Forall_app in H as [H _].
  induction rs as [|r rs IH]; [done|].
  rewrite !fmap_cons in *. simpl in H.
  apply Forall_app in H as [Hr H].
  rewrite IH by done. f_equal.
  apply concat_run_written.
  unfold run_chunks in Hr. apply Forall_app in Hr as [_ Hr].
  by apply (Forall_inv Hr).
Qed.

(** C1, amended. When the program runs to the end of its input, with
    every [write] complete, every [creat] permitted, a clock that does
    not go back, a local time that goes on with the clock (dates with
    years of four digits, no hour repeated) and file names that fit the
    buffer of 240 bytes, the log files it produces are in name order in
    the order of their creation, and their contents, in that order, are
    the input stream cut in pieces, each piece but the last followed by
    one line terminator unless it ends with one.  Each of these files
    that the run does not unlink is on the disk at the end with exactly
    these contents. *)
Theorem logs_hold_the_input (opts : list getopt_ret) (out : list printed)
    (s0 : settings) (directory prefix : string) (more : list string)
    (reads : list read_result) (w : world) :
  process_options opts defaults = (out, Next s0) →
  may_mkdir w directory = true →
  (∀ p, may_creat w p = true) →
  write_outcomes w = [] →
  Forall (λ d, 0 ≤ d) (ticks w) →
  local_time_ordered (localtime w) (instants (now w) (ticks w)) = true →
  names_fit directory prefix →
  ∃ evs ds d_open,
    later w (main opts (directory :: prefix :: more) reads w).2 evs
    ∧ (main opts (directory :: prefix :: more) reads w).1 = 0
    ∧ concat ds ++ d_open = input_stream reads
    ∧ (in_name_order (produced evs)).*2 = (sealed <$> ds) ++ [d_open]
    ∧ in_name_order (produced evs) = produced evs
    ∧ StronglySorted name_lt (produced evs).*1
    ∧ (∀ p d, (p, d) ∈ produced evs →
              (∀ e, e ∈ evs → e ≠ EvUnlink p 0) →
              files (main opts (directory :: prefix :: more) reads w).2 !! p
              = Some d).
Proof.
  intros Hopts Hmk Hcr Hwo Hts Hzone Hfit.
  pose proof (local_time_names_ordered w directory prefix _ Hfit Hzone)
    as Hnames.
  unfold main. rewrite Hopts.
  pose proof (later_printf out w) as Hlp.
  destruct (printf_fields out w) as (Hnp & Htp & Hop).
  set (wp := printf out w) in *.
  destruct (run_frame (sanitise s0) directory prefix more reads wp)
    as (pre & post & w4 & Hret & Hlpre & Hfpre & Hcopre & Hn4 & Ht4 & Ho4
        & Hlpost & Hqpost).
  { by rewrite (later_mkdir _ _ _ Hlp). }
  { by eapply may_creat_later. }
  rewrite Hnp, Htp, (name_at_later _ _ _ _ _ Hlp) in *.
  set (c := {| limits := sanitise s0; directory := directory;
               prefix := prefix |}) in *.
  set (tn0 := (tick (now w) (ticks w)).1) in *.
  set (name0 := name_at w directory prefix tn0) in *.
  set (st0 := {| fd := FdLog name0;
                 lastTime := (tick tn0 (tick (now w) (ticks w)).2).1;
                 total := 0; last_char := newline |}) in *.
  assert (Hl4 : later w w4 ((EvPrintf <$> out) ++ pre))
    by by eapply later_trans.
  destruct (copy_loop_layout c reads st0 w4)
    as (evl & rs & open & c1 & rest & H1 & H2 & H3 & H4 & H5 & Hco & H6
        & H7);
    [done|].
  set (w5 := (copy_loop c reads st0 w4).2) in *.
  destruct H6 as [Hc1 Hcrest].
  { rewrite Ho4, Hop. done. }
  { by eapply may_creat_later. }
  { done. }
  destruct (tick_monotone (now w) (ticks w) Hts) as [Htn0 Hts1].
  destruct (tick_monotone tn0 _ Hts1) as [Hlt0 Hts2]. fold tn0 in Htn0, Hts1.
  destruct H7 as (times & Erest & Hsorted & Htimes).
  { by eapply may_creat_later. }
  { by rewrite Ht4. }
  { unfold c, sanitise. simpl. destruct (ageLimit s0 <? 10) eqn:E; [lia|].
    apply Z.ltb_ge in E. lia. }
  rewrite (name_at_later _ _ _ _ _ Hl4) in Erest.
  exists (((EvPrintf <$> out) ++ pre) ++ evl ++ post),
    ((λ r, concat (run_chunks r)) <$> rs), (concat open).
  assert (Hep : epochs (((EvPrintf <$> out) ++ pre) ++ evl ++ post)
                = (FdLog name0, c1) :: rest).
  { unfold epochs. rewrite !foldl_app.
    rewrite (foldl_record_quiet (EvPrintf <$> out))
      by (apply Forall_fmap, Forall_forall; by intros).
    rewrite Hfpre. pose proof (H4 [] []) as H4'.
    change (fd st0) with (FdLog name0) in H4'. rewrite H4'.
    rewrite foldl_record_quiet by done.
    by rewrite app_nil_r, reverse_involutive. }
  destruct (omap_log_of ((FdLog name0, c1) :: rest)
              (name0 :: (name_at w directory prefix <$> times)))
    as [Hp1 Hp2].
  { rewrite !fmap_cons. f_equal. rewrite Erest.
    by rewrite <- list_fmap_compose. }
  { by constructor. }
  assert (Hnamesorted : StronglySorted name_lt (produced
            (((EvPrintf <$> out) ++ pre) ++ evl ++ post)).*1).
  { unfold produced. rewrite Hep, Hp1.
    change (name0 :: (name_at w directory prefix <$> times))
      with (name_at w directory prefix <$> (tn0 :: times)).
    eapply names_of_times_sorted; [exact Hnames| |].
    - constructor; [done|]. eapply Forall_impl; [exact Htimes|].
      intros x [Hx _]. simpl in Hx. lia.
    - constructor; [apply tick_in_instants|].
      eapply Forall_impl; [exact Htimes|]. intros x [_ Hx].
      by eapply ticked_instants; [apply (later_clock _ _ _ Hl4)|]. }
  assert (Hlater : later w (run (sanitise s0) (directory :: prefix :: more)
                              reads wp).2
                     (((EvPrintf <$> out) ++ pre) ++ evl ++ post)).
  { eapply later_trans; [apply Hl4|]. by eapply later_trans. }
  assert (Hcoh : coherent [] (((EvPrintf <$> out) ++ pre) ++ evl ++ post)).
  { assert (Hqout : Forall quiet (EvPrintf <$> out))
      by (apply Forall_fmap, Forall_forall; by intros).
    apply coherent_app. split.
    - apply coherent_app. split; [by apply coherent_quiet|].
      by rewrite foldl_record_quiet.
    - rewrite foldl_app, (foldl_record_quiet (EvPrintf <$> out)) by done.
      rewrite Hfpre. apply coherent_app. split; [apply (Hco [] [])|].
      by apply coherent_quiet. }
  split; [done|].
  split; [done|].
  split.
  { unfold input_stream. by rewrite <- H3, concat_layout. }
  rewrite (in_name_order_sorted _ Hnamesorted).
  split; [|split; [done|split; [done|]]].
  - unfold produced. rewrite Hep, Hp2.
    rewrite <- concat_layout_written
      by (rewrite H3; apply delivered_nonempty).
    rewrite <- H5. rewrite !fmap_cons. cbn [snd]. f_equal.
    by rewrite <- list_fmap_compose.
  - by apply (produced_on_disk w).
Qed.

End RunTheorems.

Module FilterClaim.
Import Filter Sys Logger FileSpec StringFacts FilterTheorems SysFacts.

(** C7. On the name of a directory entry the filter answers 1 if the name
    is the prefix, an underscore, any 19 characters and [.log], and 0
    otherwise; what [scandir] returns with it are the entries with such
    names, each once, in ascending order. *)
Theorem filter_accepts_log_names (prefix name : string) :
  (String.length name ≤ NAME_MAX)%nat →
  (prefixFilter (thePrefix_of prefix) (Some name) = 1
   ↔ log_name prefix name)
  ∧ (prefixFilter (thePrefix_of prefix) (Some name) = 0
     ∨ prefixFilter (thePrefix_of prefix) (Some name) = 1)
  ∧ ∀ (directory : string) (w : world),
      (name ∈ log_files directory prefix (files w)
       ↔ name ∈ dir_entries directory (files w) ∧ log_name prefix name)
      ∧ StronglySorted String.le (log_files directory prefix (files w))
      ∧ NoDup (log_files directory prefix (files w))
      ∧ (may_scan w directory = true →
         (sys_scandir directory (prefixFilter (thePrefix_of prefix))
            alphasort w).1
         = Some (log_files directory prefix (files w))).
Proof.
  intros Hlen. split; [by apply prefixFilter_log_name|].
  split; [apply prefixFilter_bool|].
  intros directory w. split; [apply elem_of_log_files|].
  split; [apply scandir_names_sorted|].
  split; [apply NoDup_scandir_names|].
  intros Hscan. unfold sys_scandir. by rewrite Hscan.
Qed.

Lemma filter_accepts_log_names_witness :
  prefixFilter (thePrefix_of "p") (Some "p_2024-01-01_00-00-00.log") = 1
  ↔ log_name "p" "p_2024-01-01_00-00-00.log".
Proof.
  apply (filter_accepts_log_names "p" "p_2024-01-01_00-00-00.log").
  unfold NAME_MAX. simpl. lia.
Defined.

End FilterClaim.

Module Witnesses.
Import CInt Options Filter Sys Logger FileSpec TraceSpec Utc Scenario.
Import PurgeTheorems LoopTheorems RunTheorems.

Example three_logs_listing :
  log_files "d" "p" three_logs
  = ["p_2024-01-01_00-00-00.log"; "p_2024-01-01_00-00-01.log";
     "p_2024-01-01_00-00-02.log"].
Proof. vm_compute. reflexivity. Qed.



Lemma chunks_are_not_split_witness :
  ∃ evs,
    later (world_with ∅ 9)
      (copy_loop {| limits := {| sizeLimit := 20; ageLimit := 10;
                                 numberToKeep := 1 |};
                    directory := "d"; prefix := "p" |}
         three_reads
         {| fd := FdLog "d/p_2024-01-01_00-00-00.log";
            lastTime := 1704067200; total := 0; last_char := newline |}
         (world_with ∅ 9)).2 evs
    ∧ turns {| limits := {| sizeLimit := 20; ageLimit := 10;
                            numberToKeep := 1 |};
               directory := "d"; prefix := "p" |}
        (world_with ∅ 9)
        {| fd := FdLog "d/p_2024-01-01_00-00-00.log";
           lastTime := 1704067200; total := 0; last_char := newline |}
        (delivered three_reads) (calls_of evs)
    ∧ stdout_data evs = delivered three_reads
    ∧ Forall full_write evs.
Proof.
  destruct (chunks_are_not_split
              {| limits := {| sizeLimit := 20; ageLimit := 10;
                              numberToKeep := 1 |};
                 directory := "d"; prefix := "p" |}
              three_reads
              {| fd := FdLog "d/p_2024-01-01_00-00-00.log";
                 lastTime := 1704067200; total := 0; last_char := newline |}
              (world_with ∅ 9)) as (evs & H1 & H2 & H3 & H4).
  exists evs. split; [exact H1|]. split; [exact H2|]. split.
  - apply H3. discriminate.
  - apply H4; [reflexivity|intros p; reflexivity|discriminate].
Defined.

Lemma logs_hold_the_input_witness :
  ∃ evs ds d_open,
    later (world_with ∅ 9)
      (main small_limits ["d"; "p"] three_reads (world_with ∅ 9)).2 evs
    ∧ (main small_limits ["d"; "p"] three_reads (world_with ∅ 9)).1 = 0
    ∧ concat ds ++ d_open = input_stream three_reads
    ∧ (in_name_order (produced evs)).*2 = (sealed <$> ds) ++ [d_open]
    ∧ in_name_order (produced evs) = produced evs
    ∧ StronglySorted name_lt (produced evs).*1
    ∧ (∀ p d, (p, d) ∈ produced evs →
              (∀ e, e ∈ evs → e ≠ EvUnlink p 0) →
              files (main small_limits ["d"; "p"] three_reads
                       (world_with ∅ 9)).2 !! p = Some d).
Proof.
  apply (logs_hold_the_input small_limits []
           {| sizeLimit := 1; ageLimit := 86400; numberToKeep := 1 |}
           "d" "p" [] three_reads (world_with ∅ 9)).
  - reflexivity.
  - reflexivity.
  - intros p. reflexivity.
  - reflexivity.
  - simpl. repeat (constructor; [lia|]). constructor.
  - vm_compute. reflexivity.
  - unfold names_fit, FULL_PATH_LEN. simpl. lia.
Defined.

(** C1, as the claim has it, fails.  With a directory name of 230
    characters the names of the log files are cut to the 239 characters
    the buffer holds: the two files of this run have the same name, the
    second [creat] empties the file of the first, and of the 44 bytes of
    the input the disk holds the last 7 at the end, though every
    [write] was complete and every [creat] succeeded. *)
Lemma long_directory_loses_input :
  (main small_limits [long_directory; "p"] three_reads (world_with ∅ 9)).1
  = 0
  ∧ length (input_stream three_reads) = 44%nat
  ∧ Forall full_write
      (trace (main small_limits [long_directory; "p"] three_reads
                (world_with ∅ 9)).2)
  ∧ LoopRead.creat_calls
      (trace (main small_limits [long_directory; "p"] three_reads
                (world_with ∅ 9)).2)
    = [long_directory +:+ "/p_2024-0"; long_directory +:+ "/p_2024-0"]
  ∧ (produced
       (trace (main small_limits [long_directory; "p"] three_reads
                 (world_with ∅ 9)).2)).*1
    = [long_directory +:+ "/p_2024-0"; long_directory +:+ "/p_2024-0"]
  ∧ map_to_list
      (files (main small_limits [long_directory; "p"] three_reads
                (world_with ∅ 9)).2)
    = [(long_directory +:+ "/p_2024-0",
        bytes "abc" ++ [newline] ++ bytes "def")].
Proof.
  split; [by vm_compute|]. split; [by vm_compute|].
  split; [vm_compute; repeat constructor|].
  split; [by vm_compute|]. split; by vm_compute.
Qed.

(** The run of the witness, computed. *)
Example small_run_files :
  map_to_list (files (main small_limits ["d"; "p"] three_reads
                        (world_with ∅ 9)).2)
  = [("d/p_2024-01-01_00-00-01.log",
      bytes "hello world, this is more than twenty" ++ [newline]);
     ("d/p_2024-01-01_00-00-04.log",
      bytes "abc" ++ [newline] ++ bytes "def")].
Proof. vm_compute. reflexivity. Qed.

Example small_run_produced :
  produced (trace (main small_limits ["d"; "p"] three_reads
                     (world_with ∅ 9)).2)
  = [("d/p_2024-01-01_00-00-01.log",
      bytes "hello world, this is more than twenty" ++ [newline]);
     ("d/p_2024-01-01_00-00-04.log",
      bytes "abc" ++ [newline] ++ bytes "def")].
Proof. vm_compute. reflexivity. Qed.

(** The purging example of the specification. *)
Example purge_three_logs :
  map_to_list (files (purgeOldFiles "d" "p" 2 (world_with three_logs 0)))
  = map_to_list
      (delete "d/p_2024-01-01_00-00-00.log" three_logs).
Proof. vm_compute. reflexivity. Qed.

(** With a directory name of 230 characters the paths do not fit the
    buffer of [purgeOldFiles]: the unlink fails and the file stays. *)
Example purge_long_directory :
  let f := <[long_directory +:+ "/p_2024-01-01_00-00-00.log" := bytes "a"]>
             (<[long_directory +:+ "/p_2024-01-01_00-00-01.log" := bytes "b"]> ∅) in
  log_files long_directory "p"
    (files (purgeOldFiles long_directory "p" 1 (world_with f 0)))
  = ["p_2024-01-01_00-00-00.log"; "p_2024-01-01_00-00-01.log"].
Proof. vm_compute. reflexivity. Qed.

End Witnesses.

Module Smoke.
Import CInt Scan Options ArgSpec ArgCode Utc.

Example scan_6h : sscanf_ld_c "6h" 0 " " = (2, 6, "h"%char).
Proof. reflexivity. Qed.

Example scan_minus : sscanf_ld_c "-5" 0 " " = (1, 2 ^ 64 - 5, " "%char).
Proof. reflexivity. Qed.

Example scan_empty : sscanf_ld_c "" 0 " " = (-1, 0, " "%char).
Proof. reflexivity. Qed.

Example scan_letters : sscanf_ld_c "abc" 0 " " = (0, 0, " "%char).
Proof. reflexivity. Qed.

Example readme_options :
  parse_options [GotAge "6h"; GotKeep "28"]
  = ([], Next {| sizeLimit := 50000000; ageLimit := 21600;
                 numberToKeep := 28 |}).
Proof. reflexivity. Qed.

Example default_size : parsed Size "50M" = Some (sizeLimit defaults).
Proof. reflexivity. Qed.

Example unit_then_more : parsed Duration "5mm" = Some 300.
Proof. reflexivity. Qed.

Example no_number_letters : no_number "abc" = true.
Proof. reflexivity. Qed.

Example utc_image_2024 : utc_image 1704067200 = "2024-01-01_00-00-00".
Proof. reflexivity. Qed.

Example utc_image_readme : utc_image 1651422182 = "2022-05-01_16-23-02".
Proof. reflexivity. Qed.

Example utc_image_10000 : utc_image 253402300800 = "10000-01-01_00-00-00".
Proof. by vm_compute. Qed.

(** A count beyond the range of [int] is cut to 32 bits, and the count
    is then raised to 1. *)
Example keep_3000000000 :
  atoi "3000000000" = -1294967296
  ∧ parse_options [GotKeep "3000000000"]
    = ([], Next {| sizeLimit := 50000000; ageLimit := 86400;
                   numberToKeep := 1 |}).
Proof. by vm_compute. Qed.

Example sign_and_bad_modifier :
  turned_down Duration "+5x" ∧ turned_down Size " 5Q".
Proof.
  split.
  - apply (BadModifier Duration "+5x" 1 "5" "x" EmptyString);
      [|discriminate|reflexivity].
    by apply (NumberAtStart "+5x" 1 "5" "x" EmptyString "+").
  - apply (BadModifier Size " 5Q" 1 "5" "Q" EmptyString);
      [|discriminate|reflexivity].
    by apply (NumberAtStart " 5Q" 1 "5" "Q" " " EmptyString).
Qed.

End Smoke.

Module OptionExtras.
Import CInt Scan Options ArgSpec ArgCode OptionRead Sys Logger TraceSpec.
Import StringFacts OptionFacts WorldFacts StepFacts.

(** The option loop handles the options from left to right: the first
    one that returns from [main] ends it with its status and what was
    printed so far, and the options after it are not looked at. *)
Theorem options_stop_at_first_return (os1 os2 : list getopt_ret)
    (s : settings) :
  process_options (os1 ++ os2) s
  = match process_options os1 s with
    | (out, Return status) => (out, Return status)
    | (out, Next s1) =>
        let '(out', t) := process_options os2 s1 in (out ++ out', t)
    end.
Proof.
  revert s. induction os1 as [|o os1 IH]; intros s.
  - simpl. by destruct (process_options os2 s).
  - simpl. destruct (process_option o s) as [out [status|s1]]; [done|].
    rewrite IH. destruct (process_options os1 s1) as [out1 [status|s2]];
      [done|].
    destruct (process_options os2 s2) as [out2 t]. by rewrite List.app_assoc.
Qed.

Lemma process_option_Next (o : getopt_ret) (s s' : settings)
    (out : list printed) :
  process_option o s = (out, Next s') →
  match o with
  | GotAge a =>
      out = [] ∧ parsed Duration a = Some (ageLimit s')
      ∧ sizeLimit s' = sizeLimit s ∧ numberToKeep s' = numberToKeep s
  | GotSize a =>
      out = [] ∧ parsed Size a = Some (sizeLimit s')
      ∧ ageLimit s' = ageLimit s ∧ numberToKeep s' = numberToKeep s
  | GotKeep a =>
      out = [] ∧ numberToKeep s' = atoi a
      ∧ ageLimit s' = ageLimit s ∧ sizeLimit s' = sizeLimit s
  | GotOther c => out = [PGetoptCode c] ∧ s' = s
  | _ => False
  end.
Proof.
  destruct o as [name oa| | |a|a|a| |c]; simpl; try done.
  - unfold parsed. simpl. unfold case_age.
    destruct (sscanf_ld_c a 0 " ") as [[n v] xx].
    destruct (n <? 1); [done|].
    destruct (if n =? 2 then age_scale v xx else Some v); [|done].
    by intros [= <- <-].
  - unfold parsed. simpl. unfold case_size.
    destruct (sscanf_ld_c a 0 " ") as [[n v] xx].
    destruct (n <? 1); [done|].
    destruct (if n =? 2 then size_scale v xx else Some v); [|done].
    by intros [= <- <-].
  - unfold case_keep. by intros [= <- <-].
  - by intros [= <- <-].
Qed.

(** From any values of the three variables: after a loop that runs to
    its end each variable holds what the last option for it stored, or
    what it held before. *)
Lemma process_options_last (os : list getopt_ret) (s0 s : settings)
    (out : list printed) :
  process_options os s0 = (out, Next s) →
  out = other_codes os
  ∧ match last (age_args os) with
    | Some a => parsed Duration a = Some (ageLimit s)
    | None => ageLimit s = ageLimit s0
    end
  ∧ match last (size_args os) with
    | Some a => parsed Size a = Some (sizeLimit s)
    | None => sizeLimit s = sizeLimit s0
    end
  ∧ match last (keep_args os) with
    | Some a => numberToKeep s = atoi a
    | None => numberToKeep s = numberToKeep s0
    end.
Proof.
  revert s0 out. induction os as [|o os IH]; intros s0 out.
  - simpl. by intros [= <- <-].
  - simpl. destruct (process_option o s0) as [out1 [status|s1]] eqn:E1;
      [done|].
    destruct (process_options os s1) as [out2 t] eqn:E2.
    intros [= <- ->].
    destruct (IH _ _ E2) as (Hout & Ha & Hs & Hk). subst out2.
    apply process_option_Next in E1.
    destruct o as [name oa| | |a|a|a| |c]; try done; simpl in E1.
    + destruct E1 as (-> & Hp & Hs1 & Hk1). split; [done|].
      change (age_args (GotAge a :: os)) with (a :: age_args os).
      change (size_args (GotAge a :: os)) with (size_args os).
      change (keep_args (GotAge a :: os)) with (keep_args os).
      split; [|split].
      * destruct (age_args os) as [|a' l] eqn:El; simpl in Ha |- *.
        -- by rewrite Ha.
        -- change (last (a :: a' :: l)) with (last (a' :: l)).
           destruct (last (a' :: l)) eqn:E; [done|]. by apply last_None in E.
      * destruct (last (size_args os)); [done|]. by rewrite Hs.
      * destruct (last (keep_args os)); [done|]. by rewrite Hk.
    + destruct E1 as (-> & Hp & Ha1 & Hk1). split; [done|].
      change (age_args (GotSize a :: os)) with (age_args os).
      change (size_args (GotSize a :: os)) with (a :: size_args os).
      change (keep_args (GotSize a :: os)) with (keep_args os).
      split; [|split].
      * destruct (last (age_args os)); [done|]. by rewrite Ha.
      * destruct (size_args os) as [|a' l] eqn:El; simpl in Hs |- *.
        -- by rewrite Hs.
        -- change (last (a :: a' :: l)) with (last (a' :: l)).
           destruct (last (a' :: l)) eqn:E; [done|]. by apply last_None in E.
      * destruct (last (keep_args os)); [done|]. by rewrite Hk.
    + destruct E1 as (-> & Hp & Ha1 & Hs1). split; [done|].
      change (age_args (GotKeep a :: os)) with (age_args os).
      change (size_args (GotKeep a :: os)) with (size_args os).
      change (keep_args (GotKeep a :: os)) with (a :: keep_args os).
      split; [|split].
      * destruct (last (age_args os)); [done|]. by rewrite Ha.
      * destruct (last (size_args os)); [done|]. by rewrite Hs.
      * destruct (keep_args os) as [|a' l] eqn:El; simpl in Hk |- *.
        -- by rewrite Hk.
        -- change (last (a :: a' :: l)) with (last (a' :: l)).
           destruct (last (a' :: l)) eqn:E; [done|]. by apply last_None in E.
    + destruct E1 as (-> & ->). done.
Qed.

(** When the option loop runs to its end, each limit is the one of the
    last option given for it, and the default where there is none; an
    option changes no limit but its own, and nothing is printed but the
    codes of options [getopt_long] should not return. *)
Theorem last_option_wins (os : list getopt_ret) (out : list printed)
    (s : settings) :
  process_options os defaults = (out, Next s) →
  out = other_codes os
  ∧ match last (age_args os) with
    | Some a => parsed Duration a = Some (ageLimit s)
    | None => ageLimit s = 86400
    end
  ∧ match last (size_args os) with
    | Some a => parsed Size a = Some (sizeLimit s)
    | None => sizeLimit s = 50000000
    end
  ∧ match last (keep_args os) with
    | Some a => numberToKeep s = atoi a
    | None => numberToKeep s = 40
    end.
Proof. apply process_options_last. Qed.

Lemma last_option_wins_witness :
  parsed Duration "2m" = Some 120.
Proof.
  pose proof (last_option_wins
                [GotAge "5"; GotSize "1K"; GotAge "2m"] []
                {| sizeLimit := 1000; ageLimit := 120; numberToKeep := 40 |}
                eq_refl) as (_ & H & _).
  exact H.
Defined.

Lemma printf_oracles (ps : list printed) (w : world) :
  may_mkdir (printf ps w) = may_mkdir w
  ∧ may_creat (printf ps w) = may_creat w
  ∧ time_image (printf ps w) = time_image w
  ∧ files (printf ps w) = files w
  ∧ now (printf ps w) = now w
  ∧ ticks (printf ps w) = ticks w.
Proof.
  revert w. induction ps as [|p ps IH]; intros w; [done|].
  simpl. apply (IH (emit (EvPrintf p) w)).
Qed.

Lemma printf_app (ps qs : list printed) (w : world) :
  printf (ps ++ qs) w = printf qs (printf ps w).
Proof. unfold printf. by rewrite foldl_app. Qed.

(** The descriptor [nextFile] returns is decided by [creat] alone. *)
Lemma nextFile_fd (directory prefix : string) (keep : Z) (w : world) :
  fst (nextFile directory prefix keep w)
  = if may_creat w
         (name_at w directory prefix (fst (tick (now w) (ticks w))))
    then FdLog (name_at w directory prefix (fst (tick (now w) (ticks w))))
    else FdBad.
Proof.
  unfold nextFile.
  destruct (later_purgeOldFiles directory prefix keep w)
    as (ret & q1 & Hp & Hq1 & Hn1 & Ht1 & Ho1).
  set (w1 := purgeOldFiles directory prefix keep w) in *.
  destruct (later_sys_time w1) as (Hl2 & _).
  destruct (sys_time_clock w1) as (Hn2 & Ht2 & Hr2).
  destruct (sys_time w1) as [tn w2]. simpl in *.
  rewrite Hn1, Ht1 in *. subst tn.
  assert (Himg : time_image w2 = time_image w).
  { rewrite (later_image _ _ _ Hl2). apply (later_image _ _ _ Hp). }
  assert (Hc : may_creat w2 = may_creat w).
  { rewrite (later_creat _ _ _ Hl2). apply (later_creat _ _ _ Hp). }
  rewrite Himg. unfold name_at, sys_creat. rewrite Hc.
  by destruct (may_creat w _).
Qed.

(** Once the options are accepted and two arguments are there, the exit
    status is decided before any input is read: it is 0 when the
    directory could be made and the first log file created, whatever
    the reads and writes do afterwards, and 2 otherwise, in which case
    the input is not looked at. *)
Theorem start_decides_exit_status (os : list getopt_ret)
    (out : list printed) (s0 : settings) (directory prefix : string)
    (more : list string) (reads : list read_result) (w : world) :
  process_options os defaults = (out, Next s0) →
  (main os (directory :: prefix :: more) reads w).1
  = (if started w directory prefix then 0 else 2)
  ∧ (started w directory prefix = false →
     main os (directory :: prefix :: more) reads w
     = main os (directory :: prefix :: more) [] w).
Proof.
  intros Hopts. unfold main. rewrite Hopts. unfold run, started.
  destruct (printf_oracles out w) as (Hmk & Hcr & Him & _ & Hnow & Hticks).
  set (wp := printf out w) in *.
  set (w1 := printf _ wp).
  unfold mkdir_parents.
  assert (may_mkdir w1 directory = may_mkdir w directory) as ->
    by (by rewrite <- Hmk).
  destruct (may_mkdir w directory); cbv iota beta; simpl negb; cbv iota;
    [|done].
  set (w2 := emit (EvMkdirParents directory true) w1).
  pose proof (nextFile_fd directory prefix (numberToKeep (sanitise s0)) w2)
    as Hfd.
  change (now w2) with (now wp) in Hfd.
  change (ticks w2) with (ticks wp) in Hfd.
  change (may_creat w2) with (may_creat wp) in Hfd.
  change (name_at w2) with (name_at wp) in Hfd.
  assert (Hname : name_at wp = name_at w)
    by (unfold name_at; by rewrite Him).
  rewrite Hnow, Hticks, Hcr, Hname in Hfd.
  destruct (nextFile directory prefix (numberToKeep (sanitise s0)) w2)
    as [fd0 w3].
  simpl in Hfd. subst fd0. simpl andb.
  destruct (may_creat w _); [|done].
  destruct (sys_time w3) as [lastTime0 w4].
  destruct (copy_loop _ reads _ w4) as [[numberRead st'] w5].
  done.
Qed.

Lemma start_decides_exit_status_witness :
  (main [GotKeep "3"] ["d"; "p"] [ReadFail] (Scenario.world_with ∅ 2)).1
  = (if started (Scenario.world_with ∅ 2) "d" "p" then 0 else 2).
Proof.
  apply (start_decides_exit_status [GotKeep "3"] []
           {| sizeLimit := 50000000; ageLimit := 86400;
              numberToKeep := 3 |} "d" "p" [] [ReadFail]
           (Scenario.world_with ∅ 2)).
  reflexivity.
Defined.

(** The exit status 1 means a usage error: the usage text is the last
    thing printed, and the program has done nothing but print; it has
    made or removed no file and read no input. *)
Theorem status_1_is_usage_error (os : list getopt_ret)
    (args : list string) (reads : list read_result) (w : world) :
  (main os args reads w).1 = 1 →
  ∃ out,
    (main os args reads w).2 = printf (out ++ printUsage) w
    ∧ files (main os args reads w).2 = files w
    ∧ trace (main os args reads w).2
      = trace w ++ (EvPrintf <$> out ++ printUsage).
Proof.
  intros H.
  assert (Hgoal : ∃ out, (main os args reads w).2
                         = printf (out ++ printUsage) w).
  { revert H. unfold main.
    destruct (process_options os defaults) as [out [status|s]] eqn:E.
    - simpl. intros ->.
      assert (Hout : ∃ out', out = out' ++ printUsage).
      { clear -E. revert E. generalize defaults. revert out.
        induction os as [|o os IH]; intros out s0; [done|].
        simpl. destruct (process_option o s0) as [out1 [status|s1]] eqn:E1.
        - intros [= <- ->].
          destruct o as [name oa| | |a|a|a| |c]; simpl in E1.
          + discriminate E1.
          + discriminate E1.
          + discriminate E1.
          + unfold case_age in E1.
            destruct (sscanf_ld_c a 0 " ") as [[n v] xx].
            destruct (n <? 1); [injection E1 as <-; by exists []|].
            destruct (if n =? 2 then age_scale v xx else Some v);
              [discriminate E1|]. injection E1 as <-.
            by exists [PAgeModifier xx].
          + unfold case_size in E1.
            destruct (sscanf_ld_c a 0 " ") as [[n v] xx].
            destruct (n <? 1); [injection E1 as <-; by exists []|].
            destruct (if n =? 2 then size_scale v xx else Some v);
              [discriminate E1|]. injection E1 as <-.
            by exists [PSizeModifier xx].
          + discriminate E1.
          + injection E1 as <-. by exists [].
          + discriminate E1.
        - destruct (process_options os s1) as [out2 t] eqn:E2.
          intros [= <- ->].
          destruct (IH _ _ E2) as [out' ->].
          exists (out1 ++ out'). by rewrite List.app_assoc. }
      destruct Hout as [out' ->]. by exists out'.
    - unfold run. destruct args as [|directory [|prefix more]].
      + intros _. exists (out ++ [PMissingArguments]). simpl.
        by rewrite <- !List.app_assoc, printf_app.
      + intros _. exists (out ++ [PMissingArguments]). simpl.
        by rewrite <- !List.app_assoc, printf_app.
      + unfold mkdir_parents.
        destruct (may_mkdir _ directory); cbv iota beta; simpl negb;
          cbv iota; [|done].
        destruct (nextFile _ _ _ _) as [[|path|] w3]; [| |done].
        * destruct (sys_time w3) as [lastTime0 w4].
          by destruct (copy_loop _ reads _ w4) as [[numberRead st'] w5].
        * destruct (sys_time w3) as [lastTime0 w4].
          by destruct (copy_loop _ reads _ w4) as [[numberRead st'] w5]. }
  destruct Hgoal as [out ->]. exists out. split; [done|].
  destruct (printf_oracles (out ++ printUsage) w) as (_ & _ & _ & Hf & _).
  split; [done|].
  apply (later_trace _ _ _ (later_printf (out ++ printUsage) w)).
Qed.

Lemma status_1_is_usage_error_witness :
  ∃ out,
    (main [GotAge "5x"] ["d"; "p"] [] (Scenario.world_with ∅ 0)).2
    = printf (out ++ printUsage) (Scenario.world_with ∅ 0)
    ∧ files (main [GotAge "5x"] ["d"; "p"] [] (Scenario.world_with ∅ 0)).2
      = files (Scenario.world_with ∅ 0)
    ∧ trace (main [GotAge "5x"] ["d"; "p"] [] (Scenario.world_with ∅ 0)).2
      = trace (Scenario.world_with ∅ 0) ++ (EvPrintf <$> out ++ printUsage).
Proof.
  apply (status_1_is_usage_error [GotAge "5x"] ["d"; "p"] []
           (Scenario.world_with ∅ 0)).
  reflexivity.
Defined.

End OptionExtras.

Module PurgeExtras.
Import Filter Sys Logger FileSpec TraceSpec PurgeRead.
Import StringFacts FilterTheorems SysFacts PurgeTheorems WorldFacts StepFacts.

Lemma files_perrorf (m : string) (w : world) :
  files (perrorf m w) = files w.
Proof. done. Qed.

Lemma sys_unlink_files (path : string) (w : world) :
  files (snd (sys_unlink path w)) = files w
  ∨ files (snd (sys_unlink path w)) = delete path (files w).
Proof.
  unfold sys_unlink. destruct (files w !! path); [|by left].
  destruct (may_unlink w path); [by right|by left].
Qed.

Lemma purge_from_frame (directory : string) (n keep : Z)
    (namelist : list string) (j : Z) (w : world) (p : string) :
  files (purge_from directory n keep j namelist w) !! p = files w !! p
  ∨ (files (purge_from directory n keep j namelist w) !! p = None
     ∧ ∃ name, name ∈ take (Z.to_nat (n - keep - j)) namelist
               ∧ p = unlink_path directory name).
Proof.
  revert j w. induction namelist as [|name rest IH]; intros j w; [by left|].
  simpl purge_from.
  destruct (Z.ltb_spec j (n - keep)) as [Hj|Hj].
  - replace (Z.to_nat (n - keep - j))
      with (S (Z.to_nat (n - keep - (j + 1)))) by lia.
    fold (entry_path directory name). fold (unlink_path directory name).
    set (path := unlink_path directory name).
    set (w1 := (let '(status, w1) := sys_unlink path w in
                if status <? 0
                then perrorf ("unlink (" +:+ path +:+ ")") w1 else w1)).
    assert (Hw1 : files w1 = files w ∨ files w1 = delete path (files w)).
    { unfold w1. pose proof (sys_unlink_files path w) as H.
      destruct (sys_unlink path w) as [status w']. simpl in H.
      by destruct (status <? 0). }
    destruct (IH (j + 1) w1) as [E|(E & name' & Hin & ->)].
    + rewrite E. destruct Hw1 as [->| ->]; [by left|].
      destruct (decide (p = path)) as [->|Hne].
      * right. rewrite lookup_delete_eq. split; [done|].
        exists name. split; [by left|done].
      * left. by rewrite lookup_delete_ne.
    + right. split; [done|]. exists name'. split; [by right|done].
  - rewrite purge_from_done by lia. by left.
Qed.

Lemma purgeOldFiles_frame (directory prefix : string) (keep : Z)
    (w : world) (p : string) :
  files (purgeOldFiles directory prefix keep w) !! p = files w !! p
  ∨ (files (purgeOldFiles directory prefix keep w) !! p = None
     ∧ ∃ name, name ∈ oldest directory prefix keep (files w)
               ∧ p = unlink_path directory name).
Proof.
  unfold purgeOldFiles, sys_scandir.
  destruct (may_scan w directory); [|by left].
  fold (log_files directory prefix (files w)).
  set (L := log_files directory prefix (files w)).
  destruct (purge_from_frame directory (Z.of_nat (length L)) keep L 0
              (emit (EvScandir directory (Some L)) w) p)
    as [E|(E & name & Hin & ->)]; [by left|].
  right. split; [done|]. exists name. split; [|done].
  unfold oldest, excess. fold L. by rewrite Z.sub_0_r in Hin.
Qed.

(** Whatever the file system permits and whatever [keep] is, a purge
    makes and changes no file, and the only files it can remove are
    those at the paths it builds for the oldest listed names; every
    other file is as it was. *)
Theorem purge_removes_only_oldest (directory prefix : string) (keep : Z)
    (w : world) (p : string) :
  files (purgeOldFiles directory prefix keep w) !! p = files w !! p
  ∨ (files (purgeOldFiles directory prefix keep w) !! p = None
     ∧ is_Some (files w !! p)
     ∧ ∃ name, name ∈ oldest directory prefix keep (files w)
               ∧ p = unlink_path directory name).
Proof.
  destruct (purgeOldFiles_frame directory prefix keep w p)
    as [E|(E & name & Hin & ->)]; [by left|].
  destruct (files w !! unlink_path directory name) as [x|] eqn:Ex.
  - right. split; [done|]. split; [by eexists|]. by exists name.
  - by left.
Qed.

Lemma unlink_calls_app (e1 e2 : list event) :
  unlink_calls (e1 ++ e2) = unlink_calls e1 ++ unlink_calls e2.
Proof. apply omap_app. Qed.

Lemma scandir_calls_app (e1 e2 : list event) :
  scandir_calls (e1 ++ e2) = scandir_calls e1 ++ scandir_calls e2.
Proof. apply omap_app. Qed.

Lemma purge_from_calls (directory : string) (n keep : Z)
    (namelist : list string) (j : Z) (w : world) :
  ∃ evs,
    trace (purge_from directory n keep j namelist w) = trace w ++ evs
    ∧ unlink_calls evs
      = unlink_path directory <$> take (Z.to_nat (n - keep - j)) namelist
    ∧ scandir_calls evs = [].
Proof.
  revert j w. induction namelist as [|name rest IH]; intros j w.
  - exists []. rewrite take_nil. simpl. by rewrite app_nil_r.
  - simpl purge_from.
    destruct (Z.ltb_spec j (n - keep)) as [Hj|Hj].
    + replace (Z.to_nat (n - keep - j))
        with (S (Z.to_nat (n - keep - (j + 1)))) by lia.
      fold (entry_path directory name). fold (unlink_path directory name).
      set (path := unlink_path directory name).
      set (w1 := (let '(status, w1) := sys_unlink path w in
                  if status <? 0
                  then perrorf ("unlink (" +:+ path +:+ ")") w1 else w1)).
      assert (Hw1 : ∃ ret q, trace w1 = trace w ++ EvUnlink path ret :: q
                             ∧ unlink_calls q = [] ∧ scandir_calls q = []).
      { unfold w1. pose proof (later_sys_unlink path w) as H.
        destruct (sys_unlink path w) as [status w']. simpl in H.
        exists status. destruct (status <? 0).
        - eexists [_]. simpl. rewrite (later_trace _ _ _ H).
          by rewrite <- List.app_assoc.
        - exists []. by rewrite (later_trace _ _ _ H). }
      destruct Hw1 as (ret & q & Ht & Hq & Hs).
      destruct (IH (j + 1) w1) as (evs & Htr & Hc & Hsc).
      exists (EvUnlink path ret :: q ++ evs). split; [|split].
      * rewrite Htr, Ht. rewrite <- List.app_assoc. done.
      * change (EvUnlink path ret :: q ++ evs)
          with ([EvUnlink path ret] ++ q ++ evs).
        rewrite !unlink_calls_app, Hq, Hc. done.
      * change (EvUnlink path ret :: q ++ evs)
          with ([EvUnlink path ret] ++ q ++ evs).
        rewrite !scandir_calls_app, Hs, Hsc. done.
    + rewrite purge_from_done by lia.
      replace (Z.to_nat (n - keep - j)) with 0%nat by lia.
      exists []. by rewrite app_nil_r.
Qed.

(** The calls of a purge: one [scandir], and an [unlink] for each of
    the oldest listed names. *)
Lemma purgeOldFiles_calls (directory prefix : string) (keep : Z)
    (w : world) :
  ∃ evs,
    trace (purgeOldFiles directory prefix keep w) = trace w ++ evs
    ∧ scandir_calls evs = [directory]
    ∧ unlink_calls evs
      = if may_scan w directory
        then unlink_path directory
               <$> oldest directory prefix keep (files w)
        else [].
Proof.
  unfold purgeOldFiles, sys_scandir.
  destruct (may_scan w directory).
  - fold (log_files directory prefix (files w)).
    set (L := log_files directory prefix (files w)).
    destruct (purge_from_calls directory (Z.of_nat (length L)) keep L 0
                (emit (EvScandir directory (Some L)) w))
      as (evs & Ht & Hc & Hs).
    exists (EvScandir directory (Some L) :: evs). split; [|split].
    + rewrite Ht. simpl. by rewrite <- List.app_assoc.
    + change (EvScandir directory (Some L) :: evs)
        with ([EvScandir directory (Some L)] ++ evs).
      by rewrite scandir_calls_app, Hs.
    + change (EvScandir directory (Some L) :: evs)
        with ([EvScandir directory (Some L)] ++ evs).
      rewrite unlink_calls_app, Hc. unfold oldest, excess. fold L.
      by rewrite Z.sub_0_r.
  - eexists [_; _]. simpl. by rewrite <- List.app_assoc.
Qed.

(** What a purge does to the files depends on the files and on what
    the file system permits, not on the calls made before. *)
Lemma purge_from_files_ext (directory : string) (n keep : Z)
    (namelist : list string) (j : Z) (w w' : world) :
  files w' = files w → may_unlink w' = may_unlink w →
  files (purge_from directory n keep j namelist w')
  = files (purge_from directory n keep j namelist w).
Proof.
  revert j w w'. induction namelist as [|name rest IH]; intros j w w' Hf Hu;
    [done|].
  simpl purge_from. destruct (j <? n - keep); [|by apply IH].
  apply IH.
  - unfold sys_unlink. rewrite Hf, Hu.
    destruct (files w !! _); [destruct (may_unlink w _)|]; simpl; by rewrite ?Hf.
  - unfold sys_unlink. rewrite Hf, Hu.
    destruct (files w !! _); [destruct (may_unlink w _)|]; by simpl.
Qed.

Lemma purgeOldFiles_files_ext (directory prefix : string) (keep : Z)
    (w w' : world) :
  files w' = files w → may_scan w' = may_scan w →
  may_unlink w' = may_unlink w →
  files (purgeOldFiles directory prefix keep w')
  = files (purgeOldFiles directory prefix keep w).
Proof.
  intros Hf Hs Hu. unfold purgeOldFiles, sys_scandir. rewrite Hs, Hf.
  destruct (may_scan w directory); [|done].
  by apply purge_from_files_ext.
Qed.

(** For a number of entries and a keep count that are [int]s and not
    negative, the subtraction of [purgeOldFiles] does not overflow: the
    [int] it computes is the difference. *)
Lemma purge_difference_exact (n keep : Z) :
  0 ≤ n ≤ CInt.INT_MAX → 0 ≤ keep ≤ CInt.INT_MAX →
  CInt.to_int (n - keep) = n - keep.
Proof.
  unfold CInt.to_int, CInt.INT_MAX. intros Hn Hk.
  rewrite Z.mod_small; lia.
Qed.

(** A purge with a keep count that is not negative calls [unlink] once
    for each of the oldest listed names, in their order, whatever the
    calls return: an [unlink] that fails does not end the purge.  When
    the directory cannot be read there is no call. *)
Theorem purge_tries_every_oldest (directory prefix : string) (keep : Z)
    (w : world) :
  0 ≤ keep →
  ∃ evs,
    trace (purgeOldFiles directory prefix keep w) = trace w ++ evs
    ∧ unlink_calls evs
      = if may_scan w directory
        then unlink_path directory
               <$> oldest directory prefix keep (files w)
        else [].
Proof.
  intros _.
  destruct (purgeOldFiles_calls directory prefix keep w) as (evs & Ht & _ & Hc).
  by exists evs.
Qed.

Lemma purge_tries_every_oldest_witness :
  ∃ evs,
    trace (purgeOldFiles "d" "p" 1
             (Scenario.world_with Scenario.three_logs 0))
    = trace (Scenario.world_with Scenario.three_logs 0) ++ evs
    ∧ unlink_calls evs
      = if may_scan (Scenario.world_with Scenario.three_logs 0) "d"
        then unlink_path "d"
               <$> oldest "d" "p" 1
                     (files (Scenario.world_with Scenario.three_logs 0))
        else [].
Proof.
  apply (purge_tries_every_oldest "d" "p" 1
           (Scenario.world_with Scenario.three_logs 0)).
  lia.
Defined.

(** A second purge right after a purge finds nothing to remove: it
    lists the directory, which holds the [keep] newest log files, and
    that is all. *)
Theorem purge_twice (directory prefix : string) (keep : Z) (w : world) :
  0 ≤ keep →
  may_scan w directory = true →
  (∀ name, name ∈ oldest directory prefix keep (files w) →
           unlinkable w directory name) →
  purgeOldFiles directory prefix keep
    (purgeOldFiles directory prefix keep w)
  = emit (EvScandir directory
            (Some (newest directory prefix keep (files w))))
      (purgeOldFiles directory prefix keep w).
Proof.
  intros Hkeep Hscan Hok.
  rewrite (purgeOldFiles_amend directory prefix keep w Hscan Hok).
  set (w1 := amend _ _ w).
  assert (Hlog : log_files directory prefix (files w1)
                 = newest directory prefix keep (files w)).
  { unfold w1, oldest, newest. simpl files.
    apply log_files_after_delete. }
  assert (Hold : oldest directory prefix keep (files w1) = []).
  { unfold oldest, excess. rewrite Hlog.
    replace (Z.to_nat _) with 0%nat; [done|].
    unfold newest, excess. rewrite length_drop. lia. }
  rewrite (purgeOldFiles_amend directory prefix keep w1).
  - rewrite Hold, Hlog. simpl. rewrite emit_amend. done.
  - done.
  - rewrite Hold. intros name Hin. by apply elem_of_nil in Hin.
Qed.

Lemma purge_twice_witness :
  purgeOldFiles "d" "p" 2
    (purgeOldFiles "d" "p" 2 (Scenario.world_with Scenario.three_logs 0))
  = emit (EvScandir "d"
            (Some (newest "d" "p" 2 Scenario.three_logs)))
      (purgeOldFiles "d" "p" 2 (Scenario.world_with Scenario.three_logs 0)).
Proof.
  apply (purge_twice "d" "p" 2 (Scenario.world_with Scenario.three_logs 0)).
  - lia.
  - reflexivity.
  - intros name Hin. simpl files in Hin.
    assert (E : oldest "d" "p" 2 Scenario.three_logs
                = ["p_2024-01-01_00-00-00.log"])
      by (vm_compute; reflexivity).
    rewrite E in Hin.
    apply list_elem_of_singleton in Hin. subst name.
    split; [vm_compute; lia|reflexivity].
Defined.

Lemma has_slash_app (a b : string) :
  has_slash (a +:+ b) = has_slash a || has_slash b.
Proof.
  induction a as [|c a IH]; [done|].
  simpl. rewrite IH. by rewrite orb_assoc.
Qed.

(** With a prefix that holds a slash, or one of 232 characters or more,
    no entry of a directory is a log file for the filter: the purge
    lists nothing and removes nothing, however many files the program
    has made. *)
Theorem purge_blind_prefix (directory prefix : string) (keep : Z)
    (w : world) :
  has_slash prefix = true ∨ (232 ≤ String.length prefix)%nat →
  log_files directory prefix (files w) = []
  ∧ files (purgeOldFiles directory prefix keep w) = files w.
Proof.
  intros Hbad.
  assert (Hnone : log_files directory prefix (files w) = []).
  { apply elem_of_nil_inv. intros name Hin.
    apply elem_of_log_files in Hin as [Hin (stamp & Hst & ->)].
    apply elem_of_dir_entries in Hin as [[Hsl [_ Hlen]] _].
    rewrite !has_slash_app in Hsl. rewrite !length_app in Hlen.
    change (String.length "_") with 1%nat in Hlen.
    change (String.length ".log") with 4%nat in Hlen.
    unfold NAME_MAX in Hlen.
    destruct Hbad as [Hs|Hl]; [|lia].
    rewrite Hs in Hsl. done. }
  split; [done|].
  apply map_eq. intros p.
  destruct (purgeOldFiles_frame directory prefix keep w p)
    as [E|(_ & name & Hin & _)]; [done|].
  unfold oldest in Hin. rewrite Hnone, take_nil in Hin.
  by apply elem_of_nil in Hin.
Qed.

Lemma purge_blind_prefix_witness :
  log_files "d" "a/p" (files (Scenario.world_with Scenario.three_logs 0))
  = [].
Proof.
  apply (purge_blind_prefix "d" "a/p" 1
           (Scenario.world_with Scenario.three_logs 0)).
  left. reflexivity.
Defined.

End PurgeExtras.

Module NextFileExtras.
Import Filter Sys Logger FileSpec TraceSpec PurgeRead.
Import StringFacts FilterTheorems SysFacts PurgeTheorems WorldFacts StepFacts.
Import PurgeExtras.

(** The files after [nextFile]: those the purge left, with the new file
    empty among them when [creat] succeeded. *)
Lemma nextFile_files (directory prefix : string) (keep : Z) (w : world) :
  files (snd (nextFile directory prefix keep w))
  = if may_creat w
         (name_at w directory prefix (fst (tick (now w) (ticks w))))
    then <[name_at w directory prefix (fst (tick (now w) (ticks w))) := []]>
           (files (purgeOldFiles directory prefix keep w))
    else files (purgeOldFiles directory prefix keep w).
Proof.
  unfold nextFile.
  destruct (later_purgeOldFiles directory prefix keep w)
    as (ret & q1 & Hp & Hq1 & Hn1 & Ht1 & Ho1).
  set (w1 := purgeOldFiles directory prefix keep w) in *.
  destruct (later_sys_time w1) as (Hl2 & _).
  destruct (sys_time_clock w1) as (Hn2 & Ht2 & Hr2).
  assert (Hf2 : files (snd (sys_time w1)) = files w1).
  { unfold sys_time. by destruct (tick (now w1) (ticks w1)). }
  destruct (sys_time w1) as [tn w2]. simpl in *.
  rewrite Hn1, Ht1 in *. subst tn.
  assert (Himg : time_image w2 = time_image w).
  { rewrite (later_image _ _ _ Hl2). apply (later_image _ _ _ Hp). }
  assert (Hc : may_creat w2 = may_creat w).
  { rewrite (later_creat _ _ _ Hl2). apply (later_creat _ _ _ Hp). }
  rewrite Himg. unfold name_at, sys_creat. rewrite Hc.
  destruct (may_creat w _); simpl; by rewrite Hf2.
Qed.

Lemma nextFile_fd' (directory prefix : string) (keep : Z) (w : world) :
  may_creat w (name_at w directory prefix (fst (tick (now w) (ticks w))))
  = true →
  fst (nextFile directory prefix keep w)
  = FdLog (name_at w directory prefix (fst (tick (now w) (ticks w)))).
Proof.
  destruct (nextFile_later directory prefix keep w)
    as (ret & q1 & q2 & _ & _ & _ & _ & _ & _ & _ & Hok & _).
  exact Hok.
Qed.

Lemma name_at_fits (w : world) (directory prefix stamp : string) (t : Z) :
  time_image w t = stamp →
  (String.length
     (entry_path directory (prefix +:+ "_" +:+ stamp +:+ ".log"))
   < FULL_PATH_LEN)%nat →
  name_at w directory prefix t
  = entry_path directory (prefix +:+ "_" +:+ stamp +:+ ".log").
Proof.
  intros Hst Hfit. unfold name_at, filename_of. rewrite Hst.
  unfold entry_path in *. apply snprintf_fits.
  unfold FULL_PATH_LEN in *. lia.
Qed.

(** A log file [nextFile] makes is one the next purge lists: when its
    path fits the buffer for file names, and neither the prefix nor the
    image of the time holds a slash, the new file is there, empty, and
    its name passes the filter. *)
Theorem created_file_is_listed (directory prefix stamp : string)
    (keep : Z) (w : world) :
  time_image w (fst (tick (now w) (ticks w))) = stamp →
  String.length stamp = 19%nat →
  has_slash prefix = false → has_slash stamp = false →
  (String.length
     (entry_path directory (prefix +:+ "_" +:+ stamp +:+ ".log"))
   < FULL_PATH_LEN)%nat →
  may_creat w (entry_path directory (prefix +:+ "_" +:+ stamp +:+ ".log"))
  = true →
  fst (nextFile directory prefix keep w)
  = FdLog (entry_path directory (prefix +:+ "_" +:+ stamp +:+ ".log"))
  ∧ files (snd (nextFile directory prefix keep w))
      !! entry_path directory (prefix +:+ "_" +:+ stamp +:+ ".log")
    = Some []
  ∧ prefix +:+ "_" +:+ stamp +:+ ".log"
    ∈ log_files directory prefix (files (snd (nextFile directory prefix keep w))).
Proof.
  intros Hst Hlen Hp Hs Hfit Hcr.
  pose proof (name_at_fits w directory prefix stamp _ Hst Hfit) as Hname.
  pose proof (nextFile_files directory prefix keep w) as Hf.
  pose proof (nextFile_fd' directory prefix keep w) as Hfd.
  rewrite Hname in Hf, Hfd. rewrite Hcr in Hf. specialize (Hfd Hcr).
  split; [done|]. rewrite Hf. split; [apply lookup_insert_eq|].
  apply elem_of_log_files. split.
  - apply elem_of_dir_entries. split.
    + split.
      * rewrite !has_slash_app, Hp, Hs. done.
      * unfold entry_path, FULL_PATH_LEN, NAME_MAX in *.
        rewrite !length_app in *.
        change (String.length "_") with 1%nat in *.
        change (String.length ".log") with 4%nat in *.
        change (String.length "/") with 1%nat in *. lia.
    + rewrite lookup_insert_eq. by eexists.
  - by exists stamp.
Qed.

Lemma created_file_is_listed_witness :
  "p_2024-01-01_00-00-01.log"
  ∈ log_files "d" "p"
      (files (snd (nextFile "d" "p" 2
                     (Scenario.world_with Scenario.three_logs 1)))).
Proof.
  apply (created_file_is_listed "d" "p" "2024-01-01_00-00-01" 2
           (Scenario.world_with Scenario.three_logs 1));
    try reflexivity.
  vm_compute. lia.
Defined.

Lemma log_files_insert (directory prefix path : string) (d : list byte)
    (f : gmap string (list byte)) :
  (length (log_files directory prefix (<[path := d]> f))
   ≤ S (length (log_files directory prefix f)))%nat.
Proof.
  set (x := default EmptyString (entry_name directory path)).
  change (S (length (log_files directory prefix f)))
    with (length (x :: log_files directory prefix f)).
  apply submseteq_length, NoDup_submseteq; [apply NoDup_scandir_names|].
  intros name Hin.
  apply elem_of_log_files in Hin as [Hin Hlog].
  apply elem_of_dir_entries in Hin as [Hv [y Hy]].
  destruct (decide (path = entry_path directory name)) as [->|Hne].
  - apply elem_of_cons. left. unfold x.
    assert (entry_name directory (entry_path directory name) = Some name)
      as -> by (by apply entry_name_Some).
    done.
  - right. rewrite lookup_insert_ne in Hy by done.
    apply elem_of_log_files. split; [|done].
    apply elem_of_dir_entries. split; [done|by eexists].
Qed.

(** After [nextFile] the directory holds at most [keep] + 1 log files
    of the prefix: the purge leaves at most [keep], and the new file is
    at most one more. *)
Theorem at_most_keep_plus_one (directory prefix : string) (keep : Z)
    (w : world) :
  0 ≤ keep →
  may_scan w directory = true →
  (∀ name, name ∈ oldest directory prefix keep (files w) →
           unlinkable w directory name) →
  Z.of_nat (length (log_files directory prefix
                      (files (snd (nextFile directory prefix keep w)))))
  ≤ keep + 1.
Proof.
  intros Hkeep Hscan Hok.
  assert (Hpurged : (Z.of_nat (length (log_files directory prefix
                        (files (purgeOldFiles directory prefix keep w))))
                     ≤ keep)).
  { rewrite (purgeOldFiles_amend directory prefix keep w Hscan Hok).
    simpl files. unfold oldest. rewrite log_files_after_delete.
    rewrite length_drop. unfold excess. lia. }
  rewrite nextFile_files.
  destruct (may_creat w _); [|lia].
  pose proof (log_files_insert directory prefix
                (name_at w directory prefix (tick (now w) (ticks w)).1) []
                (files (purgeOldFiles directory prefix keep w))).
  lia.
Qed.

Lemma at_most_keep_plus_one_witness :
  Z.of_nat (length (log_files "d" "p"
              (files (snd (nextFile "d" "p" 2
                             (Scenario.world_with Scenario.three_logs 1))))))
  ≤ 2 + 1.
Proof.
  apply (at_most_keep_plus_one "d" "p" 2
           (Scenario.world_with Scenario.three_logs 1)).
  - lia.
  - reflexivity.
  - intros name Hin. simpl files in Hin.
    assert (E : oldest "d" "p" 2 Scenario.three_logs
                = ["p_2024-01-01_00-00-00.log"])
      by (vm_compute; reflexivity).
    rewrite E in Hin.
    apply list_elem_of_singleton in Hin. subst name.
    split; [vm_compute; lia|reflexivity].
Defined.

End NextFileExtras.

Module LoopExtras.
Import CInt Options Filter Sys Logger FileSpec TraceSpec OptionRead LoopRead.
Import WorldFacts StepFacts TraceFacts LoopFacts RunFacts.
Import OptionExtras NextFileExtras.

Lemma creat_calls_app (e1 e2 : list event) :
  creat_calls (e1 ++ e2) = creat_calls e1 ++ creat_calls e2.
Proof. apply omap_app. Qed.

Lemma creat_calls_quiet (evs : list event) :
  Forall quiet evs → creat_calls evs = [].
Proof.
  induction 1 as [|e evs He _ IH]; [done|].
  change (e :: evs) with ([e] ++ evs). rewrite creat_calls_app, IH.
  by destruct e.
Qed.

Lemma write_calls_app (e1 e2 : list event) :
  write_calls (e1 ++ e2) = write_calls e1 ++ write_calls e2.
Proof. apply omap_app. Qed.

Lemma write_calls_quiet (evs : list event) :
  Forall quiet evs → write_calls evs = [].
Proof.
  induction 1 as [|e evs He _ IH]; [done|].
  change (e :: evs) with ([e] ++ evs). rewrite write_calls_app, IH.
  by destruct e.
Qed.

Lemma write_calls_cons_quiet (e : event) (evs : list event) :
  quiet e → write_calls (e :: evs) = write_calls evs.
Proof. by destruct e. Qed.

Lemma creat_calls_cons_quiet (e : event) (evs : list event) :
  quiet e → creat_calls (e :: evs) = creat_calls evs.
Proof. by destruct e. Qed.

Lemma foldl_replay_inert (evs : list event) (f : gmap string (list byte)) :
  Forall inert evs → foldl replay f evs = f.
Proof.
  intros H. revert f. induction H as [|e evs He _ IH]; intros f; [done|].
  simpl. rewrite <- (IH f) at 2. f_equal. by destruct e.
Qed.

Lemma creat_calls_tee (fd0 : fdesc) (b : list byte) (r1 r2 t : Z)
    (mm : list event) (evs : list event) :
  Forall quiet mm →
  creat_calls
    (([EvWrite FdStdout b r1; EvWrite fd0 b r2] ++ mm ++ [EvTime t]) ++ evs)
  = creat_calls evs.
Proof.
  intros Hmm. rewrite !creat_calls_app, (creat_calls_quiet mm) by done. done.
Qed.

Lemma creat_calls_rotation c st w rn ret q1 q2 tn fd' tl :
  Forall purge_event q1 → Forall quiet q2 →
  creat_calls (rotation_events c st w rn ret q1 q2 tn fd' tl)
  = [name_at w (directory c) (prefix c) tn].
Proof.
  intros Hq1 Hq2. unfold rotation_events.
  rewrite !creat_calls_app.
  rewrite (creat_calls_quiet (_ :: q1))
    by (constructor; [done|eapply Forall_impl; [done|apply purge_event_quiet]]).
  rewrite (creat_calls_quiet q2) by done.
  by destruct (Byte.eqb (last_char st) newline).
Qed.

(** The calls of [creat] the copy loop makes are for instants that
    strictly increase and are later than the time the current file was
    made at, when the clock does not go back. *)
Lemma copy_loop_creats (c : config) (reads : list read_result) :
  1 ≤ ageLimit (limits c) →
  ∀ (st : loop_state) (w : world),
    Forall (λ d, 0 ≤ d) (ticks w) →
    ∃ evs times,
      later w (copy_loop c reads st w).2 evs
      ∧ creat_calls evs
        = name_at w (directory c) (prefix c) <$> times
      ∧ StronglySorted Z.lt times
      ∧ Forall (λ t, lastTime st < t ∧ t ∈ instants (now w) (ticks w)) times.
Proof.
  intros Hage. induction reads as [|r reads IH]; intros st w Hts.
  - simpl. exists [EvRead (ReadBytes [])], [].
    split; [by apply later_emit|]. repeat split; constructor.
  - assert (Hstop : ∀ e, inert e → quiet e →
              ∃ evs times,
                later w (emit e w) evs
                ∧ creat_calls evs
                  = name_at w (directory c) (prefix c) <$> times
                ∧ StronglySorted Z.lt times
                ∧ Forall (λ t, lastTime st < t
                               ∧ t ∈ instants (now w) (ticks w)) times).
    { intros e Hi Hq. exists [e], [].
      split; [by apply later_emit|]. split; [by destruct e|].
      split; constructor. }
    assert (Hskip : ∀ e st1 w',
              inert e → quiet e → lastTime st1 = lastTime st →
              (∃ evs times,
                  later (emit e w) w' evs
                  ∧ creat_calls evs
                    = name_at (emit e w) (directory c) (prefix c) <$> times
                  ∧ StronglySorted Z.lt times
                  ∧ Forall (λ t, lastTime st1 < t
                                 ∧ t ∈ instants (now (emit e w))
                                         (ticks (emit e w))) times) →
              ∃ evs times,
                later w w' evs
                ∧ creat_calls evs
                  = name_at w (directory c) (prefix c) <$> times
                ∧ StronglySorted Z.lt times
                ∧ Forall (λ t, lastTime st < t
                               ∧ t ∈ instants (now w) (ticks w)) times).
    { intros e st1 w' Hi Hq Elt (evs & times & Hl & Hc & Hs & Hf).
      exists (e :: evs), times.
      split; [by apply (later_trans _ _ _ [e] evs (later_emit e w Hi))|].
      split.
      { change (e :: evs) with ([e] ++ evs).
        rewrite creat_calls_app, (creat_calls_quiet [e])
          by (by repeat constructor).
        done. }
      split; [done|]. by rewrite <- Elt. }
    destruct r as [buffer| |].
    + simpl. destruct (take BUFFER_SIZE buffer) as [|x xs] eqn:Eb.
      * by apply Hstop.
      * set (b := x :: xs) in *.
        set (w0 := emit (EvRead (ReadBytes buffer)) w).
        destruct (copy_chunk_tee c b st w0)
          as (r1 & r2 & mm & w4 & Ecc & Hl & Hmm & Hn4 & Ht4 & Hr2).
        apply (mismatch_quiet mm r1 r2) in Hmm.
        set (st1 := {| fd := fd st; lastTime := lastTime st;
                       total := to_size_t (total st + r2);
                       last_char :=
                         if 0 <? Z.of_nat (length b)
                         then default (last_char st) (last b)
                         else last_char st |}) in *.
        destruct (ticked_monotone _ _ _ _ (later_clock _ _ _ Hl) Hts)
          as [Hts4 Hle4].
        apply (Hskip (EvRead (ReadBytes buffer)) st); [done..|].
        fold w0. rewrite Ecc.
        destruct (rotation_due c _ (total st1)) eqn:Hdue.
        -- destruct (rotate_later c st1 w4)
             as (rn & ret & q1 & q2 & Hrot & Hrn & Hq1 & Hq2 & Est & Hnow
                 & Hticks & Hfd' & Hok & Hcases & _).
           apply perror_tail_quiet in Hq2.
           set (tn := (tick (now w4) (ticks w4)).1) in *.
           set (tl := (tick tn (tick (now w4) (ticks w4)).2).1) in *.
           destruct (tick_monotone (now w4) (ticks w4) Hts4) as [Htn Hts4'].
           destruct (tick_monotone tn _ Hts4') as [Htl Hts5].
           fold tn tl in Htn, Htl.
           pose proof (rotation_due_age c _ _ Hage Hdue) as Hage1.
           destruct (IH (rotate c st1 w4).1 (rotate c st1 w4).2)
             as (evs & times & Hl' & Hc & Hs & Hf).
           { by rewrite Hticks. }
           rewrite Est in Hf. cbn [lastTime] in Hf.
           eexists (_ ++ (_ ++ evs)), (tn :: times).
           rewrite (surjective_pairing (rotate c st1 w4)). cbv iota.
           split.
           { eapply later_trans; [apply Hl|].
             eapply later_trans; [apply Hrot|apply Hl']. }
           split.
           { rewrite creat_calls_tee by done.
             rewrite creat_calls_app, creat_calls_rotation by done.
             rewrite Hc, fmap_cons. simpl.
             rewrite (name_at_later _ _ _ _ _ Hl).
             by rewrite (name_at_later _ _ _ _ _
                           (later_trans _ _ _ _ _ Hl Hrot)). }
           split.
           { constructor; [done|]. eapply Forall_impl; [done|].
             intros y [? _]. lia. }
           constructor.
           { split; [cbn [lastTime] in *; lia|].
             eapply ticked_instants; [apply (later_clock _ _ _ Hl)|].
             apply tick_in_instants. }
           eapply Forall_impl; [done|]. intros y [? Hy].
           split; [cbn [lastTime] in *; lia|].
           eapply ticked_instants;
             [apply (later_clock _ _ _ (later_trans _ _ _ _ _ Hl Hrot))|].
           done.
        -- destruct (IH st1 w4 Hts4) as (evs & times & Hl' & Hc & Hs & Hf).
           eexists (_ ++ evs), times.
           split; [eapply later_trans; [apply Hl|apply Hl']|].
           split.
           { rewrite creat_calls_tee by done.
             by rewrite Hc, (name_at_later _ _ _ _ _ Hl). }
           split; [done|].
           eapply Forall_impl; [done|]. intros y [? Hy]. split; [done|].
           by eapply ticked_instants; [apply (later_clock _ _ _ Hl)|].
    + simpl. apply (Hskip (EvRead ReadEINTR) st); [done..|].
      by apply IH.
    + simpl. by apply Hstop.
Qed.

(** [run] when the directory can be made and the first log file
    created: what comes before the copy loop and after it. *)
Lemma run_started (s : settings) (directory prefix : string)
    (more : list string) (reads : list read_result) (w : world) :
  may_mkdir w directory = true →
  may_creat w (name_at w directory prefix (tick (now w) (ticks w)).1)
  = true →
  ∃ pre post w4,
    let c := {| limits := s; directory := directory; prefix := prefix |} in
    let tn0 := (tick (now w) (ticks w)).1 in
    let st0 := {| fd := FdLog (name_at w directory prefix tn0);
                  lastTime := (tick tn0 (tick (now w) (ticks w)).2).1;
                  total := 0; last_char := newline |} in
    (run s (directory :: prefix :: more) reads w).1 = 0
    ∧ later w w4 pre
    ∧ foldl record [] pre = [(FdLog (name_at w directory prefix tn0), [])]
    ∧ write_calls pre = []
    ∧ creat_calls pre = [name_at w directory prefix tn0]
    ∧ files w4 !! name_at w directory prefix tn0 = Some []
    ∧ now w4 = lastTime st0
    ∧ ticks w4 = (tick tn0 (tick (now w) (ticks w)).2).2
    ∧ later (copy_loop c reads st0 w4).2
            (run s (directory :: prefix :: more) reads w).2 post
    ∧ Forall quiet post ∧ Forall inert post
    ∧ PurgeRead.scandir_calls post = []
    ∧ PurgeRead.scandir_calls pre = [directory]
    ∧ PurgeRead.unlink_calls pre
      = (if may_scan w directory
         then PurgeRead.unlink_path directory
                <$> oldest directory prefix (numberToKeep s) (files w)
         else [])
    ∧ files w4
      = <[name_at w directory prefix tn0 := []]>
          (files (purgeOldFiles directory prefix (numberToKeep s) w)).
Proof.
  intros Hmk Hcr. unfold run.
  set (w1 := printf _ w).
  unfold mkdir_parents.
  assert (may_mkdir w1 directory = true) as -> by done.
  cbv iota beta. simpl negb. cbv iota.
  set (w2 := emit (EvMkdirParents directory true) w1).
  destruct (nextFile_later directory prefix (numberToKeep s) w2)
    as (ret & q1 & q2 & Hl3 & Hq1 & Hq2 & Hn3 & Ht3 & Ho3 & Hne & Hok & Hlp
        & _).
  pose proof (nextFile_files directory prefix (numberToKeep s) w2) as Hf3.
  destruct (PurgeExtras.purgeOldFiles_calls directory prefix (numberToKeep s)
              w2) as (pevs & Hpt & Hps & Hpu).
  rewrite (later_trace _ _ _ Hlp) in Hpt. apply app_inv_head in Hpt.
  subst pevs.
  rewrite (PurgeExtras.purgeOldFiles_files_ext directory prefix
             (numberToKeep s) w w2) in Hf3 by done.
  change (may_scan w2) with (may_scan w) in Hpu.
  change (files w2) with (files w) in Hpu.
  assert (Hq2s : PurgeRead.scandir_calls q2 = []
                 ∧ PurgeRead.unlink_calls q2 = [])
    by (by destruct Hq2 as [->|[m ->]]).
  change (now w2) with (now w) in *. change (ticks w2) with (ticks w) in *.
  change (name_at w2) with (name_at w) in *.
  change (may_creat w2) with (may_creat w) in *.
  set (tn0 := (tick (now w) (ticks w)).1) in *.
  rewrite Hcr in Hf3. specialize (Hok Hcr).
  destruct (nextFile directory prefix (numberToKeep s) w2) as [fd0 w3].
  cbn [fst snd] in Hl3, Hn3, Ht3, Ho3, Hok, Hf3. subst fd0.
  destruct (later_sys_time w3) as (Hl4 & _ & _ & Ho4 & _).
  destruct (sys_time_clock w3) as (Hn4 & Ht4 & Hr4).
  assert (Hf4 : files (snd (sys_time w3)) = files w3).
  { unfold sys_time. by destruct (tick (now w3) (ticks w3)). }
  destruct (sys_time w3) as [lastTime0 w4]. cbn [fst snd] in *.
  rewrite Hn3, Ht3 in *. subst lastTime0.
  set (c := {| limits := s; directory := directory; prefix := prefix |}).
  set (st0 := {| fd := FdLog (name_at w directory prefix tn0);
                 lastTime := (tick tn0 (tick (now w) (ticks w)).2).1;
                 total := 0; last_char := newline |}).
  destruct (copy_loop c reads st0 w4) as [[numberRead st'] w5] eqn:Eloop.
  simpl.
  apply perror_tail_quiet in Hq2.
  assert (Hpost : ∃ post,
             later w5
               (0, sys_close (fd st')
                     (if numberRead =? -1 then perrorf "read error" w5
                      else w5)).2 post
             ∧ Forall quiet post ∧ Forall inert post
             ∧ PurgeRead.scandir_calls post = []).
  { destruct (numberRead =? -1).
    - eexists. split.
      + eapply later_trans; [apply later_perrorf|apply later_sys_close].
      + repeat split; by repeat constructor.
    - eexists. split; [apply later_sys_close|].
      repeat split; by repeat constructor. }
  destruct Hpost as (post & Hpost & Hqpost & Hipost & Hspost).
  assert (Hq1' : Forall quiet q1)
    by (eapply Forall_impl; [done|apply purge_event_quiet]).
  eexists _, post, w4. split; [done|]. split.
  { assert (Hl1 : later w w1 [EvPrintf (PBanner directory prefix (ageLimit s)
                                          (sizeLimit s) (numberToKeep s))])
      by by apply later_emit.
    assert (Hl2 : later w1 w2 [EvMkdirParents directory true])
      by by apply later_emit.
    eapply later_trans; [apply Hl1|].
    eapply later_trans; [apply Hl2|].
    eapply later_trans; [apply Hl3|apply Hl4]. }
  split.
  { simpl. rewrite !foldl_app.
    rewrite (foldl_record_quiet q1) by done.
    simpl. by rewrite (foldl_record_quiet q2). }
  split.
  { rewrite !write_calls_app, !write_calls_cons_quiet by done.
    rewrite !write_calls_app, (write_calls_quiet q1), (write_calls_quiet q2)
      by done.
    done. }
  split.
  { rewrite !creat_calls_app, !creat_calls_cons_quiet by done.
    rewrite !creat_calls_app, (creat_calls_quiet q1), (creat_calls_quiet q2)
      by done.
    done. }
  split.
  { rewrite Hf4, Hf3. apply lookup_insert_eq. }
  split; [done|]. split; [done|].
  fold tn0 c st0. rewrite Eloop.
  split; [done|]. split; [done|]. split; [done|]. split; [done|].
  destruct Hq2s as [Hq2s Hq2u].
  split; [|split].
  - change (PurgeRead.scandir_calls (EvScandir directory ret :: q1)
            = [directory]) in Hps.
    match goal with
    | |- context [EvScandir directory ret :: q1 ++ ?x ++ q2] =>
        change (EvScandir directory ret :: q1 ++ x ++ q2)
          with ((EvScandir directory ret :: q1) ++ x ++ q2)
    end.
    by rewrite !PurgeExtras.scandir_calls_app, Hps, Hq2s.
  - match goal with
    | |- context [EvScandir directory ret :: q1 ++ ?x ++ q2] =>
        change (EvScandir directory ret :: q1 ++ x ++ q2)
          with ((EvScandir directory ret :: q1) ++ x ++ q2)
    end.
    rewrite !PurgeExtras.unlink_calls_app, Hpu, Hq2u. simpl.
    by rewrite !app_nil_r.
  - by rewrite Hf4, Hf3.
Qed.

(** The copy loop when the input brings no byte: it only calls
    [read]. *)
Lemma copy_loop_no_input (c : config) (reads : list read_result)
    (st : loop_state) (w : world) :
  delivered reads = [] →
  ∃ evs, later w (copy_loop c reads st w).2 evs
         ∧ Forall quiet evs ∧ Forall inert evs
         ∧ PurgeRead.scandir_calls evs = [].
Proof.
  revert w. induction reads as [|r reads IH]; intros w Hd.
  - simpl. eexists [_]. split; [by apply later_emit|].
    repeat split; by repeat constructor.
  - destruct r as [buffer| |]; simpl in *.
    + destruct (take BUFFER_SIZE buffer) as [|x xs] eqn:Eb; [|done].
      eexists [_]. split; [by apply later_emit|].
      repeat split; by repeat constructor.
    + destruct (IH (emit (EvRead ReadEINTR) w) Hd)
        as (evs & Hl & Hq & Hi & Hs).
      exists (EvRead ReadEINTR :: evs).
      split.
      { apply (later_trans _ (emit (EvRead ReadEINTR) w) _
                 [EvRead ReadEINTR] evs); [|done].
        by apply later_emit. }
      repeat split; [by constructor..|done].
    + eexists [_]. split; [by apply later_emit|].
      repeat split; by repeat constructor.
Qed.

Lemma unlink_calls_inert (evs : list event) :
  Forall inert evs → PurgeRead.unlink_calls evs = [].
Proof.
  induction 1 as [|e evs He _ IH]; [done|]. by destruct e.
Qed.

(** When the options are accepted, the directory can be made and the
    first log file created, an input that brings no byte still makes
    the program purge the directory and create one log file: the
    directory is listed once, [unlink] is called for the oldest log
    files beyond the keep count, no [write] is made, the exit status is
    0, and the files at the end are those the purge left with the new
    log file, which is empty. *)
Theorem empty_input_makes_one_empty_file (os : list getopt_ret)
    (out : list printed) (s0 : settings) (directory prefix : string)
    (more : list string) (reads : list read_result) (w : world) :
  process_options os defaults = (out, Next s0) →
  started w directory prefix = true →
  delivered reads = [] →
  ∃ evs,
    later w (main os (directory :: prefix :: more) reads w).2 evs
    ∧ (main os (directory :: prefix :: more) reads w).1 = 0
    ∧ PurgeRead.scandir_calls evs = [directory]
    ∧ PurgeRead.unlink_calls evs
      = (if may_scan w directory
         then PurgeRead.unlink_path directory
                <$> oldest directory prefix (numberToKeep (sanitise s0))
                      (files w)
         else [])
    ∧ write_calls evs = []
    ∧ produced evs
      = [(name_at w directory prefix (tick (now w) (ticks w)).1, [])]
    ∧ files (main os (directory :: prefix :: more) reads w).2
      = <[name_at w directory prefix (tick (now w) (ticks w)).1 := []]>
          (files (purgeOldFiles directory prefix
                    (numberToKeep (sanitise s0)) w)).
Proof.
  intros Hopts [Hmk Hcr]%andb_true_iff Hd. unfold main. rewrite Hopts.
  pose proof (later_printf out w) as Hlp.
  destruct (printf_oracles out w) as (Hmkp & Hcrp & Himp & _ & Hnp & Htp).
  set (wp := printf out w) in *.
  assert (Hname : name_at wp = name_at w)
    by (unfold name_at; by rewrite Himp).
  destruct (run_started (sanitise s0) directory prefix more reads wp)
    as (pre & post & w4 & Hret & Hlpre & Hfpre & Hwpre & Hcpre & Hf4 & Hn4
        & Ht4 & Hlpost & Hqpost & Hipost & Hspost & Hsc & Hul & Hfw4).
  { by rewrite Hmkp. }
  { by rewrite Hcrp, Hname, Hnp, Htp. }
  rewrite Hname, Hnp, Htp in *.
  rewrite (PurgeExtras.purgeOldFiles_files_ext directory prefix
             (numberToKeep (sanitise s0)) w wp) in Hfw4;
    [|by rewrite (later_files _ _ _ Hlp), foldl_replay_inert
          by (apply Forall_fmap, Forall_forall; by intros)
     |apply (later_scan _ _ _ Hlp)|apply (later_unlink _ _ _ Hlp)].
  rewrite (later_scan _ _ _ Hlp) in Hul.
  rewrite (later_files _ _ _ Hlp), foldl_replay_inert in Hul
    by (apply Forall_fmap, Forall_forall; by intros).
  set (name0 := name_at w directory prefix (tick (now w) (ticks w)).1) in *.
  set (c := {| limits := sanitise s0; directory := directory;
               prefix := prefix |}) in *.
  set (st0 := {| fd := FdLog name0;
                 lastTime := (tick (tick (now w) (ticks w)).1
                                (tick (now w) (ticks w)).2).1;
                 total := 0; last_char := newline |}) in *.
  destruct (copy_loop_no_input c reads st0 w4 Hd)
    as (evl & Hll & Hql & Hil & Hsl).
  pose proof (unlink_calls_inert evl Hil) as Hunl.
  set (w5 := (copy_loop c reads st0 w4).2) in *.
  assert (Hqout : Forall quiet (EvPrintf <$> out))
    by (apply Forall_fmap, Forall_forall; by intros).
  assert (Hcout : PurgeRead.scandir_calls (EvPrintf <$> out) = []
                  ∧ PurgeRead.unlink_calls (EvPrintf <$> out) = []).
  { clear. induction out as [|p out [IH1 IH2]]; [done|]. by simpl. }
  assert (Hcpost : PurgeRead.scandir_calls post = []
                   ∧ PurgeRead.unlink_calls post = [])
    by (split; [done|by apply unlink_calls_inert]).
  exists ((EvPrintf <$> out) ++ pre ++ evl ++ post).
  split.
  { eapply later_trans; [apply Hlp|].
    eapply later_trans; [apply Hlpre|]. by eapply later_trans. }
  split; [done|]. split.
  { rewrite !PurgeExtras.scandir_calls_app, Hsc, Hsl.
    destruct Hcout as [-> _]. by destruct Hcpost as [-> _]. }
  split.
  { rewrite !PurgeExtras.unlink_calls_app, Hul, Hunl.
    destruct Hcout as [_ ->]. destruct Hcpost as [_ ->].
    by rewrite !app_nil_r. }
  split.
  { rewrite !write_calls_app, Hwpre.
    by rewrite !write_calls_quiet by done. }
  split.
  { unfold produced, epochs. rewrite !foldl_app.
    rewrite (foldl_record_quiet (EvPrintf <$> out)) by done.
    rewrite Hfpre. by rewrite !foldl_record_quiet by done. }
  rewrite (later_files _ _ _ Hlpost), (later_files _ _ _ Hll).
  by rewrite !foldl_replay_inert by done.
Qed.

Lemma empty_input_makes_one_empty_file_witness :
  ∃ evs,
    later (Scenario.world_with Scenario.three_logs 2)
      (main [GotKeep "1"] ["d"; "p"] [ReadEINTR]
         (Scenario.world_with Scenario.three_logs 2)).2 evs
    ∧ (main [GotKeep "1"] ["d"; "p"] [ReadEINTR]
         (Scenario.world_with Scenario.three_logs 2)).1 = 0
    ∧ PurgeRead.scandir_calls evs = ["d"]
    ∧ PurgeRead.unlink_calls evs
      = (if may_scan (Scenario.world_with Scenario.three_logs 2) "d"
         then PurgeRead.unlink_path "d"
                <$> oldest "d" "p"
                      (numberToKeep
                         (sanitise {| sizeLimit := 50000000;
                                      ageLimit := 86400;
                                      numberToKeep := 1 |}))
                      (files (Scenario.world_with Scenario.three_logs 2))
         else [])
    ∧ write_calls evs = []
    ∧ produced evs
      = [(name_at (Scenario.world_with Scenario.three_logs 2) "d" "p"
            (tick (now (Scenario.world_with Scenario.three_logs 2))
               (ticks (Scenario.world_with Scenario.three_logs 2))).1, [])]
    ∧ files (main [GotKeep "1"] ["d"; "p"] [ReadEINTR]
               (Scenario.world_with Scenario.three_logs 2)).2
      = <[name_at (Scenario.world_with Scenario.three_logs 2) "d" "p"
            (tick (now (Scenario.world_with Scenario.three_logs 2))
               (ticks (Scenario.world_with Scenario.three_logs 2))).1 := []]>
          (files (purgeOldFiles "d" "p"
                    (numberToKeep
                       (sanitise {| sizeLimit := 50000000;
                                    ageLimit := 86400;
                                    numberToKeep := 1 |}))
                    (Scenario.world_with Scenario.three_logs 2))).
Proof.
  apply (empty_input_makes_one_empty_file [GotKeep "1"] []
           {| sizeLimit := 50000000; ageLimit := 86400;
              numberToKeep := 1 |} "d" "p" []
           [ReadEINTR] (Scenario.world_with Scenario.three_logs 2));
    reflexivity.
Defined.

(** [run] when the directory cannot be made or the first log file
    cannot be created: at most one call of [creat], no [write]. *)
Lemma run_not_started (s : settings) (directory prefix : string)
    (more : list string) (reads : list read_result) (w : world) :
  started w directory prefix = false →
  ∃ evs,
    later w (run s (directory :: prefix :: more) reads w).2 evs
    ∧ write_calls evs = []
    ∧ (creat_calls evs = []
       ∨ creat_calls evs
         = [name_at w directory prefix (tick (now w) (ticks w)).1]).
Proof.
  unfold started, run. intros Hst.
  set (w1 := printf _ w).
  assert (Hl1 : later w w1 [EvPrintf (PBanner directory prefix (ageLimit s)
                                        (sizeLimit s) (numberToKeep s))])
    by by apply later_emit.
  unfold mkdir_parents.
  assert (may_mkdir w1 directory = may_mkdir w directory) as -> by done.
  destruct (may_mkdir w directory); cbv iota beta; simpl negb; cbv iota.
  - simpl in Hst.
    set (w2 := emit (EvMkdirParents directory true) w1).
    assert (Hl2 : later w1 w2 [EvMkdirParents directory true])
      by by apply later_emit.
    destruct (nextFile_later directory prefix (numberToKeep s) w2)
      as (ret & q1 & q2 & Hl3 & Hq1 & Hq2 & _).
    pose proof (nextFile_fd directory prefix (numberToKeep s) w2) as Hfd.
    change (now w2) with (now w) in *. change (ticks w2) with (ticks w) in *.
    change (name_at w2) with (name_at w) in *.
    change (may_creat w2) with (may_creat w) in *.
    rewrite Hst in Hfd.
    destruct (nextFile directory prefix (numberToKeep s) w2) as [fd0 w3].
    cbn [fst snd] in Hl3, Hfd. subst fd0.
    apply perror_tail_quiet in Hq2.
    assert (Hq1' : Forall quiet q1)
      by (eapply Forall_impl; [done|apply purge_event_quiet]).
    eexists. split.
    { eapply later_trans; [apply Hl1|].
      eapply later_trans; [apply Hl2|apply Hl3]. }
    split.
    + rewrite !write_calls_app, !write_calls_cons_quiet by done.
      rewrite !write_calls_app, (write_calls_quiet q1), (write_calls_quiet q2)
        by done.
      done.
    + right.
      rewrite !creat_calls_app, !creat_calls_cons_quiet by done.
      rewrite !creat_calls_app, (creat_calls_quiet q1), (creat_calls_quiet q2)
        by done.
      done.
  - eexists. split.
    { eapply later_trans; [apply Hl1|].
      eapply (later_trans _ _ _ [EvMkdirParents directory false]);
        [by apply later_emit|apply later_perrorf]. }
    split; [done|by left].
Qed.

(** When the clock does not go back, the calls of [creat] of a run are
    for instants that strictly increase: the program never asks twice
    for the file name of the same second, whatever the file system
    answers. *)
Theorem creat_instants_increase (os : list getopt_ret)
    (directory prefix : string) (more : list string)
    (reads : list read_result) (w : world) :
  Forall (λ d, 0 ≤ d) (ticks w) →
  ∃ evs times,
    later w (main os (directory :: prefix :: more) reads w).2 evs
    ∧ creat_calls evs = name_at w directory prefix <$> times
    ∧ StronglySorted Z.lt times
    ∧ Forall (λ t, t ∈ instants (now w) (ticks w)) times.
Proof.
  intros Hts. unfold main.
  destruct (process_options os defaults) as [out [status|s0]] eqn:Hopts.
  { exists (EvPrintf <$> out), []. split; [apply later_printf|].
    split; [|split; constructor].
    apply creat_calls_quiet, Forall_fmap, Forall_forall. by intros. }
  pose proof (later_printf out w) as Hlp.
  destruct (printf_oracles out w) as (Hmkp & Hcrp & Himp & _ & Hnp & Htp).
  set (wp := printf out w) in *.
  assert (Hname : name_at wp = name_at w)
    by (unfold name_at; by rewrite Himp).
  assert (Hqout : Forall quiet (EvPrintf <$> out))
    by (apply Forall_fmap, Forall_forall; by intros).
  destruct (tick_monotone (now w) (ticks w) Hts) as [Htn0 Hts1].
  destruct (tick_monotone (tick (now w) (ticks w)).1 _ Hts1)
    as [Hlt0 Hts2].
  destruct (started wp directory prefix) eqn:Hst.
  - apply andb_true_iff in Hst as [Hmk Hcr].
    destruct (run_started (sanitise s0) directory prefix more reads wp
                Hmk Hcr)
      as (pre & post & w4 & Hret & Hlpre & Hfpre & Hwpre & Hcpre & Hf4 & Hn4
          & Ht4 & Hlpost & Hqpost & Hipost & Hspost & Hsc & Hul & Hfw4).
    rewrite Hname, Hnp, Htp in *.
    set (tn0 := (tick (now w) (ticks w)).1) in *.
    set (c := {| limits := sanitise s0; directory := directory;
                 prefix := prefix |}) in *.
    set (st0 := {| fd := FdLog (name_at w directory prefix tn0);
                   lastTime := (tick tn0 (tick (now w) (ticks w)).2).1;
                   total := 0; last_char := newline |}) in *.
    assert (Hl4 : later w w4 ((EvPrintf <$> out) ++ pre))
      by by eapply later_trans.
    destruct (copy_loop_creats c reads) with (st := st0) (w := w4)
      as (evl & times & Hll & Hcl & Hsl & Hfl).
    { unfold c, sanitise. simpl. destruct (ageLimit s0 <? 10) eqn:E; [lia|].
      apply Z.ltb_ge in E. lia. }
    { by rewrite Ht4. }
    exists (((EvPrintf <$> out) ++ pre) ++ evl ++ post), (tn0 :: times).
    split.
    { eapply later_trans; [apply Hl4|]. by eapply later_trans. }
    split.
    { rewrite !creat_calls_app, Hcpre, Hcl.
      rewrite !creat_calls_quiet by done.
      rewrite (name_at_later _ _ _ _ _ Hl4). simpl.
      by rewrite app_nil_r. }
    split.
    { constructor; [done|]. eapply Forall_impl; [exact Hfl|].
      intros x [Hx _]. simpl in Hx. lia. }
    constructor; [apply tick_in_instants|].
    eapply Forall_impl; [exact Hfl|]. intros x [_ Hx].
    by eapply ticked_instants; [apply (later_clock _ _ _ Hl4)|].
  - destruct (run_not_started (sanitise s0) directory prefix more reads wp
                Hst)
      as (evs & Hl & _ & Hc).
    rewrite Hname, Hnp, Htp in Hc.
    destruct Hc as [Hc|Hc].
    + exists ((EvPrintf <$> out) ++ evs), [].
      split; [by eapply later_trans|].
      split; [by rewrite creat_calls_app, Hc, creat_calls_quiet|].
      split; constructor.
    + exists ((EvPrintf <$> out) ++ evs), [(tick (now w) (ticks w)).1].
      split; [by eapply later_trans|].
      split; [by rewrite creat_calls_app, Hc, creat_calls_quiet|].
      split; [by repeat constructor|].
      constructor; [apply tick_in_instants|constructor].
Qed.

Lemma creat_instants_increase_witness :
  ∃ evs times,
    later (Scenario.world_with ∅ 9)
      (main Scenario.small_limits ["d"; "p"] Scenario.three_reads
         (Scenario.world_with ∅ 9)).2 evs
    ∧ creat_calls evs = name_at (Scenario.world_with ∅ 9) "d" "p" <$> times
    ∧ StronglySorted Z.lt times
    ∧ Forall (λ t, t ∈ instants (now (Scenario.world_with ∅ 9))
                         (ticks (Scenario.world_with ∅ 9))) times.
Proof.
  apply (creat_instants_increase Scenario.small_limits "d" "p" []
           Scenario.three_reads (Scenario.world_with ∅ 9)).
  simpl. repeat (constructor; [lia|]). constructor.
Defined.

Lemma sys_write_bad (data : list byte) (w : world) :
  fst (sys_write FdBad data w) = -1
  ∧ later w (snd (sys_write FdBad data w)) [EvWrite FdBad data (-1)].
Proof.
  pose proof (proj1 (later_sys_write FdBad data w)) as H.
  assert (E : fst (sys_write FdBad data w) = -1).
  { unfold sys_write. by destruct (write_outcomes w) as [|[|n] os]. }
  by rewrite E in H.
Qed.

(** A chunk that arrives while the descriptor is -1, after a [creat]
    that failed, is copied to standard output only; its [write] for
    the log returns -1, which makes the byte count of the fresh file
    wrap to the largest value, so that the rotation is due as soon as
    the clock shows a later second: the program then tries [creat]
    again, far from the size limit as it may be. *)
Theorem bad_descriptor_is_retried (c : config) (buffer : list byte)
    (st : loop_state) (w : world) :
  fd st = FdBad → total st = 0 →
  sizeLimit (limits c) < ULONG_MOD →
  1 ≤ (tick (now w) (ticks w)).1 - lastTime st →
  total (after_chunk buffer (-1) st) = ULONG_MOD - 1
  ∧ ∃ w4 evs tn,
      copy_chunk c buffer st w = rotate c (after_chunk buffer (-1) st) w4
      ∧ later w (copy_chunk c buffer st w).2 evs
      ∧ stdout_data evs = [buffer]
      ∧ creat_calls evs = [name_at w (directory c) (prefix c) tn].
Proof.
  intros Hfd Htot Hlim Hage.
  assert (Htot' : total (after_chunk buffer (-1) st) = ULONG_MOD - 1).
  { unfold after_chunk. simpl. by rewrite Htot. }
  split; [done|].
  unfold copy_chunk.
  destruct (later_sys_write FdStdout buffer w) as [Hl1 _].
  destruct (sys_write_clock FdStdout buffer w) as [Hn1 Ht1].
  destruct (sys_write FdStdout buffer w) as [m1 w1]. cbn [fst snd] in *.
  rewrite Hfd.
  destruct (sys_write_bad buffer w1) as [Hm2 Hl2].
  destruct (sys_write_clock FdBad buffer w1) as [Hn2 Ht2].
  destruct (sys_write FdBad buffer w1) as [m2 w2]. cbn [fst snd] in *.
  subst m2.
  set (w3 := if m1 =? -1 then w2 else emit (EvMismatch m1 (-1)) w2).
  assert (H3 : ∃ mm, later w2 w3 mm ∧ Forall quiet mm
                     ∧ now w3 = now w2 ∧ ticks w3 = ticks w2).
  { unfold w3. destruct (m1 =? -1).
    - exists []. split; [apply later_refl|]. by split.
    - eexists [_]. split; [by apply later_emit|].
      split; [by repeat constructor|done]. }
  destruct H3 as (mm & Hl3 & Hmm & Hn3 & Ht3).
  destruct (later_sys_time w3) as (Hl4 & _).
  destruct (sys_time_clock w3) as (Hn4 & Ht4 & Hr4).
  destruct (sys_time w3) as [t w4]. cbn [fst snd] in *.
  rewrite Hn3, Hn2, Hn1, Ht3, Ht2, Ht1 in *. subst t.
  set (st1 := {| fd := FdBad; lastTime := lastTime st;
                 total := to_size_t (total st + -1);
                 last_char :=
                   if 0 <? Z.of_nat (length buffer)
                   then default (last_char st) (last buffer)
                   else last_char st |}).
  assert (Est1 : st1 = after_chunk buffer (-1) st).
  { unfold st1, after_chunk. by rewrite Hfd. }
  assert (Hdue : rotation_due c ((tick (now w) (ticks w)).1 - lastTime st)
                   (to_size_t (total st + -1)) = true).
  { unfold rotation_due. apply orb_true_iff. right.
    apply andb_true_iff. split; [|by apply Z.leb_le].
    apply Z.leb_le. rewrite Htot. unfold to_size_t, ULONG_MOD in *.
    change ((0 + -1) mod 2 ^ 64) with (2 ^ 64 - 1). lia. }
  rewrite Hdue.
  assert (Hl : later w w4 ([EvWrite FdStdout buffer m1]
                           ++ [EvWrite FdBad buffer (-1)] ++ mm
                           ++ [EvTime (tick (now w) (ticks w)).1])).
  { eapply later_trans; [apply Hl1|].
    eapply later_trans; [apply Hl2|].
    eapply later_trans; [apply Hl3|apply Hl4]. }
  destruct (rotate_later c st1 w4)
    as (rn & ret & q1 & q2 & Hrot & Hrn & Hq1 & Hq2 & _).
  apply perror_tail_quiet in Hq2.
  exists w4. eexists _, _. split; [by rewrite Est1|].
  split; [eapply later_trans; [apply Hl|apply Hrot]|].
  split.
  - rewrite !stdout_data_app, (stdout_data_quiet mm) by done.
    rewrite stdout_data_rotation by done. done.
  - rewrite !creat_calls_app, (creat_calls_quiet mm) by done.
    rewrite creat_calls_rotation by done.
    by rewrite (name_at_later _ _ _ _ _ Hl).
Qed.

Lemma bad_descriptor_is_retried_witness :
  total (after_chunk [newline] (-1)
           {| fd := FdBad; lastTime := 0; total := 0;
              last_char := newline |})
  = ULONG_MOD - 1.
Proof.
  apply (bad_descriptor_is_retried
           {| limits := defaults; directory := "d"; prefix := "p" |}
           [newline]
           {| fd := FdBad; lastTime := 0; total := 0; last_char := newline |}
           (Scenario.world_with ∅ 3));
    [reflexivity|reflexivity|vm_compute; reflexivity|vm_compute; discriminate].
Defined.

End LoopExtras.

Module DirFacts.
Import Filter Sys Dirs StringFacts.
Import PurgeExtras.

Lemma plain_spec (c : string) :
  plain c = true →
  stays c = false ∧ goes_up c = false ∧ has_slash c = false
  ∧ c ≠ EmptyString.
Proof.
  unfold plain. intros [[H1 H2]%andb_true_iff H3]%andb_true_iff.
  apply negb_true_iff in H1, H2, H3. repeat split; try done.
  intros ->. done.
Qed.

(** *** Strings and slashes *)

Lemma substring_app (a b : string) :
  String.substring 0 (String.length a) (a +:+ b) = a.
Proof.
  induction a as [|c a IH]; [by destruct b|].
  rewrite app_cons. simpl. by rewrite IH.
Qed.

Lemma strchr_None (s : string) :
  strchr s "/" = None ↔ has_slash s = false.
Proof.
  induction s as [|c s IH]; [done|]. simpl.
  destruct (Ascii.eqb c "/"); [done|]. simpl.
  destruct (strchr s "/"); [|tauto].
  split; [done|]. intros H. by apply IH in H.
Qed.

Lemma strchr_Some (s : string) (k : nat) :
  strchr s "/" = Some k →
  ∃ seg s', s = seg +:+ "/" +:+ s' ∧ String.length seg = k
            ∧ has_slash seg = false.
Proof.
  revert k. induction s as [|c s IH]; intros k; [done|]. simpl.
  destruct (Ascii.eqb_spec c "/") as [->|Hc].
  - intros [= <-]. by exists EmptyString, s.
  - destruct (strchr s "/") as [k'|]; [|done]. intros [= <-].
    destruct (IH k' eq_refl) as (seg & s' & -> & Hlen & Hs).
    exists (String c seg), s'. rewrite app_cons. simpl.
    rewrite Hlen, Hs. split; [done|]. split; [done|].
    by apply Ascii.eqb_neq in Hc as ->.
Qed.

Lemma targets_from_no_slash (dn : string) (b : bool) (s : string) :
  has_slash s = false → targets_from dn b s = [].
Proof.
  revert dn b. induction s as [|c s IH]; intros dn b; [done|]. simpl.
  destruct (Ascii.eqb c "/"); [done|]. simpl. apply IH.
Qed.

Lemma targets_from_seg (dn : string) (b : bool) (seg s' : string) :
  has_slash seg = false →
  targets_from dn b (seg +:+ "/" +:+ s')
  = (match seg with
     | EmptyString => if b then [] else [dn]
     | _ => [dn +:+ seg]
     end) ++ targets_from (dn +:+ seg +:+ "/") true s'.
Proof.
  revert dn b. induction seg as [|c seg IH]; intros dn b Hs.
  - simpl. by rewrite app_empty_l.
  - simpl in Hs. apply orb_false_iff in Hs as [Hc Hs].
    rewrite app_cons. simpl. rewrite Hc.
    rewrite (IH _ _ Hs).
    replace ((dn +:+ String c "") +:+ seg +:+ "/")
      with (dn +:+ String c seg +:+ "/")
      by (by rewrite (app_assoc dn)).
    f_equal. destruct seg as [|c' seg]; [done|].
    by rewrite (app_assoc dn).
Qed.

(** The loop of [mkdir_parents] from a point where [pre] is behind
    [pp]: it calls [make_dir] for the targets in turn. *)
Lemma parents_loop_targets (turns : nat) (mode : Z) :
  ∀ (pre s : string) (t : tree),
    (String.length s < turns)%nat →
    parents_loop turns (pre +:+ s) (String.length pre) mode t
    = make_dirs (targets_from pre true s) mode t.
Proof.
  induction turns as [|turns IH]; intros pre s t Hlen; [lia|].
  simpl. rewrite string_drop_app.
  destruct (strchr s "/") as [k|] eqn:Ek.
  - apply strchr_Some in Ek as (seg & s' & -> & Hk & Hs).
    rewrite (targets_from_seg _ _ _ _ Hs). subst k.
    rewrite !length_app in Hlen. simpl in Hlen.
    assert (Hpath : pre +:+ seg +:+ "/" +:+ s'
                    = (pre +:+ seg +:+ "/") +:+ s')
      by (by rewrite !app_assoc).
    assert (Hpp : S (String.length pre + String.length seg)
                  = String.length (pre +:+ seg +:+ "/")).
    { rewrite !length_app. simpl. lia. }
    destruct seg as [|c seg].
    + simpl. rewrite Nat.add_0_r, Nat.eqb_refl. simpl.
      rewrite app_empty_l in *. rewrite Nat.add_0_r in Hpp.
      rewrite Hpath, Hpp. apply IH. lia.
    + assert (Nat.eqb (String.length pre + String.length (String c seg))
                (String.length pre) = false) as ->
        by (apply Nat.eqb_neq; simpl; lia).
      simpl negb. cbv iota.
      assert (String.substring 0
                (String.length pre + String.length (String c seg))
                (pre +:+ String c seg +:+ "/" +:+ s')
              = pre +:+ String c seg) as ->.
      { rewrite <- length_app, <- app_assoc. apply substring_app. }
      simpl make_dirs.
      destruct (make_dir (pre +:+ String c seg) mode t) as [[|] t1];
        [|done].
      rewrite Hpath, Hpp. apply IH. simpl in Hlen. lia.
  - apply strchr_None in Ek. by rewrite targets_from_no_slash.
Qed.

Lemma make_dirs_app (ps qs : list string) (mode : Z) (t : tree) :
  make_dirs (ps ++ qs) mode t
  = let '(status, t1) := make_dirs ps mode t in
    if status then make_dirs qs mode t1 else (false, t1).
Proof.
  revert t. induction ps as [|p ps IH]; intros t.
  - simpl. by destruct (make_dirs qs mode t).
  - simpl. destruct (make_dir p mode t) as [[|] t1]; [apply IH|done].
Qed.

Lemma mkdir_parents_make_dirs (path : string) (mode : Z) (t : tree) :
  mkdir_parents (Some path) mode t = make_dirs (targets path) mode t.
Proof.
  unfold mkdir_parents, targets. rewrite make_dirs_app.
  pose proof (parents_loop_targets (S (String.length path)) mode
                EmptyString path t) as H.
  rewrite app_empty_l in H. simpl String.length in H.
  rewrite H by lia.
  destruct (make_dirs _ mode t) as [[|] t1]; [|done].
  simpl. by destruct (make_dir path mode t1) as [[|] t2].
Qed.

(** *** The parts of a path *)

Lemma split_slash_not_nil (s : string) : split_slash s ≠ [].
Proof.
  induction s as [|c s IH]; [done|]. simpl.
  destruct (Ascii.eqb c "/"); [done|]. by destruct (split_slash s).
Qed.

Lemma split_slash_app (p q : string) :
  split_slash (p +:+ "/" +:+ q) = split_slash p ++ split_slash q.
Proof.
  induction p as [|c p IH]; [done|].
  rewrite app_cons. simpl. rewrite IH.
  destruct (Ascii.eqb c "/"); [done|].
  pose proof (split_slash_not_nil p).
  by destruct (split_slash p).
Qed.

Lemma split_slash_no_slash (s : string) :
  has_slash s = false → split_slash s = [s].
Proof.
  induction s as [|c s IH]; [done|]. simpl.
  intros [Hc Hs]%orb_false_iff. rewrite Hc, IH by done. done.
Qed.

Lemma ends_with_slash_snoc (p : string) :
  ends_with_slash p = true → ∃ q, p = q +:+ "/".
Proof.
  induction p as [|c p IH]; [done|]. simpl.
  destruct p as [|c' p].
  - intros ->%Ascii.eqb_eq. by exists EmptyString.
  - intros H. destruct (IH H) as [q ->]. by exists (String c q).
Qed.

Lemma ends_with_slash_app (q : string) (c : ascii) :
  ends_with_slash (q +:+ String c EmptyString) = Ascii.eqb c "/".
Proof.
  induction q as [|a q IH]; [done|].
  rewrite app_cons. simpl. rewrite IH.
  by destruct (q +:+ String c "") eqn:E; [destruct q|].
Qed.

Lemma split_slash_snoc (q : string) :
  split_slash (q +:+ "/") = split_slash q ++ [EmptyString].
Proof. apply (split_slash_app q EmptyString). Qed.

Lemma last_split_slash_plain (p : string) :
  p ≠ EmptyString → ends_with_slash p = false →
  last (split_slash p) ≠ Some EmptyString.
Proof.
  induction p as [|c p IH]; [done|]. intros _ He.
  destruct p as [|c' p].
  - simpl in *. by rewrite He.
  - assert (Hp : last (split_slash (String c' p)) ≠ Some EmptyString)
      by by apply IH.
    pose proof (split_slash_not_nil (String c' p)) as Hne.
    change (split_slash (String c (String c' p)))
      with (if Ascii.eqb c "/"
            then EmptyString :: split_slash (String c' p)
            else match split_slash (String c' p) with
                 | x :: xs => String c x :: xs
                 | [] => [String c EmptyString]
                 end).
    destruct (split_slash (String c' p)) as [|x xs]; [done|].
    destruct (Ascii.eqb c "/"); [done|].
    destruct xs as [|y ys]; [done|done].
Qed.

Lemma last_split_slash (p : string) :
  ends_with_slash p = true → last (split_slash p) = Some EmptyString.
Proof.
  intros [q ->]%ends_with_slash_snoc.
  rewrite split_slash_snoc. apply last_snoc.
Qed.

Lemma drop_empty_id (l : list string) :
  head l ≠ Some EmptyString → drop_empty l = l.
Proof.
  destruct l as [|c l]; [done|]. simpl.
  destruct (String.eqb_spec c EmptyString) as [->|]; done.
Qed.

Lemma strip_end_id (l : list string) :
  last l ≠ Some EmptyString → strip_end l = l.
Proof.
  intros H. unfold strip_end. rewrite drop_empty_id.
  - apply reverse_involutive.
  - by rewrite head_reverse.
Qed.

Lemma unsnoc_snoc (l : list string) (c : string) :
  unsnoc (l ++ [c]) = Some (l, c).
Proof.
  unfold unsnoc. rewrite reverse_snoc. by rewrite reverse_involutive.
Qed.

Lemma snoc_cases (l : list string) :
  l ≠ [] → ∃ before c, l = before ++ [c].
Proof.
  intros H. destruct (reverse l) as [|c r] eqn:E.
  - apply (f_equal reverse) in E. rewrite reverse_involutive in E. done.
  - exists (reverse r), c.
    apply (f_equal reverse) in E. rewrite reverse_involutive in E.
    by rewrite reverse_cons in E.
Qed.

(** *** Walks *)

Lemma walk_mono (ns ns' : gmap (list string) kind) (parts : list string) :
  ns ⊆ ns' →
  ∀ cur a k, walk ns cur parts = Found a k → walk ns' cur parts = Found a k.
Proof.
  intros Hsub. induction parts as [|c rest IH]; intros cur a k; [done|].
  simpl. destruct (stays c); [apply IH|].
  destruct (goes_up c); [apply IH|].
  destruct (ns !! (cur ++ [c])) as [k'|] eqn:E; [|done].
  rewrite (lookup_weaken _ _ _ _ E Hsub).
  destruct k'; [apply IH|done].
Qed.

Lemma walk_app (ns : gmap (list string) kind) (a b : list string) :
  ∀ cur,
    walk ns cur (a ++ b)
    = match walk ns cur a with
      | Found d KDir => walk ns d b
      | Found d KFile =>
          match b with [] => Found d KFile | _ :: _ => NotADir end
      | other => other
      end.
Proof.
  induction a as [|c a IH]; intros cur; [done|].
  simpl. destruct (stays c); [apply IH|].
  destruct (goes_up c); [apply IH|].
  destruct (ns !! (cur ++ [c])) as [[|]|]; [apply IH| |done].
  destruct a as [|c' a]; simpl; [done|by destruct b].
Qed.

(** *** Trees that grow *)

Lemma grown_refl (t : tree) : grown t t.
Proof. repeat split; try done. intros d k H1 H2. congruence. Qed.

Lemma grown_trans (t1 t2 t3 : tree) :
  grown t1 t2 → grown t2 t3 → grown t1 t3.
Proof.
  intros (Hc1 & Hm1 & Hs1 & Hn1) (Hc2 & Hm2 & Hs2 & Hn2).
  repeat split; try congruence; [by etrans|].
  intros d k H3 H1.
  destruct (nodes t2 !! d) as [k2|] eqn:E2.
  - rewrite (lookup_weaken _ _ _ _ E2 Hs2) in H3. injection H3 as <-.
    by apply (Hn1 d).
  - by apply (Hn2 d).
Qed.

Lemma grown_emit (c : call) (t : tree) : grown t (emit c t).
Proof. repeat split; try done. intros d k H1 H2. simpl in H1. congruence. Qed.

Lemma sys_mkdir_grown (path : string) (mode : Z) (t : tree) :
  grown t (sys_mkdir path mode t).2.
Proof.
  unfold sys_mkdir.
  destruct (mkdir_plan t path) as [ret [d|]] eqn:E; [|apply grown_emit].
  assert (Hd : nodes t !! d = None).
  { unfold mkdir_plan in E. destruct path; [done|].
    destruct (unsnoc _) as [[before c]|]; [|done].
    destruct (walk _ _ before) as [| |d' [|]]; try done.
    destruct (stays c || goes_up c); [done|].
    destruct (nodes t !! (d' ++ [c])) eqn:El; [done|].
    destruct (may_make t (d' ++ [c])); [|done].
    by injection E as _ <-. }
  repeat split; simpl; try done.
  - by apply insert_subseteq.
  - intros d' k H1 H2. destruct (decide (d = d')) as [->|Hne].
    + rewrite lookup_insert_eq in H1. by injection H1.
    + rewrite lookup_insert_ne in H1 by done. congruence.
Qed.

Lemma make_dir_grown (p : string) (mode : Z) (t : tree) :
  grown t (make_dir p mode t).2.
Proof.
  unfold make_dir, sys_stat.
  assert (Hfail : grown t
            (let '(ret, t2) :=
               sys_mkdir p mode (emit (CStat p StatFail) t) in
             match ret with
             | MkdirError => (false, emit (CPerror1 p mode) t2)
             | _ => (true, t2)
             end).2).
  { pose proof (sys_mkdir_grown p mode (emit (CStat p StatFail) t)) as H.
    destruct (sys_mkdir _ _ _) as [[| |] t2]; simpl in *;
      (eapply grown_trans; [apply grown_emit|]); exact H. }
  destruct (resolve t p) as [| |d [|]]; try exact Hfail.
  - apply grown_emit.
  - simpl. eapply grown_trans; apply grown_emit.
Qed.

Lemma make_dirs_grown (ps : list string) (mode : Z) (t : tree) :
  grown t (make_dirs ps mode t).2.
Proof.
  revert t. induction ps as [|p ps IH]; intros t; [apply grown_refl|].
  simpl. pose proof (make_dir_grown p mode t) as H.
  destruct (make_dir p mode t) as [[|] t1]; [|done].
  eapply grown_trans; [exact H|apply IH].
Qed.

Lemma resolve_mono (t t' : tree) (p : string) (a : list string) (k : kind) :
  grown t t' → resolve t p = Found a k → resolve t' p = Found a k.
Proof.
  intros (Hc & _ & Hs & _). unfold resolve, start_of.
  destruct p as [|c p]; [done|]. rewrite Hc.
  by apply walk_mono.
Qed.

(** *** [make_dir] *)

Lemma make_dir_empty (mode : Z) (t : tree) :
  (make_dir EmptyString mode t).1 = false.
Proof. done. Qed.

Lemma resolve_emit (c : call) (t : tree) (p : string) :
  resolve (emit c t) p = resolve t p.
Proof. done. Qed.

(** [make_dir] for a path that does not end with a slash: when it
    returns true the path is a directory. *)
Lemma make_dir_true_plain (p : string) (mode : Z) (t t' : tree) :
  p ≠ EmptyString → ends_with_slash p = false →
  make_dir p mode t = (true, t') →
  ∃ d, resolve t' p = Found d KDir.
Proof.
  intros Hne He. unfold make_dir, sys_stat.
  destruct (resolve t p) as [| |d [|]] eqn:Er;
    [| |intros [= <-]; by exists d|done].
  - (* the walk ends at a name that is not there *)
    unfold sys_mkdir, mkdir_plan. destruct p as [|c0 p0] eqn:Ep; [done|].
    rewrite <- Ep in *.
    assert (Hstart : start_of (emit (CStat p StatFail) t) p = start_of t p)
      by done.
    rewrite Hstart. simpl nodes. simpl may_make.
    pose proof (last_split_slash_plain p Hne He) as Hlast.
    rewrite strip_end_id by done.
    destruct (snoc_cases _ (split_slash_not_nil p)) as (before & c & Hsplit).
    rewrite Hsplit, unsnoc_snoc.
    assert (Hres : resolve t p
                   = walk (nodes t) (start_of t p) (before ++ [c])).
    { unfold resolve. rewrite Ep, <- Ep. by rewrite Hsplit. }
    rewrite walk_app in Hres.
    destruct (walk (nodes t) (start_of t p) before) as [| |d [|]] eqn:Ew;
      try done.
    simpl in Hres.
    destruct (stays c) eqn:Hst; [congruence|].
    destruct (goes_up c) eqn:Hup; [congruence|]. simpl.
    destruct (nodes t !! (d ++ [c])) as [[|]|] eqn:El; [congruence..|].
    destruct (may_make t (d ++ [c])); [|done].
    intros [= <-]. exists (d ++ [c]).
    unfold resolve. rewrite Ep, <- Ep. simpl nodes.
    change (start_of _ p) with (start_of t p).
    rewrite Hsplit, walk_app.
    rewrite (walk_mono (nodes t) _ before (insert_subseteq _ _ _ El) _ _ _ Ew).
    simpl. rewrite Hst, Hup, lookup_insert_eq. done.
  - (* the walk ends at a file where a directory is needed *)
    unfold sys_mkdir, mkdir_plan. destruct p as [|c0 p0] eqn:Ep; [done|].
    rewrite <- Ep in *.
    assert (Hstart : start_of (emit (CStat p StatFail) t) p = start_of t p)
      by done.
    rewrite Hstart. simpl nodes. simpl may_make.
    pose proof (last_split_slash_plain p Hne He) as Hlast.
    rewrite strip_end_id by done.
    destruct (snoc_cases _ (split_slash_not_nil p)) as (before & c & Hsplit).
    rewrite Hsplit, unsnoc_snoc.
    assert (Hres : resolve t p
                   = walk (nodes t) (start_of t p) (before ++ [c])).
    { unfold resolve. rewrite Ep, <- Ep. by rewrite Hsplit. }
    rewrite walk_app in Hres.
    destruct (walk (nodes t) (start_of t p) before) as [| |d [|]] eqn:Ew;
      try done.
    simpl in Hres.
    destruct (stays c) eqn:Hst; [congruence|].
    destruct (goes_up c) eqn:Hup; [congruence|]. simpl.
    destruct (nodes t !! (d ++ [c])) as [[|]|] eqn:El; congruence.
Qed.

Lemma targets_from_plain (rest : string) :
  ∀ (dn : string) (b : bool) (q : string),
    q ∈ targets_from dn b rest →
    (b = false → dn ≠ EmptyString ∧ ends_with_slash dn = false) →
    q ≠ EmptyString ∧ ends_with_slash q = false.
Proof.
  induction rest as [|c rest IH]; intros dn b q Hin Hb.
  - by apply elem_of_nil in Hin.
  - simpl in Hin. destruct (Ascii.eqb c "/") eqn:Hc.
    + apply elem_of_app in Hin as [Hin|Hin].
      * destruct b; [by apply elem_of_nil in Hin|].
        apply list_elem_of_singleton in Hin as ->. by apply Hb.
      * by apply (IH _ _ _ Hin).
    + apply (IH _ _ _ Hin). intros _. split.
      * by destruct dn.
      * by rewrite ends_with_slash_app.
Qed.

Lemma make_dirs_true (ps : list string) (mode : Z) :
  ∀ (t t' : tree),
    make_dirs ps mode t = (true, t') →
    ∀ q, q ∈ ps →
         ∃ ti ti', grown t ti ∧ make_dir q mode ti = (true, ti')
                   ∧ grown ti' t'.
Proof.
  induction ps as [|p ps IH]; intros t t' H q Hin.
  - by apply elem_of_nil in Hin.
  - simpl in H. pose proof (make_dir_grown p mode t) as Hg.
    destruct (make_dir p mode t) as [[|] t1] eqn:E; [|done].
    simpl in Hg.
    apply elem_of_cons in Hin as [->|Hin].
    + exists t, t1. split; [apply grown_refl|]. split; [done|].
      pose proof (make_dirs_grown ps mode t1) as Hg'.
      by rewrite H in Hg'.
    + destruct (IH _ _ H q Hin) as (ti & ti' & H1 & H2 & H3).
      exists ti, ti'. split; [by eapply grown_trans|done].
Qed.

Lemma targets_from_snoc_slash (q : string) :
  ∀ (dn : string) (b : bool),
    targets_from dn b (q +:+ "/")
    = targets_from dn b q
      ++ (if match q with
             | EmptyString => negb b
             | _ => negb (ends_with_slash q)
             end
          then [dn +:+ q] else []).
Proof.
  induction q as [|c q IH]; intros dn b.
  - simpl. rewrite app_empty_r. by destruct b.
  - rewrite app_cons. simpl targets_from.
    destruct (Ascii.eqb c "/") eqn:Hc.
    + apply Ascii.eqb_eq in Hc as ->.
      rewrite IH, <- (assoc_L (++)). f_equal. f_equal.
      rewrite app_assoc. simpl. by destruct q.
    + rewrite IH. f_equal.
      rewrite app_assoc. simpl. rewrite Hc.
      by destruct q.
Qed.

Lemma resolve_nonempty (t : tree) (s : string) :
  s ≠ EmptyString →
  resolve t s = walk (nodes t) (start_of t s) (split_slash s).
Proof. by destruct s. Qed.

Lemma resolve_snoc_slash (t : tree) (q : string) (d : list string) :
  q ≠ EmptyString →
  resolve t q = Found d KDir → resolve t (q +:+ "/") = Found d KDir.
Proof.
  intros Hne.
  assert (Hs : start_of t (q +:+ "/") = start_of t q) by by destruct q.
  assert (Hq : q +:+ "/" ≠ EmptyString) by by destruct q.
  rewrite !resolve_nonempty by done.
  rewrite Hs, split_slash_snoc, walk_app. intros ->. done.
Qed.

(** A path that ends with a slash is a directory when the leading
    parts the loop stops at are. *)
Lemma resolve_slash_end (t : tree) (n : nat) :
  ∀ p, String.length p = n →
       (∀ q, q ∈ targets_from EmptyString true p →
             ∃ d, resolve t q = Found d KDir) →
       ends_with_slash p = true →
       ∃ d, resolve t p = Found d KDir.
Proof.
  induction n as [n IH] using lt_wf_ind. intros p Hlen Hall He.
  destruct (ends_with_slash_snoc p He) as [q ->].
  rewrite targets_from_snoc_slash in Hall.
  destruct (decide (q = EmptyString)) as [->|Hne].
  - exists []. reflexivity.
  - assert (Hq : ∃ d, resolve t q = Found d KDir).
    { destruct (ends_with_slash q) eqn:Heq.
      - apply (IH (String.length q)); [|done| |done].
        + rewrite length_app in Hlen. simpl in Hlen. lia.
        + intros r Hr. apply Hall. apply elem_of_app. by left.
      - apply Hall. apply elem_of_app. right.
        destruct q as [|c q']; [done|].
        simpl. left. }
    destruct Hq as [d Hd]. exists d. by apply resolve_snoc_slash.
Qed.

(** When [mkdir_parents] returns true, the path is a directory. *)
Lemma mkdir_parents_true (path : string) (mode : Z) (t t' : tree) :
  mkdir_parents (Some path) mode t = (true, t') →
  (∀ q, q ∈ targets path → ∃ d, resolve t' q = Found d KDir).
Proof.
  rewrite mkdir_parents_make_dirs. intros H.
  assert (Hloop : ∀ q, q ∈ targets_from EmptyString true path →
                       ∃ d, resolve t' q = Found d KDir).
  { intros q Hq.
    destruct (make_dirs_true _ _ _ _ H q) as (ti & ti' & _ & Hmk & Hg).
    { unfold targets. apply elem_of_app. by left. }
    destruct (targets_from_plain _ _ _ _ Hq) as [Hne He]; [done|].
    destruct (make_dir_true_plain q mode ti ti' Hne He Hmk) as [d Hd].
    exists d. by apply (resolve_mono ti'). }
  intros q Hq. unfold targets in Hq.
  apply elem_of_app in Hq as [Hq|Hq]; [by apply Hloop|].
  apply list_elem_of_singleton in Hq as ->.
  destruct (make_dirs_true _ _ _ _ H path) as (ti & ti' & _ & Hmk & Hg).
  { unfold targets. apply elem_of_app. right. left. }
  destruct path as [|c0 p0] eqn:Ep.
  { pose proof (make_dir_empty mode ti) as Hf. by rewrite Hmk in Hf. }
  rewrite <- Ep in *.
  destruct (ends_with_slash path) eqn:He.
  - by apply (resolve_slash_end t' (String.length path)).
  - destruct (make_dir_true_plain path mode ti ti') as [d Hd];
      [by rewrite Ep|done..|].
    exists d. by apply (resolve_mono ti').
Qed.

(** *** Paths that are there already *)

Lemma make_dir_dir (q : string) (mode : Z) (t : tree) (d : list string) :
  resolve t q = Found d KDir →
  make_dir q mode t = (true, emit (CStat q (StatOk KDir)) t).
Proof. intros H. unfold make_dir, sys_stat. by rewrite H. Qed.

Lemma make_dir_file (q : string) (mode : Z) (t : tree) (d : list string) :
  resolve t q = Found d KFile →
  make_dir q mode t
  = (false, emit (CPerror2 q mode) (emit (CStat q (StatOk KFile)) t)).
Proof. intros H. unfold make_dir, sys_stat. by rewrite H. Qed.

Lemma make_dirs_dirs (ps : list string) (mode : Z) :
  ∀ t, (∀ q, q ∈ ps → ∃ d, resolve t q = Found d KDir) →
       ∃ t', make_dirs ps mode t = (true, t')
             ∧ nodes t' = nodes t ∧ cwd t' = cwd t
             ∧ may_make t' = may_make t
             ∧ calls t' = calls t ++ ((λ q, CStat q (StatOk KDir)) <$> ps).
Proof.
  induction ps as [|p ps IH]; intros t Hall.
  - exists t. simpl. by rewrite app_nil_r.
  - destruct (Hall p) as [d Hd]; [left|].
    simpl. rewrite (make_dir_dir _ _ _ _ Hd).
    destruct (IH (emit (CStat p (StatOk KDir)) t))
      as (t' & -> & Hn & Hc & Hm & Hcalls).
    { intros q Hq. rewrite resolve_emit. apply Hall. by right. }
    exists t'. split; [done|]. repeat split; try done.
    rewrite Hcalls. simpl. by rewrite <- (assoc_L (++)).
Qed.

(** *** The order of the targets *)

Lemma targets_from_behind (rest : string) :
  ∀ dn b q, q ∈ targets_from dn b rest → ∃ m, q = dn +:+ m.
Proof.
  induction rest as [|c rest IH]; intros dn b q Hin.
  - by apply elem_of_nil in Hin.
  - simpl in Hin. destruct (Ascii.eqb c "/").
    + apply elem_of_app in Hin as [Hin|Hin].
      * destruct b; [by apply elem_of_nil in Hin|].
        apply list_elem_of_singleton in Hin as ->.
        exists EmptyString. by rewrite app_empty_r.
      * destruct (IH _ _ _ Hin) as [m ->]. exists ("/" +:+ m).
        by rewrite app_assoc.
    + destruct (IH _ _ _ Hin) as [m ->]. exists (String c m).
      by rewrite app_assoc.
Qed.

Lemma targets_from_order (rest : string) :
  ∀ dn b l1 q l2,
    targets_from dn b rest = l1 ++ q :: l2 →
    (∃ r, dn +:+ rest = q +:+ "/" +:+ r)
    ∧ ∀ p, p ∈ l1 → ∃ r, q = p +:+ "/" +:+ r.
Proof.
  induction rest as [|c rest IH]; intros dn b l1 q l2 E.
  - by destruct l1.
  - simpl in E. destruct (Ascii.eqb_spec c "/") as [->|Hc].
    + destruct b.
      * simpl in E. destruct (IH _ _ _ _ _ E) as [[r Hr] Hl1].
        split; [|done]. exists r. by rewrite <- Hr, app_assoc.
      * simpl in E. destruct l1 as [|p l1].
        -- simpl in E. injection E as <- E. split; [by exists rest|].
           intros p Hp. by apply elem_of_nil in Hp.
        -- simpl in E. injection E as <- E.
           destruct (IH _ _ _ _ _ E) as [[r Hr] Hl1].
           split; [exists r; by rewrite <- Hr, app_assoc|].
           intros p' [->|Hp']%elem_of_cons; [|by apply Hl1].
           destruct (targets_from_behind rest (dn +:+ "/") true q)
             as [m ->].
           { rewrite E. apply elem_of_app. right. left. }
           exists m. by rewrite app_assoc.
    + destruct (IH _ _ _ _ _ E) as [[r Hr] Hl1].
      split; [|done]. exists r. by rewrite <- Hr, app_assoc.
Qed.

Lemma targets_order (path : string) (l1 l2 : list string) (q : string) :
  targets path = l1 ++ q :: l2 →
  ∀ p, p ∈ l1 →
       p ≠ EmptyString ∧ ∃ r, q = p +:+ "/" +:+ r.
Proof.
  unfold targets. intros E p Hp.
  destruct (decide (l2 = [])) as [->|Hne].
  - apply app_inj_tail in E as [<- <-].
    split.
    { by destruct (targets_from_plain _ _ _ _ Hp). }
    apply list_elem_of_split in Hp as (a & b & Ep).
    destruct (targets_from_order _ _ _ _ _ _ Ep) as [[r Hr] _].
    exists r. by rewrite <- Hr.
  - destruct (snoc_cases l2 Hne) as (l2' & x & ->).
    change (l1 ++ q :: l2' ++ [x]) with (l1 ++ (q :: l2') ++ [x]) in E.
    rewrite (assoc_L (++)) in E.
    apply app_inj_tail in E as [E _].
    split.
    { assert (Hin : p ∈ targets_from EmptyString true path).
      { rewrite E. apply elem_of_app. by left. }
      by destruct (targets_from_plain _ _ _ _ Hin). }
    destruct (targets_from_order _ _ _ _ _ _ E) as [_ Hl1]. by apply Hl1.
Qed.

Lemma resolve_lead (t : tree) (p r : string) (d : list string) (k : kind) :
  p ≠ EmptyString →
  resolve t (p +:+ "/" +:+ r) = Found d k →
  ∃ d', resolve t p = Found d' KDir.
Proof.
  intros Hne.
  assert (Hq : p +:+ "/" +:+ r ≠ EmptyString) by by destruct p.
  assert (Hs : start_of t (p +:+ "/" +:+ r) = start_of t p)
    by by destruct p.
  rewrite !resolve_nonempty by done.
  rewrite Hs, split_slash_app, walk_app.
  pose proof (split_slash_not_nil r) as Hr.
  destruct (walk (nodes t) (start_of t p) (split_slash p))
    as [| |d' [|]]; try done.
  - intros _. by exists d'.
  - by destruct (split_slash r).
Qed.

(** *** Names joined by slashes *)

Lemma add_dirs_insert (ds : list (list string)) (d : list string)
    (ns : gmap (list string) kind) :
  add_dirs ds (<[d := KDir]> ns) = <[d := KDir]> (add_dirs ds ns).
Proof.
  induction ds as [|d' ds IH]; [done|]. simpl. rewrite IH.
  destruct (decide (d' = d)) as [->|Hne]; [done|].
  by apply insert_insert_ne.
Qed.

Lemma start_of_cwd (t t1 : tree) (p : string) :
  cwd t1 = cwd t → start_of t1 p = start_of t p.
Proof. intros H. unfold start_of. by rewrite H. Qed.

(** [make_dir] for a path whose last part is the name [c], in the
    directory [d0]. *)
Lemma make_dir_name (p : string) (mode : Z) (t : tree)
    (parts : list string) (d0 : list string) (c : string) :
  split_slash p = parts ++ [c] →
  walk (nodes t) (start_of t p) parts = Found d0 KDir →
  plain c = true →
  nodes t !! (d0 ++ [c]) ≠ Some KFile →
  (nodes t !! (d0 ++ [c]) = None → may_make t (d0 ++ [c]) = true) →
  ∃ t1, make_dir p mode t = (true, t1)
        ∧ nodes t1 = <[d0 ++ [c] := KDir]> (nodes t)
        ∧ cwd t1 = cwd t ∧ may_make t1 = may_make t.
Proof.
  intros Hsplit Hw Hc Hfile Hmay.
  apply plain_spec in Hc as (Hst & Hup & Hs & Hcne).
  assert (Hp : p ≠ EmptyString).
  { intros ->. simpl in Hsplit. destruct parts as [|x [|y parts]];
      simpl in Hsplit; congruence. }
  assert (Hres : resolve t p = walk (nodes t) d0 [c]).
  { rewrite resolve_nonempty, Hsplit, walk_app, Hw by done. done. }
  simpl in Hres. rewrite Hst, Hup in Hres.
  unfold make_dir, sys_stat. rewrite Hres.
  destruct (nodes t !! (d0 ++ [c])) as [[|]|] eqn:El; [|done|].
  - eexists. split; [done|]. simpl. split; [|done].
    by rewrite insert_id.
  - unfold sys_mkdir, mkdir_plan.
    destruct p as [|a p'] eqn:Ep; [done|]. rewrite <- Ep in *.
    change (start_of (emit (CStat p StatFail) t) p) with (start_of t p).
    simpl nodes. simpl may_make.
    rewrite strip_end_id.
    + rewrite Hsplit, unsnoc_snoc, Hw, Hst, Hup. simpl.
      rewrite El, Hmay by done.
      eexists. split; [done|]. done.
    + rewrite Hsplit, last_snoc. by intros [= ->].
Qed.

End DirFacts.

Module DirTheorems.
Import Filter Sys Dirs StringFacts DirFacts.
Import PurgeExtras.

Lemma targets_from_leads (cs : list string) :
  ∀ behind,
    Forall (λ c, plain c = true) cs → cs ≠ [] →
    targets_from behind true (join cs) ++ [behind +:+ join cs]
    = leads_from behind cs.
Proof.
  induction cs as [|c cs IH]; intros behind Hcs Hne; [done|].
  apply Forall_cons in Hcs as [Hc Hcs].
  apply plain_spec in Hc as (_ & _ & Hs & Hcne).
  destruct cs as [|c' cs].
  - simpl. by rewrite targets_from_no_slash.
  - change (join (c :: c' :: cs)) with (c +:+ "/" +:+ join (c' :: cs)).
    rewrite targets_from_seg by done.
    destruct c as [|a c]; [done|].
    change (leads_from behind (String a c :: c' :: cs))
      with ((behind +:+ String a c)
            :: leads_from (behind +:+ String a c +:+ "/") (c' :: cs)).
    rewrite <- (IH (behind +:+ String a c +:+ "/")) by done.
    rewrite <- (assoc_L (++)). simpl app at 1.
    do 3 f_equal. by rewrite !app_assoc.
Qed.

(** [mkdir_parents] is [make_dir] for each leading part of the path
    that ends before a slash and not with one, shortest first, and
    then for the path itself, up to the first that fails.  For names
    joined by slashes these are the paths of one name more each, with
    the slash of an absolute path in front. *)
Theorem mkdir_parents_by_parts (path : string) (mode : Z) (t : tree) :
  mkdir_parents (Some path) mode t = make_dirs (targets path) mode t
  ∧ mkdir_parents None mode t = (false, t)
  ∧ ∀ (cs : list string) (absolute : bool),
      Forall (λ c, plain c = true) cs → cs ≠ [] →
      targets ((if absolute then "/" else EmptyString) +:+ join cs)
      = leads_from (if absolute then "/" else EmptyString) cs.
Proof.
  split; [apply mkdir_parents_make_dirs|]. split; [done|].
  intros cs absolute Hcs Hne. unfold targets. destruct absolute.
  - rewrite <- (targets_from_leads cs "/") by done. done.
  - rewrite <- (targets_from_leads cs EmptyString) by done. done.
Qed.

(** When [mkdir_parents] returns true, the path is a directory, and so
    is each of its leading parts. *)
Theorem mkdir_parents_makes_directory (path : string) (mode : Z)
    (t t' : tree) :
  mkdir_parents (Some path) mode t = (true, t') →
  (∃ d, resolve t' path = Found d KDir)
  ∧ ∀ q, q ∈ targets path → ∃ d, resolve t' q = Found d KDir.
Proof.
  intros H. pose proof (mkdir_parents_true path mode t t' H) as Hall.
  split; [|done]. apply Hall. unfold targets.
  apply elem_of_app. right. left.
Qed.

(** Whatever it returns, [mkdir_parents] removes and changes no entry:
    what is there stays as it is, and what is new is a directory. *)
Theorem mkdir_parents_only_adds (dirpath : option string) (mode : Z)
    (t : tree) :
  grown t (mkdir_parents dirpath mode t).2.
Proof.
  destruct dirpath as [path|]; [|apply grown_refl].
  rewrite mkdir_parents_make_dirs. apply make_dirs_grown.
Qed.

(** A second [mkdir_parents] for the same path, after one that
    returned true, only calls [stat], once for each leading part and
    the path, finds a directory each time and returns true; it makes
    nothing. *)
Theorem mkdir_parents_twice (path : string) (mode : Z) (t t' : tree) :
  mkdir_parents (Some path) mode t = (true, t') →
  ∃ t'', mkdir_parents (Some path) mode t' = (true, t'')
         ∧ nodes t'' = nodes t'
         ∧ calls t''
           = calls t' ++ ((λ q, CStat q (StatOk KDir)) <$> targets path).
Proof.
  intros H. pose proof (mkdir_parents_true path mode t t' H) as Hall.
  rewrite mkdir_parents_make_dirs.
  destruct (make_dirs_dirs (targets path) mode t' Hall)
    as (t'' & E & Hn & _ & _ & Hc).
  by exists t''.
Qed.

(** When a leading part of the path, or the path itself, is a file
    that is no directory, [mkdir_parents] returns false: it finds the
    leading parts before it to be directories, makes nothing, and
    reports the file. *)
Theorem mkdir_parents_blocked_by_file (path q : string) (mode : Z)
    (t : tree) (d : list string) :
  q ∈ targets path →
  resolve t q = Found d KFile →
  (mkdir_parents (Some path) mode t).1 = false
  ∧ nodes (mkdir_parents (Some path) mode t).2 = nodes t
  ∧ last (calls (mkdir_parents (Some path) mode t).2)
    = Some (CPerror2 q mode).
Proof.
  intros Hin Hq. rewrite mkdir_parents_make_dirs.
  apply list_elem_of_split in Hin as (l1 & l2 & E). rewrite E.
  assert (Hl1 : ∀ p, p ∈ l1 → ∃ d', resolve t p = Found d' KDir).
  { intros p Hp.
    destruct (targets_order path l1 l2 q E p Hp) as [Hne [r ->]].
    by apply (resolve_lead t p r d KFile). }
  rewrite make_dirs_app.
  destruct (make_dirs_dirs l1 mode t Hl1) as (t1 & -> & Hn & Hc & Hm & Hcalls).
  simpl.
  assert (Hq1 : resolve t1 q = Found d KFile).
  { revert Hq. unfold resolve, start_of. by rewrite Hn, Hc. }
  rewrite (make_dir_file _ _ _ _ Hq1). simpl.
  split; [done|]. split; [done|]. apply last_snoc.
Qed.

Lemma make_dirs_leads (mode : Z) (cs : list string) :
  ∀ (behind : string) (parts start d0 : list string) (t : tree),
    Forall (λ c, plain c = true) cs →
    (∀ c s', plain c = true → start_of t (behind +:+ c +:+ s') = start) →
    (∀ s, split_slash (behind +:+ s) = parts ++ split_slash s) →
    walk (nodes t) start parts = Found d0 KDir →
    (∀ d, d ∈ way d0 cs → nodes t !! d ≠ Some KFile) →
    (∀ d, d ∈ way d0 cs → nodes t !! d = None → may_make t d = true) →
    ∃ t', make_dirs (leads_from behind cs) mode t = (true, t')
          ∧ nodes t' = add_dirs (way d0 cs) (nodes t)
          ∧ cwd t' = cwd t ∧ may_make t' = may_make t.
Proof.
  induction cs as [|c cs IH];
    intros behind parts start d0 t Hcs J1 J2 Hw Hfile Hmay.
  - by exists t.
  - apply Forall_cons in Hcs as [Hc Hcs].
    pose proof (plain_spec c Hc) as (Hst & Hup & Hs & Hcne).
    simpl leads_from. simpl make_dirs.
    destruct (make_dir_name (behind +:+ c) mode t parts d0 c)
      as (t1 & -> & Hn1 & Hc1 & Hm1).
    { by rewrite J2, split_slash_no_slash. }
    { pose proof (J1 c EmptyString Hc) as H.
      rewrite app_empty_r in H. by rewrite H. }
    { done. }
    { apply Hfile. left. }
    { apply Hmay. left. }
    assert (Hsub : nodes t ⊆ nodes t1).
    { rewrite Hn1. destruct (nodes t !! (d0 ++ [c])) as [[|]|] eqn:El.
      - by rewrite insert_id.
      - by destruct (Hfile (d0 ++ [c])); [left|].
      - by apply insert_subseteq. }
    destruct (IH (behind +:+ c +:+ "/") (parts ++ [c]) start (d0 ++ [c]) t1)
      as (t' & E & Hn & Hc' & Hm'); try done.
    + intros c' s' Hc'.
      rewrite (start_of_cwd t t1) by done.
      rewrite !app_assoc. by apply J1.
    + intros s.
      replace ((behind +:+ c +:+ "/") +:+ s)
        with ((behind +:+ c) +:+ "/" +:+ s) by (by rewrite !app_assoc).
      rewrite split_slash_app, J2. by rewrite split_slash_no_slash.
    + rewrite walk_app, (walk_mono _ _ _ Hsub _ _ _ Hw). simpl.
      rewrite Hst, Hup, Hn1, lookup_insert_eq. done.
    + intros d Hd. rewrite Hn1.
      destruct (decide (d0 ++ [c] = d)) as [<-|Hne].
      * by rewrite lookup_insert_eq.
      * rewrite lookup_insert_ne by done. apply Hfile. by right.
    + intros d Hd. rewrite Hn1, Hm1.
      destruct (decide (d0 ++ [c] = d)) as [<-|Hne].
      * by rewrite lookup_insert_eq.
      * rewrite lookup_insert_ne by done. apply Hmay. by right.
    + exists t'. split; [done|]. split; [|split; congruence].
      rewrite Hn, Hn1. simpl. apply add_dirs_insert.
Qed.

(** [mkdir_parents] for names joined by slashes, as [mkdir -p] does:
    when none of the directories on the way is a file that is no
    directory and the system permits to make those that are not there,
    it returns true and the entries are those before with these
    directories among them. *)
Theorem mkdir_parents_names (cs : list string) (absolute : bool)
    (mode : Z) (t : tree) :
  Forall (λ c, plain c = true) cs → cs ≠ [] →
  (∀ d, d ∈ way (if absolute then [] else cwd t) cs →
        nodes t !! d ≠ Some KFile) →
  (∀ d, d ∈ way (if absolute then [] else cwd t) cs →
        nodes t !! d = None → may_make t d = true) →
  (mkdir_parents
     (Some ((if absolute then "/" else EmptyString) +:+ join cs)) mode t).1
  = true
  ∧ nodes (mkdir_parents
             (Some ((if absolute then "/" else EmptyString) +:+ join cs))
             mode t).2
    = add_dirs (way (if absolute then [] else cwd t) cs) (nodes t).
Proof.
  intros Hcs Hne Hfile Hmay. rewrite mkdir_parents_make_dirs.
  assert (Ht : targets ((if absolute then "/" else EmptyString) +:+ join cs)
               = leads_from (if absolute then "/" else EmptyString) cs).
  { unfold targets. destruct absolute.
    - rewrite <- (targets_from_leads cs "/") by done. done.
    - rewrite <- (targets_from_leads cs EmptyString) by done. done. }
  rewrite Ht.
  destruct (make_dirs_leads mode cs
              (if absolute then "/" else EmptyString)
              (if absolute then [EmptyString] else [])
              (if absolute then [] else cwd t)
              (if absolute then [] else cwd t) t)
    as (t' & -> & Hn & _); try done.
  - intros c s' Hc. destruct absolute; [done|].
    apply plain_spec in Hc as (_ & _ & Hs & Hcne).
    destruct c as [|a c]; [done|]. simpl in *.
    apply orb_false_iff in Hs as [-> _]. done.
  - intros s. by destruct absolute.
  - by destruct absolute.
Qed.

End DirTheorems.

Module DirWitnesses.
Import Filter Sys Dirs DirScenario DirTheorems.

Lemma mkdir_parents_makes_directory_witness :
  ∃ d, resolve (mkdir_parents (Some "logs//app/") mode_0755 home_tree).2
         "logs//app/"
       = Found d KDir.
Proof.
  refine (proj1 (mkdir_parents_makes_directory "logs//app/" mode_0755
                   home_tree
                   (mkdir_parents (Some "logs//app/") mode_0755
                      home_tree).2 _)).
  vm_compute. reflexivity.
Defined.

Lemma mkdir_parents_twice_witness :
  ∃ t'',
    mkdir_parents (Some "logs/app") mode_0755
      (mkdir_parents (Some "logs/app") mode_0755 home_tree).2
    = (true, t'')
    ∧ nodes t''
      = nodes (mkdir_parents (Some "logs/app") mode_0755 home_tree).2
    ∧ calls t''
      = calls (mkdir_parents (Some "logs/app") mode_0755 home_tree).2
        ++ ((λ q, CStat q (StatOk KDir)) <$> targets "logs/app").
Proof.
  apply (mkdir_parents_twice "logs/app" mode_0755 home_tree).
  vm_compute. reflexivity.
Defined.

Lemma mkdir_parents_blocked_by_file_witness :
  (mkdir_parents (Some "f/logs") mode_0755 home_tree).1 = false.
Proof.
  apply (mkdir_parents_blocked_by_file "f/logs" "f" mode_0755 home_tree
           ["home"; "f"]).
  - vm_compute. left.
  - vm_compute. reflexivity.
Defined.

Lemma mkdir_parents_names_witness :
  (mkdir_parents (Some "logs/app") mode_0755 home_tree).1 = true.
Proof.
  apply (mkdir_parents_names ["logs"; "app"] false mode_0755 home_tree).
  - repeat constructor.
  - done.
  - intros d Hd. simpl in Hd.
    apply elem_of_cons in Hd as [->|Hd]; [vm_compute; discriminate|].
    apply list_elem_of_singleton in Hd as ->. vm_compute. discriminate.
  - intros d Hd _. reflexivity.
Defined.

(** The calls for a path with an empty part and a slash at the end. *)
Example mkdir_parents_calls :
  calls (mkdir_parents (Some "logs//app/") mode_0755 home_tree).2
  = [CStat "logs" StatFail; CMkdir "logs" mode_0755 MkdirOk;
     CStat "logs//app" StatFail; CMkdir "logs//app" mode_0755 MkdirOk;
     CStat "logs//app/" (StatOk KDir)].
Proof. vm_compute. reflexivity. Qed.

(** [make_dir] alone takes a file with a slash after its name for a
    directory that is there: [stat] fails and [mkdir] answers
    [EEXIST].  [mkdir_parents] has stopped at the file before. *)
Example make_dir_file_slash :
  (make_dir "f/" mode_0755 home_tree).1 = true
  ∧ (mkdir_parents (Some "f/") mode_0755 home_tree).1 = false.
Proof. split; vm_compute; reflexivity. Qed.

End DirWitnesses.

Module SizeExtras.
Import CInt Options Filter Sys Logger FileSpec TraceSpec OptionRead LoopRead.
Import WorldFacts StepFacts TraceFacts LoopFacts RunFacts.
Import OptionExtras NextFileExtras LoopExtras.

Lemma ticked_sum t ts t' ts' :
  ticked t ts t' ts' →
  t' + foldr Z.add 0 ts' = t + foldr Z.add 0 ts.
Proof. induction 1 as [|t d ts t' ts' _ IH]; [done|]. simpl. lia. Qed.

Lemma sum_nonneg (ts : list Z) :
  Forall (λ d, 0 ≤ d) ts → 0 ≤ foldr Z.add 0 ts.
Proof. induction 1; simpl; lia. Qed.

Lemma Forall_suffix {A} (P : A → Prop) (l k : list A) :
  l `suffix_of` k → Forall P k → Forall P l.
Proof. intros [m ->] H. by apply Forall_app in H as [_ ?]. Qed.

(** A [write] the system does not fail takes some of the bytes. *)
Lemma sys_write_range (fd0 : fdesc) (data : list byte) (w : world) :
  Forall (λ o, o ≠ WriteFail) (write_outcomes w) → fd0 ≠ FdBad →
  0 ≤ fst (sys_write fd0 data w) ≤ Z.of_nat (length data).
Proof.
  intros Ho Hfd. unfold sys_write.
  destruct (write_outcomes w) as [|[|n] os].
  - destruct fd0; simpl; try done; rewrite length_take; lia.
  - by apply Forall_cons in Ho as [? _].
  - destruct fd0; simpl; try done; rewrite length_take; lia.
Qed.

(** A turn of the loop when no [write] fails: the log file takes some
    of the bytes of the chunk. *)
Lemma copy_chunk_counts (c : config) (buffer : list byte) (st : loop_state)
    (w : world) :
  Forall (λ o, o ≠ WriteFail) (write_outcomes w) → fd st ≠ FdBad →
  ∃ r1 r2 mm w4,
    let t := fst (tick (now w) (ticks w)) in
    let st1 :=
      {| fd := fd st; lastTime := lastTime st;
         total := to_size_t (total st + r2);
         last_char :=
           if 0 <? Z.of_nat (length buffer)
           then default (last_char st) (last buffer)
           else last_char st |} in
    copy_chunk c buffer st w
    = (if rotation_due c (t - lastTime st) (total st1)
       then rotate c st1 w4 else (st1, w4))
    ∧ later w w4
        ([EvWrite FdStdout buffer r1; EvWrite (fd st) buffer r2]
         ++ mm ++ [EvTime t])
    ∧ Forall quiet mm
    ∧ now w4 = t
    ∧ ticks w4 = snd (tick (now w) (ticks w))
    ∧ 0 ≤ r2 ≤ Z.of_nat (length buffer).
Proof.
  intros Ho Hfd. unfold copy_chunk.
  destruct (later_sys_write FdStdout buffer w) as [Hl1 _].
  destruct (sys_write_clock FdStdout buffer w) as [Hn1 Ht1].
  destruct (sys_write FdStdout buffer w) as [m1 w1]. cbn [fst snd] in *.
  assert (Ho1 : Forall (λ o, o ≠ WriteFail) (write_outcomes w1))
    by (eapply Forall_suffix; [apply (later_outcomes _ _ _ Hl1)|done]).
  pose proof (sys_write_range (fd st) buffer w1 Ho1 Hfd) as Hr2.
  destruct (later_sys_write (fd st) buffer w1) as [Hl2 _].
  destruct (sys_write_clock (fd st) buffer w1) as [Hn2 Ht2].
  destruct (sys_write (fd st) buffer w1) as [m2 w2]. cbn [fst snd] in *.
  set (w3 := if m1 =? m2 then w2 else emit (EvMismatch m1 m2) w2).
  assert (H3 : ∃ mm, later w2 w3 mm ∧ Forall quiet mm
                     ∧ now w3 = now w2 ∧ ticks w3 = ticks w2).
  { unfold w3. destruct (m1 =? m2).
    - exists []. split; [apply later_refl|]. by split.
    - eexists [_]. split; [by apply later_emit|].
      split; [by repeat constructor|done]. }
  destruct H3 as (mm & Hl3 & Hmm & Hn3 & Ht3).
  destruct (later_sys_time w3) as (Hl4 & _).
  destruct (sys_time_clock w3) as (Hn4 & Ht4 & Hr4).
  destruct (sys_time w3) as [t w4]. cbn [fst snd] in *.
  rewrite Hn3, Hn2, Hn1, Ht3, Ht2, Ht1 in *. subst t.
  exists m1, m2, mm, w4.
  split; [done|]. split.
  { eapply later_eq.
    - eapply later_trans; [apply Hl1|].
      eapply later_trans; [apply Hl2|].
      eapply later_trans; [apply Hl3|apply Hl4].
    - done. }
  split; [done|]. split; [done|]. split; [done|]. exact Hr2.
Qed.

Lemma content_cons (x : write_call) (calls : list write_call) :
  content (x :: calls) = accepted x ++ content calls.
Proof. done. Qed.

Lemma accepted_length (b : list byte) (r : Z) :
  0 ≤ r ≤ Z.of_nat (length b) →
  Z.of_nat (length (accepted (b, r))) = r.
Proof. intros H. unfold accepted. simpl. rewrite length_take. lia. Qed.

(** The copy loop when no [write] fails, every [creat] succeeds and
    the clock stays within the age limit: the byte count is the number
    of bytes the current file has taken, so a file is only rotated
    away with at least [sizeLimit] bytes in it. *)
Lemma copy_loop_sizes (c : config) (reads : list read_result) :
  1 ≤ ageLimit (limits c) →
  ∀ (st : loop_state) (w : world),
    fd st ≠ FdStdout → fd st ≠ FdBad →
    (∀ p, may_creat w p = true) →
    Forall (λ o, o ≠ WriteFail) (write_outcomes w) →
    Forall (λ d, 0 ≤ d) (ticks w) →
    now w + foldr Z.add 0 (ticks w) - lastTime st < ageLimit (limits c) →
    0 ≤ total st →
    total st + Z.of_nat (length (concat (delivered reads))) < ULONG_MOD →
    ∃ evs c1 rest,
      later w (copy_loop c reads st w).2 evs
      ∧ (∀ calls closed,
            foldl record ((fd st, calls) :: closed) evs
            = reverse ((fd st, calls ++ c1) :: rest) ++ closed)
      ∧ (rest ≠ [] →
         sizeLimit (limits c) ≤ total st + Z.of_nat (length (content c1)))
      ∧ Forall (λ ep, sizeLimit (limits c)
                      ≤ Z.of_nat (length (content (snd ep))))
               (removelast rest)
      ∧ Forall (λ ep, ∃ p, fst ep = FdLog p) rest.
Proof.
  intros Hage. induction reads as [|r reads IH];
    intros st w Hfd Hbad Hcr Ho Hts Hspan Htot Hwrap.
  - simpl. exists [EvRead (ReadBytes [])], [], [].
    split; [by apply later_emit|].
    split; [intros; simpl; by rewrite app_nil_r|].
    split; [done|]. split; constructor.
  - assert (Hstop : ∀ e, inert e → quiet e →
              ∃ evs c1 rest,
                later w (emit e w) evs
                ∧ (∀ calls closed,
                      foldl record ((fd st, calls) :: closed) evs
                      = reverse ((fd st, calls ++ c1) :: rest) ++ closed)
                ∧ (rest ≠ [] →
                   sizeLimit (limits c)
                   ≤ total st + Z.of_nat (length (content c1)))
                ∧ Forall (λ ep, sizeLimit (limits c)
                                ≤ Z.of_nat (length (content (snd ep))))
                         (removelast rest)
                ∧ Forall (λ ep, ∃ p, fst ep = FdLog p) rest).
    { intros e Hi Hq. exists [e], [], [].
      split; [by apply later_emit|].
      split.
      { intros. rewrite foldl_record_quiet by by repeat constructor.
        simpl. by rewrite app_nil_r. }
      split; [done|]. split; constructor. }
    assert (Hskip : ∀ e w',
              inert e → quiet e →
              (∃ evs c1 rest,
                  later (emit e w) w' evs
                  ∧ (∀ calls closed,
                        foldl record ((fd st, calls) :: closed) evs
                        = reverse ((fd st, calls ++ c1) :: rest) ++ closed)
                  ∧ (rest ≠ [] →
                     sizeLimit (limits c)
                     ≤ total st + Z.of_nat (length (content c1)))
                  ∧ Forall (λ ep, sizeLimit (limits c)
                                  ≤ Z.of_nat (length (content (snd ep))))
                           (removelast rest)
                  ∧ Forall (λ ep, ∃ p, fst ep = FdLog p) rest) →
              ∃ evs c1 rest,
                later w w' evs
                ∧ (∀ calls closed,
                      foldl record ((fd st, calls) :: closed) evs
                      = reverse ((fd st, calls ++ c1) :: rest) ++ closed)
                ∧ (rest ≠ [] →
                   sizeLimit (limits c)
                   ≤ total st + Z.of_nat (length (content c1)))
                ∧ Forall (λ ep, sizeLimit (limits c)
                                ≤ Z.of_nat (length (content (snd ep))))
                         (removelast rest)
                ∧ Forall (λ ep, ∃ p, fst ep = FdLog p) rest).
    { intros e w' Hi Hq (evs & c1 & rest & Hl & Hf & H3 & H4 & H5).
      exists (e :: evs), c1, rest.
      split; [by apply (later_trans _ _ _ [e] evs (later_emit e w Hi))|].
      split; [|done].
      intros calls closed. simpl. rewrite <- Hf. f_equal. by destruct e. }
    destruct r as [buffer| |].
    + simpl in *. destruct (take BUFFER_SIZE buffer) as [|x xs] eqn:Eb.
      * by apply Hstop.
      * set (b := x :: xs) in *.
        set (w0 := emit (EvRead (ReadBytes buffer)) w).
        apply (Hskip (EvRead (ReadBytes buffer))); [done..|].
        fold w0.
        destruct (copy_chunk_counts c b st w0 Ho Hbad)
          as (r1 & r2 & mm & w4 & Ecc & Hl & Hmm & Hn4 & Ht4 & Hr2).
        change (now w0) with (now w) in *.
        change (ticks w0) with (ticks w) in *.
        change (concat (b :: delivered reads))
          with (b ++ concat (delivered reads)) in Hwrap.
        rewrite length_app in Hwrap.
        assert (Hid : to_size_t (total st + r2) = total st + r2).
        { apply OptionFacts.to_size_t_id. lia. }
        rewrite Hid in Ecc.
        set (st1 := {| fd := fd st; lastTime := lastTime st;
                       total := total st + r2;
                       last_char :=
                         if 0 <? Z.of_nat (length b)
                         then default (last_char st) (last b)
                         else last_char st |}) in *.
        destruct (ticked_monotone _ _ _ _ (later_clock _ _ _ Hl) Hts)
          as [Hts4 Hle4].
        pose proof (ticked_sum _ _ _ _ (later_clock _ _ _ Hl)) as Hsum4.
        change (now w0) with (now w) in *.
        change (ticks w0) with (ticks w) in *.
        pose proof (sum_nonneg _ Hts4) as Hs4.
        assert (Ho4 : Forall (λ o, o ≠ WriteFail) (write_outcomes w4))
          by (eapply Forall_suffix; [apply (later_outcomes _ _ _ Hl)|done]).
        assert (Hcr4 : ∀ p, may_creat w4 p = true)
          by by eapply may_creat_later.
        rewrite Ecc.
        destruct (rotation_due c _ (total st1)) eqn:Hdue.
        -- (* the rotation is due *)
           pose proof (rotation_due_age c _ _ Hage Hdue) as Hage1.
           assert (Hsize : sizeLimit (limits c) ≤ total st + r2).
           { unfold rotation_due in Hdue.
             apply orb_true_iff in Hdue as [Hd|Hd].
             - apply Z.leb_le in Hd. rewrite <- Hn4 in Hd. lia.
             - apply andb_true_iff in Hd as [Hd _].
               by apply Z.leb_le in Hd. }
           destruct (rotate_later c st1 w4)
             as (rn & ret & q1 & q2 & Hrot & Hrn & Hq1 & Hq2 & Est & Hnow
                 & Hticks & Hfd' & Hok & Hcases & _).
           apply perror_tail_quiet in Hq2.
           set (tn := (tick (now w4) (ticks w4)).1) in *.
           set (tl := (tick tn (tick (now w4) (ticks w4)).2).1) in *.
           destruct (tick_monotone (now w4) (ticks w4) Hts4) as [Htn Hts4'].
           destruct (tick_monotone tn _ Hts4') as [Htl Hts5].
           fold tn tl in Htn, Htl.
           specialize (Hok (Hcr4 _)).
           pose proof (ticked_sum _ _ _ _ (later_clock _ _ _ Hrot)) as Hsum5.
           rewrite (surjective_pairing (rotate c st1 w4)). cbv iota.
           destruct (IH (rotate c st1 w4).1 (rotate c st1 w4).2)
             as (evs & c1 & rest & Hl' & Hf & H3 & H4 & H5).
           { done. }
           { by rewrite Hok. }
           { by eapply may_creat_later. }
           { eapply Forall_suffix; [apply (later_outcomes _ _ _ Hrot)|done]. }
           { by rewrite Hticks. }
           { rewrite Est. cbn [lastTime]. rewrite Hsum5. lia. }
           { by rewrite Est. }
           { rewrite Est. cbn [total]. lia. }
           rewrite Est in H3. cbn [total] in H3.
           eexists (_ ++ (_ ++ evs)),
             ((b, r2) :: seal_calls (last_char st1) rn),
             ((fd (rotate c st1 w4).1, c1) :: rest).
           split.
           { eapply later_trans; [apply Hl|].
             eapply later_trans; [apply Hrot|apply Hl']. }
           split.
           { intros calls closed.
             rewrite foldl_app, foldl_record_tee by done.
             change (fd st) with (fd st1).
             rewrite foldl_app, foldl_record_rotation by done.
             rewrite Hf. rewrite !reverse_cons, <- !(assoc_L (++)). done. }
           split.
           { intros _. rewrite content_cons, length_app, Nat2Z.inj_add.
             rewrite accepted_length by done. lia. }
           split.
           { destruct rest as [|ep rest']; [constructor|].
             change (removelast ((fd (rotate c st1 w4).1, c1) :: ep :: rest'))
               with ((fd (rotate c st1 w4).1, c1) :: removelast (ep :: rest')).
             constructor; [|done]. simpl. apply H3. done. }
           constructor; [|done]. simpl. by eexists.
        -- (* no rotation *)
           destruct (IH st1 w4) as (evs & c1 & rest & Hl' & Hf & H3 & H4 & H5);
             try done.
           { simpl. lia. }
           { simpl. lia. }
           { simpl. lia. }
           eexists (_ ++ evs), ((b, r2) :: c1), rest.
           split; [eapply later_trans; [apply Hl|apply Hl']|].
           split.
           { intros calls closed. rewrite foldl_app.
             rewrite foldl_record_tee by done.
             change (fd st) with (fd st1). rewrite Hf.
             by rewrite <- (assoc_L (++)). }
           split; [|done].
           intros Hrest. specialize (H3 Hrest). simpl in H3.
           rewrite content_cons, length_app, Nat2Z.inj_add.
           rewrite accepted_length by done. lia.
    + simpl in *. apply (Hskip (EvRead ReadEINTR)); [done..|].
      by apply IH.
    + simpl. by apply Hstop.
Qed.

Lemma sizes_of_logs (P : list byte → Prop)
    (eps : list (fdesc * list write_call)) :
  Forall (λ ep, ∃ p, fst ep = FdLog p) eps →
  Forall (λ ep, P (content (snd ep))) (removelast eps) →
  Forall (λ pd, P (snd pd)) (removelast (omap log_of eps)).
Proof.
  induction eps as [|[fd0 calls] eps IH]; intros Hlog Hall; [constructor|].
  apply Forall_cons in Hlog as [[p Hp] Hlog]. simpl in Hp. subst fd0.
  change (omap log_of ((FdLog p, calls) :: eps))
    with ((p, content calls) :: omap log_of eps).
  destruct eps as [|[fd1 calls1] eps]; [constructor|].
  change (removelast ((FdLog p, calls) :: (fd1, calls1) :: eps))
    with ((FdLog p, calls) :: removelast ((fd1, calls1) :: eps)) in Hall.
  apply Forall_cons in Hall as [Hhead Hall].
  specialize (IH Hlog Hall).
  pose proof Hlog as Hlog'.
  apply Forall_cons in Hlog' as [[p1 Hp1] _]. simpl in Hp1. subst fd1.
  change (omap log_of ((FdLog p1, calls1) :: eps))
    with ((p1, content calls1) :: omap log_of eps) in *.
  change (removelast ((p, content calls) :: (p1, content calls1)
                      :: omap log_of eps))
    with ((p, content calls)
          :: removelast ((p1, content calls1) :: omap log_of eps)).
  by constructor.
Qed.

(** When no [write] fails, every [creat] succeeds and the run stays
    within the age limit, the byte count of the loop is the number of
    bytes the current log file has taken: every log file of the run
    but the last holds at least [sizeLimit] bytes. *)
Theorem closed_files_reach_size_limit (os : list getopt_ret)
    (out : list printed) (s0 : settings) (directory prefix : string)
    (more : list string) (reads : list read_result) (w : world) :
  process_options os defaults = (out, Next s0) →
  may_mkdir w directory = true →
  (∀ p, may_creat w p = true) →
  Forall (λ o, o ≠ WriteFail) (write_outcomes w) →
  Forall (λ d, 0 ≤ d) (ticks w) →
  foldr Z.add 0 (ticks w) < ageLimit (sanitise s0) →
  Z.of_nat (length (input_stream reads)) < ULONG_MOD →
  ∃ evs,
    later w (main os (directory :: prefix :: more) reads w).2 evs
    ∧ Forall (λ pd, sizeLimit (sanitise s0) ≤ Z.of_nat (length (snd pd)))
             (removelast (produced evs)).
Proof.
  intros Hopts Hmk Hcr Ho Hts Hspan Hwrap. unfold main. rewrite Hopts.
  pose proof (later_printf out w) as Hlp.
  destruct (printf_oracles out w) as (Hmkp & Hcrp & Himp & _ & Hnp & Htp).
  set (wp := printf out w) in *.
  assert (Hname : name_at wp = name_at w)
    by (unfold name_at; by rewrite Himp).
  destruct (run_started (sanitise s0) directory prefix more reads wp)
    as (pre & post & w4 & Hret & Hlpre & Hfpre & Hwpre & Hcpre & Hf4 & Hn4
        & Ht4 & Hlpost & Hqpost & Hipost & Hspost & Hsc & Hul & Hfw4).
  { by rewrite Hmkp. }
  { by rewrite Hcrp. }
  rewrite Hname, Hnp, Htp in *.
  set (tn0 := (tick (now w) (ticks w)).1) in *.
  set (name0 := name_at w directory prefix tn0) in *.
  set (c := {| limits := sanitise s0; directory := directory;
               prefix := prefix |}) in *.
  set (st0 := {| fd := FdLog name0;
                 lastTime := (tick tn0 (tick (now w) (ticks w)).2).1;
                 total := 0; last_char := newline |}) in *.
  assert (Hl4 : later w w4 ((EvPrintf <$> out) ++ pre))
    by by eapply later_trans.
  destruct (ticked_monotone _ _ _ _ (later_clock _ _ _ Hl4) Hts)
    as [Hts4 Hle4].
  pose proof (ticked_sum _ _ _ _ (later_clock _ _ _ Hl4)) as Hsum4.
  destruct (copy_loop_sizes c reads) with (st := st0) (w := w4)
    as (evl & c1 & rest & Hll & Hfl & H3 & H4 & H5); try done.
  { unfold c, sanitise. simpl. destruct (ageLimit s0 <? 10) eqn:E; [lia|].
    apply Z.ltb_ge in E. lia. }
  { by eapply may_creat_later. }
  { eapply Forall_suffix; [apply (later_outcomes _ _ _ Hl4)|done]. }
  { rewrite Hn4. change (limits c) with (sanitise s0). lia. }
  assert (Hqout : Forall quiet (EvPrintf <$> out))
    by (apply Forall_fmap, Forall_forall; by intros).
  exists (((EvPrintf <$> out) ++ pre) ++ evl ++ post).
  split.
  { eapply later_trans; [apply Hl4|]. by eapply later_trans. }
  assert (Hep : epochs (((EvPrintf <$> out) ++ pre) ++ evl ++ post)
                = (FdLog name0, c1) :: rest).
  { unfold epochs. rewrite !foldl_app.
    rewrite (foldl_record_quiet (EvPrintf <$> out)) by done.
    rewrite Hfpre. pose proof (Hfl [] []) as H4'.
    change (fd st0) with (FdLog name0) in H4'. rewrite H4'.
    rewrite foldl_record_quiet by done.
    by rewrite app_nil_r, reverse_involutive. }
  unfold produced. rewrite Hep.
  apply (sizes_of_logs
           (λ d, sizeLimit (sanitise s0) ≤ Z.of_nat (length d))).
  - constructor; [by eexists|done].
  - destruct rest as [|ep rest']; [constructor|].
    change (removelast ((FdLog name0, c1) :: ep :: rest'))
      with ((FdLog name0, c1) :: removelast (ep :: rest')).
    constructor; [|done]. simpl.
    change (total st0) with 0 in H3. rewrite Z.add_0_l in H3.
    by apply H3.
Qed.

Lemma closed_files_reach_size_limit_witness :
  ∃ evs,
    later (Scenario.world_with ∅ 9)
      (main Scenario.small_limits ["d"; "p"] Scenario.three_reads
         (Scenario.world_with ∅ 9)).2 evs
    ∧ Forall (λ pd, sizeLimit (sanitise {| sizeLimit := 1;
                                           ageLimit := 86400;
                                           numberToKeep := 1 |})
                    ≤ Z.of_nat (length (snd pd)))
             (removelast (produced evs)).
Proof.
  apply (closed_files_reach_size_limit Scenario.small_limits []
           {| sizeLimit := 1; ageLimit := 86400; numberToKeep := 1 |}
           "d" "p" [] Scenario.three_reads (Scenario.world_with ∅ 9)).
  - reflexivity.
  - reflexivity.
  - intros p. reflexivity.
  - constructor.
  - simpl. repeat (constructor; [lia|]). constructor.
  - vm_compute. reflexivity.
  - vm_compute. reflexivity.
Defined.

End SizeExtras.
